(** * opnsense-cli generator: resolver, identifier transform, parameter
    grammar and emitter grouping

  Shallow embedding of the Python generator under [generate/]:
  - [generate/parser/name_transform.py]   (module [NameTransform])
  - [generate/parser/endpoint_resolver.py] (module [Resolver])
  - [generate/parser/markdown_parser.py], [_parse_parameters]
    (module [MarkdownParser])
  - [generate/emitter/go_emitter.py], [_collect_endpoints]
    (module [GoEmitter])
  - [generate/emitter/cli_emitter.py], resource grouping, display
    columns and verb selection of [_collect_resources]
    (module [CliEmitter])

  Python [str] values are modelled as [string] (sequences of 8-bit
  characters).  Case conversion acts on the ASCII letters only and
  leaves every other character alone, which is what [str.lower],
  [str.upper] and [str.title] do on ASCII text; the tokens the generator
  handles (commands, controller names, XML element names) are ASCII
  identifiers.  Whitespace is the ASCII whitespace of [str.strip] and
  [str.isspace].  Beyond ASCII, Python converts further letters (and
  [str.upper] may lengthen the text) and strips further blanks: the
  embedding is exact on ASCII text, which [isascii] tests, and a
  property that compares the cases of a text is stated for ASCII text.

  Python sets that are only tested for membership are [gset string],
  lookup tables are [gmap], and the insertion-ordered dictionaries whose
  iteration order reaches the output are association lists. *)

From Stdlib Require Import Ascii String List Bool Arith Lia.
From stdpp Require Import base option list gmap strings.

(** ** Python string primitives *)

Module PyStr.

Definition is_upper_char (c : ascii) : bool :=
  let n := nat_of_ascii c in (65 <=? n) && (n <=? 90).

Definition is_lower_char (c : ascii) : bool :=
  let n := nat_of_ascii c in (97 <=? n) && (n <=? 122).

Definition to_lower (c : ascii) : ascii :=
  if is_upper_char c then ascii_of_nat (nat_of_ascii c + 32) else c.

Definition to_upper (c : ascii) : ascii :=
  if is_lower_char c then ascii_of_nat (nat_of_ascii c - 32) else c.

(** ASCII whitespace as understood by [str.strip()] and [str.isspace()]:
    TAB, LF, VT, FF, CR, the separators 0x1c-0x1f and the space. *)
Definition is_space (c : ascii) : bool :=
  let n := nat_of_ascii c in
  ((9 <=? n) && (n <=? 13)) || ((28 <=? n) && (n <=? 32)).

Fixpoint map_chars (f : ascii -> ascii) (s : string) : string :=
  match s with
  | EmptyString => EmptyString
  | String c r => String (f c) (map_chars f r)
  end.

Fixpoint any_char (p : ascii -> bool) (s : string) : bool :=
  match s with
  | EmptyString => false
  | String c r => p c || any_char p r
  end.

Fixpoint all_chars (p : ascii -> bool) (s : string) : bool :=
  match s with
  | EmptyString => true
  | String c r => p c && all_chars p r
  end.

(** [s.lower()], [s.upper()] *)
Definition lower (s : string) : string := map_chars to_lower s.
Definition upper (s : string) : string := map_chars to_upper s.

(** [s.isupper()]: at least one cased character and no lowercase one. *)
Definition isupper (s : string) : bool :=
  any_char is_upper_char s && negb (any_char is_lower_char s).

(** [s.isascii()]: every character is below 128.  On such text the
    functions of this module are exactly Python's. *)
Definition is_ascii_char (c : ascii) : bool := nat_of_ascii c <? 128.

Definition isascii (s : string) : bool := all_chars is_ascii_char s.

(** [s.isspace()]: non-empty and whitespace only. *)
Definition isspace (s : string) : bool :=
  match s with
  | EmptyString => false
  | _ => all_chars is_space s
  end.

(** truthiness of a string: [if s] *)
Definition nonempty (s : string) : bool :=
  match s with EmptyString => false | _ => true end.

(** [c in s] for a one-character needle *)
Definition contains (c : ascii) (s : string) : bool :=
  any_char (Ascii.eqb c) s.

(** [s[n:]] *)
Fixpoint drop (n : nat) (s : string) : string :=
  match n, s with
  | O, _ => s
  | S _, EmptyString => EmptyString
  | S n', String _ r => drop n' r
  end.

(** [s[:n]] *)
Fixpoint take (n : nat) (s : string) : string :=
  match n, s with
  | O, _ => EmptyString
  | S _, EmptyString => EmptyString
  | S n', String c r => String c (take n' r)
  end.

(** [s[i]] for [i >= 0]; [None] stands for [IndexError]. *)
Definition index (s : string) (i : nat) : option ascii := String.get i s.

(** [s.startswith(p)] *)
Fixpoint startswith (s p : string) {struct p} : bool :=
  match p with
  | EmptyString => true
  | String a p' =>
      match s with
      | EmptyString => false
      | String b s' => Ascii.eqb a b && startswith s' p'
      end
  end.

(** [s.endswith(p)] *)
Definition endswith (s p : string) : bool :=
  (String.length p <=? String.length s)
  && String.eqb (drop (String.length s - String.length p) s) p.

(** [s.removesuffix(p)] *)
Definition removesuffix (s p : string) : string :=
  if endswith s p then take (String.length s - String.length p) s else s.

(** [s.replace(c, new)] for a one-character [c] *)
Fixpoint replace (c : ascii) (new : string) (s : string) : string :=
  match s with
  | EmptyString => EmptyString
  | String d r =>
      if Ascii.eqb d c then new +:+ replace c new r
      else String d (replace c new r)
  end.

(** [s.lstrip(chars)], [s.rstrip(chars)], [s.strip(chars)], with the
    stripped characters given as a predicate. *)
Fixpoint lstrip_by (p : ascii -> bool) (s : string) : string :=
  match s with
  | EmptyString => EmptyString
  | String c r => if p c then lstrip_by p r else s
  end.

Fixpoint rstrip_by (p : ascii -> bool) (s : string) : string :=
  match s with
  | EmptyString => EmptyString
  | String c r =>
      match rstrip_by p r with
      | EmptyString => if p c then EmptyString else String c EmptyString
      | r' => String c r'
      end
  end.

Definition strip_by (p : ascii -> bool) (s : string) : string :=
  rstrip_by p (lstrip_by p s).

Definition lstrip (c : ascii) : string -> string := lstrip_by (Ascii.eqb c).
Definition rstrip (c : ascii) : string -> string := rstrip_by (Ascii.eqb c).
Definition strip_char (c : ascii) : string -> string := strip_by (Ascii.eqb c).
(** [s.strip()] *)
Definition strip : string -> string := strip_by is_space.

(** [s.split(sep)] for a one-character separator: never the empty list. *)
Fixpoint split (sep : ascii) (s : string) : list string :=
  match s with
  | EmptyString => [EmptyString]
  | String c r =>
      if Ascii.eqb c sep then EmptyString :: split sep r
      else match split sep r with
           | h :: t => String c h :: t
           | [] => [String c EmptyString]
           end
  end.

(** [s.split(sep, 1)] when [sep] occurs in [s]: the text before the first
    separator and the text after it.  Without a separator Python gives the
    one-element list [[s]]; the callers test [sep in s] first. *)
Fixpoint split_first (sep : ascii) (s : string) : string * string :=
  match s with
  | EmptyString => (EmptyString, EmptyString)
  | String c r =>
      if Ascii.eqb c sep then (EmptyString, r)
      else let '(a, b) := split_first sep r in (String c a, b)
  end.

(** [c * n]: the string of [n] copies of one character *)
Fixpoint repeat_char (c : ascii) (n : nat) : string :=
  match n with
  | O => EmptyString
  | S n' => String c (repeat_char c n')
  end.

(** [sep.join(parts)] *)
Fixpoint join (sep : string) (parts : list string) : string :=
  match parts with
  | [] => EmptyString
  | [p] => p
  | p :: rest => p +:+ sep +:+ join sep rest
  end.

End PyStr.

Import PyStr.

(** ** Intermediate representation ([generate/model/ir.py])

  One module per dataclass, so that the fields keep their names. *)

Module Param.
(** [class Parameter] *)
Record t := mk {
  name : string;
  required : bool;
  default : option string
}.
End Param.

Module ModelField.
Record t := mk {
  name : string;
  field_type : string;
  go_name : string;
  json_name : string;
  required : bool;
  default : option string;
  volatile : bool;
  multiple : bool;
  options : list string
}.

(** [f.go_type]: the dataclass declares no attribute of that name, so
    reading it raises [AttributeError], which [None] stands for. *)
Definition go_type (f : t) : option string := None.

(** [==] on fields: a dataclass compares field by field. *)
#[global] Instance eq_dec : EqDecision t.
Proof. solve_decision. Defined.
End ModelField.

Module ModelItem.
Record t := mk {
  name : string;
  go_name : string;
  container_name : string;
  fields : list ModelField.t
}.
End ModelItem.

Module Model.
Record t := mk {
  mount : string;
  xml_url : string;
  items : list ModelItem.t;
  version : string
}.
End Model.

Module Endpoint.
Record t := mk {
  methods : list string;
  module : string;
  controller : string;
  command : string;
  command_camel : string;
  url_path : string;
  go_method_name : string;
  parameters : list Param.t;
  crud_verb : string;
  model_item : option ModelItem.t;
  item_json_key : string
}.

(** An endpoint as the table parser constructs it: the three resolver
    fields take their dataclass defaults. *)
Definition parsed (methods : list string) (module controller command
    command_camel url_path go_method_name : string)
    (parameters : list Param.t) : t :=
  mk methods module controller command command_camel url_path
     go_method_name parameters "" None "".

(** The three assignments [ep.crud_verb = verb], [ep.model_item = item],
    [ep.item_json_key = key] of the resolver. *)
Definition annotate (verb : string) (item : ModelItem.t) (key : string)
    (ep : t) : t :=
  mk (methods ep) (module ep) (controller ep) (command ep)
     (command_camel ep) (url_path ep) (go_method_name ep) (parameters ep)
     verb (Some item) key.
End Endpoint.

Module Controller.
Record t := mk {
  name : string;
  php_file : string;
  base_class : string;
  is_abstract : bool;
  endpoints : list Endpoint.t;
  model : option Model.t;
  model_url : string
}.

Definition with_endpoints (eps : list Endpoint.t) (c : t) : t :=
  mk (name c) (php_file c) (base_class c) (is_abstract c) eps (model c)
     (model_url c).
End Controller.

Module ApiModule.
(** [class Module] *)
Record t := mk {
  name : string;
  category : string;
  controllers : list Controller.t
}.

Definition with_controllers (cs : list Controller.t) (m : t) : t :=
  mk (name m) (category m) cs.
End ApiModule.

(** ** Identifier transform ([generate/parser/name_transform.py]) *)

Module NameTransform.

Definition known_acronyms : list string :=
  [ "uuid"; "url"; "uri"; "api"; "ip"; "tcp"; "udp"; "dns"; "http"; "https";
    "tls"; "ssl"; "ssh"; "cpu"; "ram"; "os"; "id"; "io"; "xml"; "json";
    "html"; "css"; "php"; "sql"; "dhcp"; "nat"; "vpn"; "vlan"; "mac";
    "arp"; "icmp"; "igmp"; "bgp"; "ospf"; "rip"; "snmp"; "ntp"; "ldap";
    "acl"; "ha"; "qos" ].

Definition _KNOWN_ACRONYMS : gset string := list_to_set known_acronyms.

(** [len(p) == 1] *)
Definition is_single (p : string) : bool := String.length p =? 1.

(** The two nested [while] loops of [_group_single_chars].  The outer
    recursion is the outer loop; [collect] is the inner loop, entered
    with the first single character already upper-cased in [acronym]; it
    leaves at the end of the list or at the first part [q] that is not a
    single character, which the next outer iteration appends as it is. *)
Fixpoint _group_single_chars (parts : list string) : list string :=
  match parts with
  | [] => []
  | p :: rest =>
      if is_single p then
        (fix collect (acronym : string) (l : list string) : list string :=
           match l with
           | [] => [acronym]
           | q :: l' =>
               if is_single q then collect (acronym +:+ upper q) l'
               else acronym :: q :: _group_single_chars l'
           end) (upper p) rest
      else p :: _group_single_chars rest
  end.

(** [word[0].upper() + word[1:]]; the result is [None] when [word[0]]
    raises [IndexError]. *)
Definition capitalize_first (word : string) : option string :=
  c ← index word 0; Some (upper (String c EmptyString) +:+ drop 1 word).

(** Body of the [for word in grouped] loop of [snake_to_pascal], for a
    word that passed [if not word: continue]. *)
Definition pascal_word (word : string) : option string :=
  if (1 <? String.length word) && bool_decide (upper word ∈ _KNOWN_ACRONYMS)
  then Some (upper word)
  else if isupper word && (1 <? String.length word)
  then Some (upper word)
  else capitalize_first word.

Fixpoint pascal_loop (grouped : list string) : option (list string) :=
  match grouped with
  | [] => Some []
  | word :: rest =>
      if negb (nonempty word) then pascal_loop rest
      else piece ← pascal_word word;
           result ← pascal_loop rest;
           Some (piece :: result)
  end.

Definition snake_to_pascal (s : string) : option string :=
  if negb (contains "_" s) then
    if nonempty s then capitalize_first s else Some s
  else
    let s := lstrip "_" s in
    let parts := split "_" s in
    let grouped := _group_single_chars parts in
    result ← pascal_loop grouped;
    Some (join "" result).

(** Body of the [for i, word in enumerate(grouped)] loop of
    [snake_to_camel], for a word that passed [if not word: continue]. *)
Definition camel_word (i : nat) (word : string) : option string :=
  if i =? 0 then Some (lower word)
  else if (1 <? String.length word) && bool_decide (upper word ∈ _KNOWN_ACRONYMS)
  then Some (upper word)
  else if isupper word && (1 <? String.length word)
  then Some (upper word)
  else capitalize_first word.

Fixpoint camel_loop (i : nat) (grouped : list string) : option (list string) :=
  match grouped with
  | [] => Some []
  | word :: rest =>
      if negb (nonempty word) then camel_loop (S i) rest
      else piece ← camel_word i word;
           result ← camel_loop (S i) rest;
           Some (piece :: result)
  end.

Definition snake_to_camel (s : string) : option string :=
  if negb (contains "_" s) then Some s
  else
    let s := lstrip "_" s in
    let parts := split "_" s in
    match parts with
    | [] => Some s
    | _ =>
        let grouped := _group_single_chars parts in
        result ← camel_loop 0 grouped;
        Some (join "" result)
    end.

Definition controller_to_go_name (controller : string) : option string :=
  snake_to_pascal controller.

Definition module_to_package (module_name : string) : string :=
  replace "_" "" (lower module_name).

Definition go_method_name (controller command : string) : option string :=
  ctrl_part ← controller_to_go_name controller;
  cmd_part ← snake_to_pascal command;
  Some (ctrl_part +:+ cmd_part).

End NameTransform.

(** ** Endpoint resolver ([generate/parser/endpoint_resolver.py]) *)

Module Resolver.

Definition _CRUD_PREFIXES : list string :=
  ["add_"; "set_"; "get_"; "del_"; "search_"; "toggle_"].

(** Key: (module_name, controller_name, suffix), value: item name. *)
Definition _MANUAL_OVERRIDES : gmap (string * string * string) string :=
  <[("clamav", "url", "url") := "list"]>
    (<[("wol", "wol", "host") := "wolentry"]> ∅).

(** The [for prefix in ...] loop of [_parse_crud]; a prefix that matches
    with an empty remainder does not return and the loop goes on. *)
Fixpoint parse_crud_from (prefixes : list string) (command : string)
    : string * string :=
  match prefixes with
  | [] => ("", "")
  | prefix :: more =>
      if startswith command prefix then
        let verb := rstrip "_" prefix in
        let suffix := drop (String.length prefix) command in
        if nonempty suffix then (verb, suffix)
        else parse_crud_from more command
      else parse_crud_from more command
  end.

Definition _parse_crud (command : string) : string * string :=
  parse_crud_from _CRUD_PREFIXES command.

Definition _normalize (name : string) : string :=
  replace "_" "" (lower name).

(** [for item in items: if test(item): return item] *)
Definition first_item (test : ModelItem.t -> bool) (items : list ModelItem.t)
    : option ModelItem.t :=
  List.find test items.

(** A strategy that returns on a hit and otherwise falls through to the
    code after it. *)
Definition or_else {A} (hit : option A) (next : option A) : option A :=
  match hit with
  | Some x => Some x
  | None => next
  end.

Notation "a 'orelse' b" := (or_else a b)
  (at level 71, right associativity, only parsing).

(** [_match_item_suffix]: the generic [item] suffix, matched through the
    controller name. *)
Definition _match_item_suffix (controller : string)
    (items : list ModelItem.t) : option ModelItem.t :=
  let controller_lower := lower controller in
  let controller_norm := _normalize controller in
  first_item (fun item =>
    String.eqb (lower (ModelItem.name item)) controller_lower) items
  orelse first_item (fun item =>
    String.eqb (_normalize (ModelItem.name item)) controller_norm) items
  orelse first_item (fun item =>
    String.eqb (_normalize (ModelItem.container_name item)) controller_norm)
    items
  orelse (if 3 <=? String.length controller_norm then
    first_item (fun item =>
      let name_norm := _normalize (ModelItem.name item) in
      (String.length controller_norm <? String.length name_norm)
      && startswith name_norm controller_norm) items
    else None)
  orelse match items with
         | [only] => Some only
         | _ => None
         end.

(** *** The strategies of [_match_item], in source order *)

(** Manual override map (lines 77-83). *)
Definition by_override (suffix controller : string)
    (items : list ModelItem.t) (module_name : string) : option ModelItem.t :=
  match _MANUAL_OVERRIDES !! (module_name, controller, lower suffix) with
  | Some target =>
      first_item (fun item =>
        String.eqb (lower (ModelItem.name item)) target) items
  | None => None
  end.

(** Suffix against item names (lines 88-91). *)
Definition by_name (suffix : string) (items : list ModelItem.t) :=
  first_item (fun item =>
    String.eqb (lower (ModelItem.name item)) (lower suffix)) items.

(** Suffix against container names (lines 93-96). *)
Definition by_container (suffix : string) (items : list ModelItem.t) :=
  first_item (fun item =>
    String.eqb (lower (ModelItem.container_name item)) (lower suffix)) items.

(** Normalized match, names then containers (lines 98-104). *)
Definition by_normalized (suffix : string) (items : list ModelItem.t) :=
  first_item (fun item =>
    String.eqb (_normalize (ModelItem.name item)) (_normalize suffix)) items
  orelse first_item (fun item =>
    String.eqb (_normalize (ModelItem.container_name item))
               (_normalize suffix)) items.

(** [plurals] (lines 107-109); [suffix_lower[:-1]] drops the last
    character. *)
Definition plurals_of (suffix_lower : string) : list string :=
  (suffix_lower +:+ "s")
  :: (if endswith suffix_lower "y"
      then [take (String.length suffix_lower - 1) suffix_lower +:+ "ies"]
      else []).

(** [for plural in plurals: ...] (lines 110-116). *)
Fixpoint plural_loop (plurals : list string) (items : list ModelItem.t)
    : option ModelItem.t :=
  match plurals with
  | [] => None
  | plural :: more =>
      first_item (fun item =>
        String.eqb (lower (ModelItem.name item)) plural) items
      orelse first_item (fun item =>
        String.eqb (lower (ModelItem.container_name item)) plural) items
      orelse plural_loop more items
  end.

Definition by_plural (suffix : string) (items : list ModelItem.t) :=
  plural_loop (plurals_of (lower suffix)) items.

(** Suffix + "ing" (lines 118-121). *)
Definition by_ing (suffix : string) (items : list ModelItem.t) :=
  first_item (fun item =>
    String.eqb (lower (ModelItem.name item)) (lower suffix +:+ "ing")) items.

(** [for candidate in endswith_candidates: ...] (lines 126-134). *)
Fixpoint endswith_loop (candidates : list string)
    (items : list ModelItem.t) : option ModelItem.t :=
  match candidates with
  | [] => None
  | candidate :: more =>
      first_item (fun item =>
        let name_norm := _normalize (ModelItem.name item) in
        (String.length candidate <? String.length name_norm)
        && endswith name_norm candidate) items
      orelse first_item (fun item =>
        let container_norm := _normalize (ModelItem.container_name item) in
        (String.length candidate <? String.length container_norm)
        && endswith container_norm candidate) items
      orelse endswith_loop more items
  end.

(** Item name ends with the suffix or one of its plurals (lines 123-134). *)
Definition by_endswith (suffix : string) (items : list ModelItem.t) :=
  let endswith_candidates :=
    _normalize suffix :: map _normalize (plurals_of (lower suffix)) in
  endswith_loop endswith_candidates items.

(** Trailing "_item" stripped from the item name (lines 136-140). *)
Definition by_item_stripped (suffix : string) (items : list ModelItem.t) :=
  first_item (fun item =>
    let item_stripped := removesuffix (lower (ModelItem.name item)) "_item" in
    negb (String.eqb item_stripped (lower (ModelItem.name item)))
    && String.eqb item_stripped (lower suffix)) items.

(** Compound suffixes: concatenated, last word, first word
    (lines 142-162).  [parts] is never empty, so [parts[-1]] and
    [parts[0]] are its last and first element. *)
Definition by_compound (suffix : string) (items : list ModelItem.t) :=
  if contains "_" suffix then
    let parts := split "_" (lower suffix) in
    let concatenated := join "" parts in
    let last := List.last parts "" in
    let first := List.hd "" parts in
    first_item (fun item =>
      String.eqb (_normalize (ModelItem.name item)) concatenated) items
    orelse first_item (fun item =>
      String.eqb (lower (ModelItem.name item)) last) items
    orelse first_item (fun item =>
      String.eqb (lower (ModelItem.name item)) first) items
  else None.

(** Item or container name starts with the suffix (lines 164-174). *)
Definition by_startswith (suffix : string) (items : list ModelItem.t) :=
  let suffix_norm := _normalize suffix in
  if 3 <=? String.length suffix_norm then
    first_item (fun item =>
      let name_norm := _normalize (ModelItem.name item) in
      (String.length suffix_norm <? String.length name_norm)
      && startswith name_norm suffix_norm) items
    orelse first_item (fun item =>
      let container_norm := _normalize (ModelItem.container_name item) in
      (String.length suffix_norm <? String.length container_norm)
      && startswith container_norm suffix_norm) items
  else None.

Definition _match_item (suffix controller : string)
    (items : list ModelItem.t) (module_name : string)
    : option ModelItem.t :=
  by_override suffix controller items module_name
  orelse
    if String.eqb (lower suffix) "item"
    then _match_item_suffix controller items
    else
      by_name suffix items
      orelse by_container suffix items
      orelse by_normalized suffix items
      orelse by_plural suffix items
      orelse by_ing suffix items
      orelse by_endswith suffix items
      orelse by_item_stripped suffix items
      orelse by_compound suffix items
      orelse by_startswith suffix items.

(** Body of [for ep in ctrl.endpoints] in [resolve_endpoints].  A
    [ModelItem] instance is always true in a condition, so [if item]
    only tests for [None]. *)
Definition resolve_endpoint (module_name : string)
    (items : list ModelItem.t) (ep : Endpoint.t) : Endpoint.t :=
  let '(verb, suffix) := _parse_crud (Endpoint.command ep) in
  if negb (nonempty verb) then ep
  else
    match _match_item suffix (Endpoint.controller ep) items module_name with
    | Some item => Endpoint.annotate verb item (ModelItem.name item) ep
    | None => ep
    end.

(** Body of [for ctrl in module.controllers]: a controller without a
    model, or whose model has no items, is skipped. *)
Definition resolve_controller (module_name : string) (ctrl : Controller.t)
    : Controller.t :=
  match Controller.model ctrl with
  | None => ctrl
  | Some model =>
      match Model.items model with
      | [] => ctrl
      | items =>
          Controller.with_endpoints
            (map (resolve_endpoint module_name items)
                 (Controller.endpoints ctrl)) ctrl
      end
  end.

Definition resolve_module (module : ApiModule.t) : ApiModule.t :=
  ApiModule.with_controllers
    (map (resolve_controller (ApiModule.name module))
         (ApiModule.controllers module)) module.

(** [resolve_endpoints] updates the endpoints in place; the embedding
    returns the graph after the call.  Every [Endpoint] object sits in the
    list of one controller (the parser builds one per table row and one
    per endpoint merged from an abstract parent), so the update of an
    object is the update of its place in the tree; the models and their
    items, which controllers may share, are only read. *)
Definition resolve_endpoints (modules : list ApiModule.t)
    : list ApiModule.t :=
  map resolve_module modules.

End Resolver.

(** ** Parameter grammar ([generate/parser/markdown_parser.py]) *)

Module MarkdownParser.

(** Body of [for part in params_str.split(",")]: [None] is the
    [continue] of an empty part. *)
Definition parse_part (part : string) : option Param.t :=
  let part := lstrip "$" (strip part) in
  if negb (nonempty part) then None
  else if contains "=" part then
    let '(name, default) := split_first "=" part in
    Some (Param.mk (strip name) false (Some (strip default)))
  else Some (Param.mk (strip part) true None).

Definition _parse_parameters (params_str : string) : list Param.t :=
  if negb (nonempty params_str) || isspace params_str then []
  else
    let params_str := strip (strip_char "*" params_str) in
    if negb (startswith params_str "$") then []
    else omap parse_part (split "," params_str).

End MarkdownParser.

(** ** Client emitter ([generate/emitter/go_emitter.py]) *)

Module GoEmitter.

(** [for ep in ctrl.endpoints] of [_collect_endpoints], on the state
    ([endpoints], [seen]). *)
Fixpoint collect_from_controller (eps : list Endpoint.t)
    (st : list Endpoint.t * gset string) : list Endpoint.t * gset string :=
  match eps with
  | [] => st
  | ep :: more =>
      let '(endpoints, seen) := st in
      if bool_decide (Endpoint.go_method_name ep ∉ seen) then
        collect_from_controller more
          (endpoints ++ [ep], {[Endpoint.go_method_name ep]} ∪ seen)
      else collect_from_controller more st
  end.

(** [for ctrl in module.controllers] of [_collect_endpoints]. *)
Fixpoint collect_from_controllers (ctrls : list Controller.t)
    (st : list Endpoint.t * gset string) : list Endpoint.t * gset string :=
  match ctrls with
  | [] => st
  | ctrl :: more =>
      if Controller.is_abstract ctrl then collect_from_controllers more st
      else collect_from_controllers more
             (collect_from_controller (Controller.endpoints ctrl) st)
  end.

Definition _collect_endpoints (module : ApiModule.t) : list Endpoint.t :=
  fst (collect_from_controllers (ApiModule.controllers module) ([], ∅)).

End GoEmitter.

(** ** CLI emitter ([generate/emitter/cli_emitter.py]) *)

Module CliEmitter.

Definition _RESERVED_TYPE_NAMES : gset string := {[ "Client"; "NewClient" ]}.

Definition _safe_go_name (name : string) : string :=
  if bool_decide (name ∈ _RESERVED_TYPE_NAMES) then name +:+ "Config"
  else name.

Definition _CRUD_TO_CLI_VERB : gmap string string :=
  list_to_map
    [ ("search", "list"); ("get", "get"); ("add", "create");
      ("set", "update"); ("del", "delete"); ("toggle", "toggle") ].

Record CLIVerbView := {
  cli_verb : string;
  go_method : string;
  crud_verb : string;
  positional_params : list string;
  has_data_flag : bool;
  has_body_arg : bool;
  has_optional_params : bool;
  item_type : string;
  is_typed : bool;
  is_search : bool;
  search_needs_body : bool;
  primary_method : string;
  url_path : string
}.

Definition _normalize_kebab (raw : string) : string :=
  let parts := split "_" raw in
  let grouped := NameTransform._group_single_chars parts in
  join "-" (map lower (filter (fun p => nonempty p = true) grouped)).

(** *** The two regular expressions of [_resource_name_from_endpoint]

    Both are anchored patterns tried with [re.match].  The alternation
    [(add|get|set|del|search|toggle)] is tried in this order; [$]
    matches at the end of the string and also just before a newline
    that is its last character; [.] matches every character but a
    newline. *)

Definition crud_alternatives : list string :=
  ["add"; "get"; "set"; "del"; "search"; "toggle"].

Definition newline : ascii := "010"%char.

(** Can [$] match in front of the remaining text [tail]? *)
Definition at_dollar (tail : string) : bool :=
  String.eqb tail "" || String.eqb tail (String newline "").

(** The longest newline-free prefix, what a greedy [.+] first takes. *)
Fixpoint line_prefix (s : string) : string :=
  match s with
  | EmptyString => EmptyString
  | String c r =>
      if Ascii.eqb c newline then EmptyString
      else String c (line_prefix r)
  end.

(** [(.+)$] on the text after the underscore: the group, if it matches.
    Giving characters back never helps, [$] needs the end of the text or
    its final newline. *)
Definition dot_plus_dollar (s : string) : option string :=
  let body := line_prefix s in
  if nonempty body && at_dollar (drop (String.length body) s)
  then Some body else None.

(** [re.match(r'^(add|get|set|del|search|toggle)_item$', cmd)] *)
Definition crud_item_re (cmd : string) : bool :=
  existsb (fun verb =>
    startswith cmd (verb +:+ "_item")
    && at_dollar (drop (String.length (verb +:+ "_item")) cmd))
    crud_alternatives.

(** [re.match(r'^(add|get|set|del|search|toggle)_(.+)$', cmd)]:
    groups 1 and 2 of the match. *)
Fixpoint crud_named_from (verbs : list string) (cmd : string)
    : option (string * string) :=
  match verbs with
  | [] => None
  | verb :: more =>
      if startswith cmd (verb +:+ "_") then
        match dot_plus_dollar (drop (String.length (verb +:+ "_")) cmd) with
        | Some body => Some (verb, body)
        | None => crud_named_from more cmd
        end
      else crud_named_from more cmd
  end.

Definition crud_named_re (cmd : string) : option (string * string) :=
  crud_named_from crud_alternatives cmd.

Definition _resource_name_from_endpoint (ep : Endpoint.t) : string :=
  let cmd := Endpoint.command ep in
  if crud_item_re cmd then replace "_" "-" (lower (Endpoint.controller ep))
  else
    match crud_named_re cmd with
    | Some (_, group2) => _normalize_kebab group2
    | None => replace "_" "-" (lower (Endpoint.controller ep))
    end.

(** [_CRUD_TO_CLI_VERB.get(ep.crud_verb) or ep.crud_verb] *)
Definition _cli_verb_from_endpoint (ep : Endpoint.t) : string :=
  let cmd := Endpoint.command ep in
  if nonempty (Endpoint.crud_verb ep) then
    match _CRUD_TO_CLI_VERB !! Endpoint.crud_verb ep with
    | Some v => if nonempty v then v else Endpoint.crud_verb ep
    | None => Endpoint.crud_verb ep
    end
  else _normalize_kebab cmd.

(** [ep.methods[-1] if len(ep.methods) > 1 else ep.methods[0]]; [None]
    is the [IndexError] on an empty method list. *)
Definition primary_of (methods : list string) : option string :=
  if 1 <? length methods then List.last (map Some methods) None
  else methods !! 0.

Definition _build_verb_view (ep : Endpoint.t) (cli_verb : string)
    : option CLIVerbView :=
  let positional_params :=
    map Param.name
        (filter (fun p => Param.required p = true) (Endpoint.parameters ep)) in
  let has_optional_params :=
    existsb (fun p => negb (Param.required p)) (Endpoint.parameters ep) in
  primary ← primary_of (Endpoint.methods ep);
  let has_body := String.eqb primary "POST" in
  let is_typed := bool_decide (is_Some (Endpoint.model_item ep)) in
  let has_data_flag :=
    (String.eqb (Endpoint.crud_verb ep) "add"
     || String.eqb (Endpoint.crud_verb ep) "set") && is_typed in
  let is_search := String.eqb (Endpoint.crud_verb ep) "search" in
  let search_needs_body := is_search && has_body in
  Some {| cli_verb := cli_verb;
          go_method := Endpoint.go_method_name ep;
          crud_verb := Endpoint.crud_verb ep;
          positional_params := positional_params;
          has_data_flag := has_data_flag;
          has_body_arg := has_body && negb is_typed && negb is_search;
          has_optional_params := has_optional_params;
          item_type :=
            match Endpoint.model_item ep with
            | Some item => _safe_go_name (ModelItem.go_name item)
            | None => ""
            end;
          is_typed := is_typed;
          is_search := is_search;
          search_needs_body := search_needs_body;
          primary_method := primary;
          url_path := Endpoint.url_path ep |}.

(** *** [_collect_resources]: grouping (lines 200-221)

    [resource_eps] is an insertion-ordered dictionary from resource name
    to the list of (endpoint, cli verb) pairs; its order is the order of
    the emitted resources. *)

Definition resource_map := list (string * list (Endpoint.t * string)).

(** [resource_eps.setdefault(res, []).append(entry)] *)
Fixpoint setdefault_append (res : string) (entry : Endpoint.t * string)
    (resource_eps : resource_map) : resource_map :=
  match resource_eps with
  | [] => [(res, [entry])]
  | (k, l) :: rest =>
      if String.eqb k res then (k, l ++ [entry]) :: rest
      else (k, l) :: setdefault_append res entry rest
  end.

(** [for ep in ctrl.endpoints], on the state ([seen_methods],
    [resource_eps]). *)
Fixpoint group_endpoints (eps : list Endpoint.t) (seen_methods : gset string)
    (resource_eps : resource_map) : resource_map :=
  match eps with
  | [] => resource_eps
  | ep :: more =>
      if bool_decide (Endpoint.go_method_name ep ∈ seen_methods)
      then group_endpoints more seen_methods resource_eps
      else
        let seen_methods := {[Endpoint.go_method_name ep]} ∪ seen_methods in
        let res := _resource_name_from_endpoint ep in
        let cli_verb := _cli_verb_from_endpoint ep in
        group_endpoints more seen_methods
          (setdefault_append res (ep, cli_verb) resource_eps)
  end.

(** [for ctrl in module.controllers]: [seen_methods] starts empty for
    every controller. *)
Fixpoint group_controllers (ctrls : list Controller.t)
    (resource_eps : resource_map) : resource_map :=
  match ctrls with
  | [] => resource_eps
  | ctrl :: more =>
      if Controller.is_abstract ctrl then group_controllers more resource_eps
      else group_controllers more
             (group_endpoints (Controller.endpoints ctrl) ∅ resource_eps)
  end.

Definition has_key (k : string) (d : resource_map) : bool :=
  existsb (fun kv => String.eqb (fst kv) k) d.

(** [d.pop(k)]: the value and the dictionary without the key. *)
Fixpoint pop (k : string) (d : resource_map)
    : list (Endpoint.t * string) * resource_map :=
  match d with
  | [] => ([], [])
  | (k', l) :: rest =>
      if String.eqb k' k then (l, rest)
      else let '(v, rest') := pop k rest in (v, (k', l) :: rest')
  end.

(** [d[k].extend(more)] *)
Fixpoint extend_at (k : string) (more : list (Endpoint.t * string))
    (d : resource_map) : resource_map :=
  match d with
  | [] => []
  | (k', l) :: rest =>
      if String.eqb k' k then (k', l ++ more) :: rest
      else (k', l) :: extend_at k more rest
  end.

(** [res[:-1] if res.endswith("s") and len(res) > 2 else None] *)
Definition singular_of (res : string) : option string :=
  if endswith res "s" && (2 <? String.length res)
  then Some (take (String.length res - 1) res) else None.

(** Body of [for res in list(resource_eps.keys())]. *)
Definition merge_plural (resource_eps : resource_map) (res : string)
    : resource_map :=
  match singular_of res with
  | Some singular =>
      if nonempty singular && has_key singular resource_eps then
        let '(moved, without) := pop res resource_eps in
        extend_at singular moved without
      else resource_eps
  | None => resource_eps
  end.

Definition merge_plurals (resource_eps : resource_map) : resource_map :=
  fold_left merge_plural (map fst resource_eps) resource_eps.

(** [resource_eps] as it stands when the per-resource loop starts. *)
Definition grouped_resources (module : ApiModule.t) : resource_map :=
  merge_plurals (group_controllers (ApiModule.controllers module) []).

(** *** [_collect_resources]: per-resource verbs (lines 224-255) *)

(** Score: typed CRUD > untyped CRUD > plain. *)
Definition score_of (ep : Endpoint.t) : nat :=
  if nonempty (Endpoint.crud_verb ep)
     && bool_decide (is_Some (Endpoint.model_item ep)) then 2
  else if nonempty (Endpoint.crud_verb ep) then 1
  else 0.

(** [best]: insertion-ordered dictionary cli verb -> (endpoint, score). *)
Definition best_map := list (string * (Endpoint.t * nat)).

(** [best.get(cli_verb)] *)
Fixpoint best_get (cli_verb : string) (best : best_map)
    : option (Endpoint.t * nat) :=
  match best with
  | [] => None
  | (k, v) :: rest => if String.eqb k cli_verb then Some v else best_get cli_verb rest
  end.

(** [best[cli_verb] = v]: an existing key keeps its position. *)
Fixpoint best_set (cli_verb : string) (v : Endpoint.t * nat)
    (best : best_map) : best_map :=
  match best with
  | [] => [(cli_verb, v)]
  | (k, w) :: rest =>
      if String.eqb k cli_verb then (k, v) :: rest
      else (k, w) :: best_set cli_verb v rest
  end.

(** Body of [for ep, cli_verb in ep_list] (lines 239-248). *)
Definition best_step (best : best_map) (entry : Endpoint.t * string)
    : best_map :=
  let '(ep, cli_verb) := entry in
  let score := score_of ep in
  match best_get cli_verb best with
  | None => best_set cli_verb (ep, score) best
  | Some prev =>
      if snd prev <? score then best_set cli_verb (ep, score) best
      else best
  end.

Definition select_best (ep_list : list (Endpoint.t * string)) : best_map :=
  fold_left best_step ep_list [].

(** The endpoint behind every emitted verb, in emission order:
    [for cli_verb, (ep, _) in best.items()]. *)
Definition selected_verbs (ep_list : list (Endpoint.t * string))
    : list (string * Endpoint.t) :=
  map (fun kv => (fst kv, fst (snd kv))) (select_best ep_list).

(** [verbs]: one [_build_verb_view] per selected endpoint. *)
Definition verbs_of (ep_list : list (Endpoint.t * string))
    : option (list CLIVerbView) :=
  mapM (fun ve => _build_verb_view (snd ve) (fst ve)) (selected_verbs ep_list).

(** The primary item type of a resource (lines 226-232). *)
Definition primary_item (ep_list : list (Endpoint.t * string))
    : string * option ModelItem.t :=
  fold_left (fun st entry =>
    match Endpoint.model_item (fst entry) with
    | Some item =>
        if negb (nonempty (fst st))
        then (_safe_go_name (ModelItem.go_name item), Some item)
        else st
    | None => st
    end) ep_list ("", None).

Definition _PREFERRED_COLS : list string :=
  ["name"; "enabled"; "description"; "type"; "address"; "port";
   "interface"; "proto"; "content"; "status"].

(** One display column: [{"header", "field_name", "go_type"}]. *)
Record Column := {
  header : string;
  field_name : string;
  column_go_type : string
}.

(** [{f.json_name: f for f in item.fields}]: the last field of a name
    stays. *)
Definition fields_by_json_name (fields : list ModelField.t)
    : gmap string ModelField.t :=
  foldl (fun d f => <[ModelField.json_name f := f]> d) ∅ fields.

(** [for pref in _PREFERRED_COLS], on [ordered]. *)
Fixpoint preferred_columns (fields : gmap string ModelField.t)
    (prefs : list string) (ordered : list ModelField.t)
    : list ModelField.t :=
  match prefs with
  | [] => ordered
  | pref :: more =>
      let ordered :=
        match fields !! pref with
        | Some f => ordered ++ [f]
        | None => ordered
        end in
      if length ordered =? 8 then ordered
      else preferred_columns fields more ordered
  end.

(** [for f in item.fields], on [ordered]. *)
Fixpoint other_columns (fields : list ModelField.t)
    (ordered : list ModelField.t) : list ModelField.t :=
  match fields with
  | [] => ordered
  | f :: more =>
      let ordered :=
        if bool_decide (f ∉ ordered) then ordered ++ [f] else ordered in
      if length ordered =? 8 then ordered else other_columns more ordered
  end.

Definition ordered_columns (item : ModelItem.t) : list ModelField.t :=
  let fields := fields_by_json_name (ModelItem.fields item) in
  let ordered := preferred_columns fields _PREFERRED_COLS [] in
  if length ordered <? 8 then other_columns (ModelItem.fields item) ordered
  else ordered.

(** The body of [for f in ordered]: the column of a field. *)
Definition column_of (f : ModelField.t) : option Column :=
  let omitempty := negb (ModelField.required f) || ModelField.volatile f in
  go_type ← ModelField.go_type f;
  let go_type :=
    if omitempty && negb (String.eqb go_type "string") then "*" +:+ go_type
    else go_type in
  Some {| header := replace "_" " " (upper (ModelField.json_name f));
          field_name := ModelField.go_name f;
          column_go_type := go_type |}.

(** [_columns_for_item(item)]; [None] stands for the [AttributeError] of
    [f.go_type]. *)
Definition _columns_for_item (item : ModelItem.t) : option (list Column) :=
  mapM column_of (ordered_columns item).

(** [columns = _columns_for_item(item_model) if item_model else []] *)
Definition columns_for (item_model : option ModelItem.t)
    : option (list Column) :=
  match item_model with
  | Some item => _columns_for_item item
  | None => Some []
  end.

(** [raw_resources]: for every resource its name, its item type with the
    display columns, and its verbs; [None] stands for an exception
    ([AttributeError] from the columns, [IndexError] from a verb view).
    The later passes of [_collect_resources] only pick the Go identifier
    of each resource and its suggestions; the verbs are passed on as they
    are. *)
Definition raw_resources (module : ApiModule.t)
    : option (list (string * (string * list Column) * list CLIVerbView)) :=
  mapM (fun entry =>
          let '(item_type, item_model) := primary_item (snd entry) in
          columns ← columns_for item_model;
          verbs ← verbs_of (snd entry);
          Some (fst entry, (item_type, columns), verbs))
       (grouped_resources module).

End CliEmitter.

Import NameTransform Resolver MarkdownParser GoEmitter CliEmitter.

(** ** What the resolver may change

  The relations below compare the graph before and after
  [resolve_endpoints], field by field. *)

Module Frame.

(** The fields of an endpoint that the parser sets and the resolver
    never assigns. *)
Definition same_parsed_fields (ep ep' : Endpoint.t) : Prop :=
  Endpoint.methods ep' = Endpoint.methods ep
  /\ Endpoint.module ep' = Endpoint.module ep
  /\ Endpoint.controller ep' = Endpoint.controller ep
  /\ Endpoint.command ep' = Endpoint.command ep
  /\ Endpoint.command_camel ep' = Endpoint.command_camel ep
  /\ Endpoint.url_path ep' = Endpoint.url_path ep
  /\ Endpoint.go_method_name ep' = Endpoint.go_method_name ep
  /\ Endpoint.parameters ep' = Endpoint.parameters ep.

(** None of the three annotations was assigned. *)
Definition untouched (ep ep' : Endpoint.t) : Prop :=
  Endpoint.crud_verb ep' = Endpoint.crud_verb ep
  /\ Endpoint.model_item ep' = Endpoint.model_item ep
  /\ Endpoint.item_json_key ep' = Endpoint.item_json_key ep.

(** The resolver has nothing to record for [ep]: its command has no CRUD
    verb, or no item of [items] matches its suffix. *)
Definition unmatched (module_name : string) (items : list ModelItem.t)
    (ep : Endpoint.t) : Prop :=
  fst (_parse_crud (Endpoint.command ep)) = ""
  \/ _match_item (snd (_parse_crud (Endpoint.command ep)))
       (Endpoint.controller ep) items module_name = None.

(** All three annotations were assigned together: the non-empty verb of
    the command's CRUD prefix, the item that [_match_item] returns for
    the command's suffix, which is an item of the controller's model, and
    that item's name as key. *)
Definition linked (module_name : string) (items : list ModelItem.t)
    (ep ep' : Endpoint.t) : Prop :=
  exists item,
    _match_item (snd (_parse_crud (Endpoint.command ep)))
      (Endpoint.controller ep) items module_name = Some item
    /\ Endpoint.crud_verb ep' = fst (_parse_crud (Endpoint.command ep))
    /\ Endpoint.crud_verb ep' <> ""
    /\ Endpoint.model_item ep' = Some item
    /\ Endpoint.item_json_key ep' = ModelItem.name item
    /\ In item items.

Definition endpoint_frame (module_name : string) (items : list ModelItem.t)
    (ep ep' : Endpoint.t) : Prop :=
  same_parsed_fields ep ep'
  /\ ((unmatched module_name items ep /\ untouched ep ep')
      \/ linked module_name items ep ep').

Definition items_of (ctrl : Controller.t) : list ModelItem.t :=
  match Controller.model ctrl with
  | Some model => Model.items model
  | None => []
  end.

Definition controller_frame (module_name : string)
    (ctrl ctrl' : Controller.t) : Prop :=
  Controller.name ctrl' = Controller.name ctrl
  /\ Controller.php_file ctrl' = Controller.php_file ctrl
  /\ Controller.base_class ctrl' = Controller.base_class ctrl
  /\ Controller.is_abstract ctrl' = Controller.is_abstract ctrl
  /\ Controller.model ctrl' = Controller.model ctrl
  /\ Controller.model_url ctrl' = Controller.model_url ctrl
  /\ Forall2 (endpoint_frame module_name (items_of ctrl))
       (Controller.endpoints ctrl) (Controller.endpoints ctrl').

Definition module_frame (m m' : ApiModule.t) : Prop :=
  ApiModule.name m' = ApiModule.name m
  /\ ApiModule.category m' = ApiModule.category m
  /\ Forall2 (controller_frame (ApiModule.name m))
       (ApiModule.controllers m) (ApiModule.controllers m').

End Frame.

(** ** Parameter strings as the documentation writes them *)

Module ParamGrammar.

(** A parameter in the table: its name and, when optional, its default. *)
Definition written_param : Type := string * option string.

(** Characters of a name: no whitespace, comma, equals sign, sigil or
    asterisk. *)
Definition name_char (c : ascii) : bool :=
  negb (is_space c || Ascii.eqb c "," || Ascii.eqb c "="
        || Ascii.eqb c "$" || Ascii.eqb c "*").

(** Characters of a default: no whitespace, comma or asterisk. *)
Definition value_char (c : ascii) : bool :=
  negb (is_space c || Ascii.eqb c "," || Ascii.eqb c "*").

Definition well_formed (w : written_param) : bool :=
  nonempty (fst w) && all_chars name_char (fst w)
  && match snd w with
     | Some d => all_chars value_char d
     | None => true
     end.

(** [$name] or [$name=default] *)
Definition token (w : written_param) : string :=
  "$" +:+ fst w +:+ match snd w with
                    | Some d => "=" +:+ d
                    | None => ""
                    end.

Definition render (ws : list written_param) : string :=
  join "," (map token ws).

Definition param_of (w : written_param) : Param.t :=
  Param.mk (fst w) (match snd w with None => true | Some _ => false end)
    (snd w).

(** What one token of the list gives, in the words of the grammar.  The
    token is first trimmed of whitespace and then of leading sigils.
    What is left gives nothing when it is empty; with an equals sign it
    gives a non-required parameter, named by the text before the first
    equals sign, with the text after it as default, both trimmed of
    whitespace; without one it gives a required parameter without
    default. *)
Inductive reads : string -> option Param.t -> Prop :=
| reads_nothing (part : string) :
    lstrip "$" (strip part) = "" -> reads part None
| reads_optional (part before after : string) :
    lstrip "$" (strip part) = before +:+ "=" +:+ after ->
    contains "=" before = false ->
    reads part (Some (Param.mk (strip before) false (Some (strip after))))
| reads_required (part : string) :
    lstrip "$" (strip part) <> "" ->
    contains "=" (lstrip "$" (strip part)) = false ->
    reads part
      (Some (Param.mk (strip (lstrip "$" (strip part))) true None)).

End ParamGrammar.

Import ParamGrammar.

(** ** Field and item identifiers
    ([generate/parser/name_transform.py], [generate/parser/xml_parser.py]) *)

Module FieldNames.

(** [name_transform.field_to_go_name] *)
Definition field_to_go_name (name : string) : option string :=
  let normalized := replace "-" "_" name in
  if contains "_" normalized then snake_to_pascal normalized
  else if nonempty normalized then capitalize_first normalized
  else Some normalized.

(** [xml_parser._item_go_name] *)
Definition _item_go_name (name : string) : option string :=
  let normalized := replace "-" "_" name in
  if contains "_" normalized then snake_to_pascal normalized
  else if nonempty normalized then capitalize_first normalized
  else Some normalized.

(** The inner [while] loop of [_group_single_chars] on its own: the
    acronym collected so far and the parts still to read. *)
Fixpoint collect_run (acronym : string) (l : list string) : list string :=
  match l with
  | [] => [acronym]
  | q :: l' =>
      if is_single q then collect_run (acronym +:+ upper q) l'
      else acronym :: q :: _group_single_chars l'
  end.

End FieldNames.

Import FieldNames.

(** ** Client emitter views ([generate/emitter/go_emitter.py]) *)

Module GoViews.

Definition go_reserved_words : list string :=
  [ "break"; "case"; "chan"; "const"; "continue"; "default"; "defer"; "else";
    "fallthrough"; "for"; "func"; "go"; "goto"; "if"; "import"; "interface";
    "map"; "package"; "range"; "return"; "select"; "struct"; "switch"; "type";
    "var" ].

Definition _GO_RESERVED : gset string := list_to_set go_reserved_words.

Definition _RESERVED_TYPE_NAMES : gset string := {[ "Client"; "NewClient" ]}.

Definition _safe_param_name (name : string) : string :=
  if bool_decide (name ∈ _GO_RESERVED) then name +:+ "Val" else name.

(** The dictionaries of [_endpoint_view], one record per shape. *)
Record RequiredParam := { rp_name : string }.
Record OptionalParam := { op_name : string; op_default : option string }.
Record AnyParam := {
  ap_name : string;
  ap_required : bool;
  ap_default : option string
}.

Record EndpointView := {
  go_method_name : string;
  methods : list string;
  url_path : string;
  primary_method : string;
  has_body : bool;
  required_params : list RequiredParam;
  optional_params : list OptionalParam;
  parameters : list AnyParam;
  path_fmt : string;
  item_type : string;
  item_json_key : string;
  crud_verb : string
}.

Record TypeFieldView := {
  tf_go_name : string;
  tf_json_name : string;
  tf_omitempty : bool;
  tf_options : list string
}.

Record TypeItemView := {
  ti_name : string;
  ti_go_name : string;
  ti_fields : list TypeFieldView
}.

(** The dictionary appended by [_collect_response_wrappers]. *)
Record Wrapper := {
  wrapper_name : string;
  field_name : string;
  json_key : string
}.

(** [for _ in required_params: path_fmt += "/%s"] *)
Fixpoint add_placeholders (required_params : list RequiredParam)
    (path_fmt : string) : string :=
  match required_params with
  | [] => path_fmt
  | _ :: more => add_placeholders more (path_fmt +:+ "/%s")
  end.

(** [_endpoint_view]; [None] is the [IndexError] of [ep.methods[0]]. *)
Definition _endpoint_view (ep : Endpoint.t) : option EndpointView :=
  let required_params :=
    map (fun p => {| rp_name := _safe_param_name (Param.name p) |})
        (filter (fun p => Param.required p = true) (Endpoint.parameters ep)) in
  let optional_params :=
    map (fun p => {| op_name := Param.name p; op_default := Param.default p |})
        (filter (fun p => Param.required p = false) (Endpoint.parameters ep)) in
  let all_params :=
    map (fun p => {| ap_name := Param.name p;
                     ap_required := Param.required p;
                     ap_default := Param.default p |})
        (Endpoint.parameters ep) in
  let path_fmt :=
    match required_params with
    | [] => ""
    | _ => add_placeholders required_params (Endpoint.url_path ep)
    end in
  primary ← primary_of (Endpoint.methods ep);
  let has_body := String.eqb primary "POST" in
  let '(item_type, item_json_key) :=
    match Endpoint.model_item ep with
    | Some item =>
        let go_name := ModelItem.go_name item in
        let go_name :=
          if bool_decide (go_name ∈ _RESERVED_TYPE_NAMES)
          then go_name +:+ "Config" else go_name in
        (go_name, Endpoint.item_json_key ep)
    | None => ("", "")
    end in
  Some {| go_method_name := Endpoint.go_method_name ep;
          methods := Endpoint.methods ep;
          url_path := Endpoint.url_path ep;
          primary_method := primary;
          has_body := has_body;
          required_params := required_params;
          optional_params := optional_params;
          parameters := all_params;
          path_fmt := path_fmt;
          item_type := item_type;
          item_json_key := item_json_key;
          crud_verb := Endpoint.crud_verb ep |}.

(** [for item in ctrl.model.items] of [_collect_model_items], on the
    state ([items], [seen]). *)
Fixpoint collect_items_from (model_items : list ModelItem.t)
    (st : list ModelItem.t * gset string) : list ModelItem.t * gset string :=
  match model_items with
  | [] => st
  | item :: more =>
      let '(items, seen) := st in
      if bool_decide (ModelItem.go_name item ∉ seen) then
        collect_items_from more
          (items ++ [item], {[ModelItem.go_name item]} ∪ seen)
      else collect_items_from more st
  end.

(** [for ctrl in module.controllers] of [_collect_model_items]; a
    controller counts when it has a model with at least one item. *)
Fixpoint collect_items_from_controllers (ctrls : list Controller.t)
    (st : list ModelItem.t * gset string) : list ModelItem.t * gset string :=
  match ctrls with
  | [] => st
  | ctrl :: more =>
      match Controller.model ctrl with
      | Some model =>
          match Model.items model with
          | [] => collect_items_from_controllers more st
          | model_items =>
              collect_items_from_controllers more
                (collect_items_from model_items st)
          end
      | None => collect_items_from_controllers more st
      end
  end.

Definition _collect_model_items (module : ApiModule.t) : list ModelItem.t :=
  fst (collect_items_from_controllers (ApiModule.controllers module) ([], ∅)).

(** [for f in item.fields] of [_type_item_view], on the state
    ([seen_fields], [fields]). *)
Fixpoint type_fields_from (item_fields : list ModelField.t)
    (seen_fields : gset string) (fields : list TypeFieldView)
    : list TypeFieldView :=
  match item_fields with
  | [] => fields
  | f :: more =>
      let go_name := ModelField.go_name f in
      if bool_decide (go_name ∈ seen_fields)
      then type_fields_from more seen_fields fields
      else
        type_fields_from more ({[go_name]} ∪ seen_fields)
          (fields ++ [ {| tf_go_name := go_name;
                          tf_json_name := ModelField.json_name f;
                          tf_omitempty :=
                            negb (ModelField.required f)
                            || ModelField.volatile f;
                          tf_options := ModelField.options f |} ])
  end.

Definition _type_item_view (item : ModelItem.t) : TypeItemView :=
  let fields := type_fields_from (ModelItem.fields item) ∅ [] in
  let go_name := ModelItem.go_name item in
  let go_name :=
    if bool_decide (go_name ∈ _RESERVED_TYPE_NAMES)
    then go_name +:+ "Config" else go_name in
  {| ti_name := ModelItem.name item; ti_go_name := go_name;
     ti_fields := fields |}.

(** [for ev in ep_views] of [_collect_response_wrappers], on the state
    ([seen], [wrappers]). *)
Fixpoint wrappers_from (ep_views : list EndpointView) (seen : gset string)
    (wrappers : list Wrapper) : list Wrapper :=
  match ep_views with
  | [] => wrappers
  | ev :: more =>
      if String.eqb (crud_verb ev) "get" && nonempty (item_type ev)
         && nonempty (item_json_key ev) then
        let key := item_json_key ev in
        if bool_decide (key ∉ seen) then
          wrappers_from more ({[key]} ∪ seen)
            (wrappers ++ [ {| wrapper_name := key +:+ "GetItemResponse";
                              field_name := item_type ev;
                              json_key := key |} ])
        else wrappers_from more seen wrappers
      else wrappers_from more seen wrappers
  end.

Definition _collect_response_wrappers (ep_views : list EndpointView)
    : list Wrapper :=
  wrappers_from ep_views ∅ [].

End GoViews.

(** ** Keeping the first element of every key *)

Module Dedup.

(** The elements of [l] whose key is neither in [seen] nor carried by an
    earlier element of [l], in order. *)
Fixpoint keep_first {A} (key : A -> string) (seen : gset string)
    (l : list A) : list A :=
  match l with
  | [] => []
  | x :: more =>
      if bool_decide (key x ∈ seen) then keep_first key seen more
      else x :: keep_first key ({[key x]} ∪ seen) more
  end.

(** [x] carries the key of [e]. *)
Definition same_key {A} (key : A -> string) (e x : A) : bool :=
  String.eqb (key x) (key e).

(** The items of all controllers that have a model, in order. *)
Definition model_items_of (ctrls : list Controller.t) : list ModelItem.t :=
  flat_map Frame.items_of ctrls.

(** The field view that [_type_item_view] appends for a field. *)
Definition field_view (f : ModelField.t) : GoViews.TypeFieldView :=
  {| GoViews.tf_go_name := ModelField.go_name f;
     GoViews.tf_json_name := ModelField.json_name f;
     GoViews.tf_omitempty :=
       negb (ModelField.required f) || ModelField.volatile f;
     GoViews.tf_options := ModelField.options f |}.

(** The test of [_collect_response_wrappers]: a typed [get] view. *)
Definition wants_wrapper (ev : GoViews.EndpointView) : bool :=
  String.eqb (GoViews.crud_verb ev) "get" && nonempty (GoViews.item_type ev)
  && nonempty (GoViews.item_json_key ev).

(** The wrapper that [_collect_response_wrappers] appends for a view. *)
Definition wrapper_of (ev : GoViews.EndpointView) : GoViews.Wrapper :=
  {| GoViews.wrapper_name := GoViews.item_json_key ev +:+ "GetItemResponse";
     GoViews.field_name := GoViews.item_type ev;
     GoViews.json_key := GoViews.item_json_key ev |}.

(** All (endpoint, cli verb) entries of a resource dictionary. *)
Definition entries_of (d : resource_map) : list (Endpoint.t * string) :=
  concat (map snd d).

(** The entry that the grouping loop files for an endpoint. *)
Definition entry_for (ep : Endpoint.t) : Endpoint.t * string :=
  (ep, _cli_verb_from_endpoint ep).

(** What the CLI grouping keeps of a module: for every concrete
    controller, the first endpoint of each method identifier. *)
Definition cli_kept (ctrls : list Controller.t)
    : list (Endpoint.t * string) :=
  flat_map (fun ctrl =>
              map entry_for
                (keep_first Endpoint.go_method_name ∅
                   (Controller.endpoints ctrl)))
    (List.filter (fun c => negb (Controller.is_abstract c)) ctrls).

(** Every entry is filed under the resource name of its endpoint, or
    under that name without some of its trailing [s]; no resource is
    empty. *)
Definition filed_by_name (d : resource_map) : Prop :=
  forall res l,
    In (res, l) d ->
    l <> []
    /\ forall ep v,
         In (ep, v) l ->
         exists k,
           _resource_name_from_endpoint ep = res +:+ repeat_char "s" k.

End Dedup.

Import Dedup.

(** ** Table rows ([generate/parser/markdown_parser.py]) *)

Module MarkdownTables.

(** [_TABLE_ROW_RE = ^\|(.+)\|$] with [re.match]: a bar, at least one
    character other than a newline, a bar, and then the end of the text or
    its final newline.  The closing bar is followed by the end or by a
    newline, so it is the last character of the longest newline-free
    prefix of what follows the opening bar. *)
Definition table_row_re (line : string) : bool :=
  match line with
  | String c rest =>
      Ascii.eqb c "|"
      && (let body := line_prefix rest in
          (2 <=? String.length body) && endswith body "|"
          && at_dollar (drop (String.length body) rest))
  | EmptyString => false
  end.

(** The character class [[\s\-:|]]. *)
Definition separator_char (c : ascii) : bool :=
  is_space c || Ascii.eqb c "-" || Ascii.eqb c ":" || Ascii.eqb c "|".

(** [[\s\-:|]+\|] up to the end of the text: at least one character of
    the class and a closing bar, itself in the class. *)
Definition separator_body (x : string) : bool :=
  (2 <=? String.length x) && endswith x "|" && all_chars separator_char x.

(** [_SEPARATOR_RE = ^\|[\s\-:|]+\|$] with [re.match]; the class holds
    the newline, so only a final newline can be the one [$] stops at. *)
Definition separator_re (line : string) : bool :=
  match line with
  | String c rest =>
      Ascii.eqb c "|"
      && (separator_body rest
          || (endswith rest (String newline "")
              && separator_body (take (String.length rest - 1) rest)))
  | EmptyString => false
  end.

(** The test of [_skip_table] on a raw line. *)
Definition is_row (raw : string) : bool :=
  let line := strip raw in
  table_row_re line || separator_re line.

(** The [while] loop of [_skip_table] from index [i] on, [rest] being
    [lines[i:]]. *)
Fixpoint skip_from (rest : list string) (start i : nat) (in_table : bool)
    : nat :=
  match rest with
  | [] => i
  | raw :: more =>
      if is_row raw then skip_from more start (S i) true
      else if in_table then i
      else if (5 <? S i - start) && negb in_table then S i
      else skip_from more start (S i) in_table
  end.

Definition _skip_table (lines : list string) (start : nat) : nat :=
  skip_from (List.skipn start lines) start start false.

(** The number of rows at the head of a list of lines. *)
Fixpoint leading_rows (lines : list string) : nat :=
  match lines with
  | raw :: more => if is_row raw then S (leading_rows more) else 0
  | [] => 0
  end.

End MarkdownTables.

Import MarkdownTables.

(** ** Abstract controllers ([generate/parser/markdown_parser.py]) *)

Module AbstractMerge.

(** [sub in s] *)
Fixpoint has_substring (sub s : string) : bool :=
  startswith s sub
  || match s with
     | EmptyString => false
     | String _ r => has_substring sub r
     end.

(** [s.replace(old, "")] for a non-empty [old]: the occurrences are
    taken from the left and do not overlap; [skip] counts the characters
    of the current occurrence that are still to be dropped. *)
Fixpoint remove_from (old : string) (skip : nat) (s : string) : string :=
  match s with
  | EmptyString => EmptyString
  | String c r =>
      match skip with
      | S k => remove_from old k r
      | O =>
          if startswith s old
          then remove_from old (String.length old - 1) r
          else String c (remove_from old 0 r)
      end
  end.

Definition remove_sub (old s : string) : string := remove_from old 0 s.

(** [abstract_controllers: dict[str, Controller]], in insertion order. *)
Definition abstract_dict := list (string * Controller.t).

(** [abstract_controllers.values()] *)
Definition values (d : abstract_dict) : list Controller.t := map snd d.

(** The two assignments of the first loop. *)
Definition file_abstract (by_name : gmap string Controller.t)
    (ctrl : Controller.t) : gmap string Controller.t :=
  let base := remove_sub "Controller" (Controller.name ctrl) in
  <[Controller.name ctrl := ctrl]> (<[base := ctrl]> by_name).

Definition abstract_by_name (abstract_controllers : abstract_dict)
    : gmap string Controller.t :=
  foldl file_abstract ∅ (values abstract_controllers).

(** [for abstract in abstract_controllers.values(): if ctrl.base_class in
    abstract.name: parent = abstract; break] *)
Definition by_pattern (base_class : string) (abstracts : list Controller.t)
    : option Controller.t :=
  List.find (fun abstract => has_substring base_class (Controller.name abstract))
    abstracts.

Definition find_parent (abstract_controllers : abstract_dict)
    (ctrl : Controller.t) : option Controller.t :=
  match abstract_by_name abstract_controllers !! Controller.base_class ctrl with
  | Some parent => Some parent
  | None => by_pattern (Controller.base_class ctrl) (values abstract_controllers)
  end.

(** [ctrl.endpoints[0].module if ctrl.endpoints else ep.module] and the
    same for the controller, [eps] being [ctrl.endpoints] at that time. *)
Definition child_module (eps : list Endpoint.t) (ep : Endpoint.t) : string :=
  match eps with
  | first :: _ => Endpoint.module first
  | [] => Endpoint.module ep
  end.

Definition child_controller (eps : list Endpoint.t) (ep : Endpoint.t)
    : string :=
  match eps with
  | first :: _ => Endpoint.controller first
  | [] => Endpoint.controller ep
  end.

(** [child_ep = Endpoint(...)] *)
Definition clone (eps : list Endpoint.t) (ep : Endpoint.t)
    : option Endpoint.t :=
  let m := child_module eps ep in
  let c := child_controller eps ep in
  method_name ← go_method_name c (Endpoint.command ep);
  Some (Endpoint.parsed (Endpoint.methods ep) m c (Endpoint.command ep)
          (Endpoint.command_camel ep)
          ("/api/" +:+ m +:+ "/" +:+ c +:+ "/" +:+ Endpoint.command_camel ep)
          method_name (Endpoint.parameters ep)).

(** [for ep in parent.endpoints], appending to [ctrl.endpoints];
    [existing_commands] is computed once, before the loop. *)
Fixpoint merge_parent (existing_commands : gset string)
    (parent_eps eps : list Endpoint.t) : option (list Endpoint.t) :=
  match parent_eps with
  | [] => Some eps
  | ep :: more =>
      if bool_decide (Endpoint.command ep ∉ existing_commands) then
        child_ep ← clone eps ep;
        merge_parent existing_commands more (eps ++ [child_ep])
      else merge_parent existing_commands more eps
  end.

(** [if not ctrl.model_url and parent.model_url:
    ctrl.model_url = parent.model_url] *)
Definition inherit_url (ctrl_url parent_url : string) : string :=
  if negb (nonempty ctrl_url) && nonempty parent_url then parent_url
  else ctrl_url.

(** The body of [for ctrl in controllers]: the controller after it. *)
Definition merge_controller (abstract_controllers : abstract_dict)
    (ctrl : Controller.t) : option Controller.t :=
  if Controller.is_abstract ctrl || negb (nonempty (Controller.base_class ctrl))
  then Some ctrl
  else
    match find_parent abstract_controllers ctrl with
    | None => Some ctrl
    | Some parent =>
        let existing_commands : gset string :=
          list_to_set (map Endpoint.command (Controller.endpoints ctrl)) in
        eps ← merge_parent existing_commands (Controller.endpoints parent)
                (Controller.endpoints ctrl);
        Some (Controller.mk (Controller.name ctrl) (Controller.php_file ctrl)
                (Controller.base_class ctrl) (Controller.is_abstract ctrl)
                eps (Controller.model ctrl)
                (inherit_url (Controller.model_url ctrl)
                   (Controller.model_url parent)))
    end.

(** The controllers after [_merge_abstract_endpoints], which updates them
    in place; [None] stands for an exception.  The loop skips abstract
    controllers, and [parse_module] files only those in the dictionary
    ([abstract_only]): a parent is read as it was passed in. *)
Definition _merge_abstract_endpoints (controllers : list Controller.t)
    (abstract_controllers : abstract_dict) : option (list Controller.t) :=
  mapM (merge_controller abstract_controllers) controllers.

(** The dictionary as [parse_module] fills it. *)
Definition abstract_only (abstract_controllers : abstract_dict) : Prop :=
  Forall (fun ctrl => Controller.is_abstract ctrl = true)
    (values abstract_controllers).

(** [ep'] is [ep] re-homed: the documented columns are those of [ep], the
    path and the method identifier are rebuilt for the module and the
    controller of [ep'], and the resolver's fields are unset. *)
Definition inherited (ep ep' : Endpoint.t) : Prop :=
  Endpoint.methods ep' = Endpoint.methods ep
  /\ Endpoint.command ep' = Endpoint.command ep
  /\ Endpoint.command_camel ep' = Endpoint.command_camel ep
  /\ Endpoint.parameters ep' = Endpoint.parameters ep
  /\ Endpoint.url_path ep'
     = "/api/" +:+ Endpoint.module ep' +:+ "/" +:+ Endpoint.controller ep'
       +:+ "/" +:+ Endpoint.command_camel ep
  /\ go_method_name (Endpoint.controller ep') (Endpoint.command ep)
     = Some (Endpoint.go_method_name ep')
  /\ Endpoint.crud_verb ep' = ""
  /\ Endpoint.model_item ep' = None
  /\ Endpoint.item_json_key ep' = "".

(** The endpoints of [parent] whose command [ctrl] does not document. *)
Definition missing_from (ctrl parent : Controller.t) : list Endpoint.t :=
  List.filter
    (fun ep =>
       negb (existsb (String.eqb (Endpoint.command ep))
               (map Endpoint.command (Controller.endpoints ctrl))))
    (Controller.endpoints parent).

(** [ctrl'] is [ctrl] with endpoints appended and possibly a model URL:
    nothing else differs. *)
Definition grown (ctrl ctrl' : Controller.t) : Prop :=
  Controller.name ctrl' = Controller.name ctrl
  /\ Controller.php_file ctrl' = Controller.php_file ctrl
  /\ Controller.base_class ctrl' = Controller.base_class ctrl
  /\ Controller.is_abstract ctrl' = Controller.is_abstract ctrl
  /\ Controller.model ctrl' = Controller.model ctrl
  /\ (exists added,
         Controller.endpoints ctrl' = Controller.endpoints ctrl ++ added)
  /\ (Controller.model_url ctrl <> "" ->
      Controller.model_url ctrl' = Controller.model_url ctrl).

End AbstractMerge.

Import AbstractMerge.

(** ** Endpoint tables ([generate/parser/markdown_parser.py]) *)

Module TableParser.

(** [xs[1:-1]] *)
Definition slice_inner {A} (xs : list A) : list A :=
  List.removelast (List.tl xs).

(** [[c.strip() for c in line.split("|")[1:-1]]] *)
Definition cells_of (line : string) : list string :=
  map strip (slice_inner (split "|" line)).

(** [len(cells) >= 5 and "Method" in cells[0]] *)
Definition header_cells (cells : list string) : bool :=
  (5 <=? length cells)
  && match cells with
     | first :: _ => has_substring "Method" first
     | [] => false
     end.

Definition _is_table_header (line : string) (lines : list string)
    (idx : nat) : bool :=
  if negb (table_row_re line) then false
  else
    match lines !! (idx + 1) with
    | Some next =>
        if separator_re (strip next) then header_cells (cells_of line)
        else false
    | None => false
    end.

(** The text up to the first occurrence of [c], if there is one. *)
Fixpoint before_first (c : ascii) (s : string) : option string :=
  match s with
  | EmptyString => None
  | String d r =>
      if Ascii.eqb d c then Some EmptyString
      else String d <$> before_first c r
  end.

(** [https?://] at the head of [t]: the scheme and what follows it. *)
Definition scheme_of (t : string) : option (string * string) :=
  if startswith t "https://" then Some ("https://", drop 8 t)
  else if startswith t "http://" then Some ("http://", drop 7 t)
  else None.

(** [\]\((https?://[^)]+\.xml)\)] at the head of [t], giving the group.
    Neither [[^)]+] nor [\.xml] can take a closing parenthesis, so the
    one that ends the match is the first after the scheme, and the text
    before it ends in [.xml] after at least one more character. *)
Definition link_target (t : string) : option string :=
  if startswith t "](" then
    '(scheme, u) ← scheme_of (drop 2 t);
    w ← before_first ")" u;
    if (5 <=? String.length w) && endswith w ".xml"
    then Some (scheme +:+ w) else None
  else None.

(** [.*?] and the rest of the pattern at [t]: the fewest characters
    other than a newline after which the rest matches. *)
Fixpoint lazy_link (t : string) : option string :=
  match link_target t with
  | Some url => Some url
  | None =>
      match t with
      | EmptyString => None
      | String c r => if Ascii.eqb c newline then None else lazy_link r
      end
  end.

(** Group 1 of [re.search(r"\[.*?\]\((https?://[^)]+\.xml)\)", s)]: the
    match that starts at the leftmost possible bracket. *)
Fixpoint search_url (s : string) : option string :=
  match s with
  | EmptyString => None
  | String c r =>
      if Ascii.eqb c "[" then
        match lazy_link r with
        | Some url => Some url
        | None => search_url r
        end
      else search_url r
  end.

(** The first loop of [_parse_table]: the lines after the header row, or
    [None] when the loop runs off the end. *)
Fixpoint find_header (rest : list string) : option (list string) :=
  match rest with
  | [] => None
  | raw :: more =>
      let line := strip raw in
      if table_row_re line && header_cells (cells_of line) then Some more
      else find_header more
  end.

(** [if i < len(lines) and _SEPARATOR_RE.match(lines[i].strip()): i += 1] *)
Definition skip_separator (rest : list string) : list string :=
  match rest with
  | raw :: more => if separator_re (strip raw) then more else rest
  | [] => rest
  end.

(** The endpoint of a data row. *)
Definition row_endpoint (method_str module controller command
    params_str : string) : option Endpoint.t :=
  let methods := map strip (split "," method_str) in
  let parameters := _parse_parameters params_str in
  command_camel ← snake_to_camel command;
  let url_path :=
    "/api/" +:+ module +:+ "/" +:+ controller +:+ "/" +:+ command_camel in
  method_name ← go_method_name controller command;
  Some (Endpoint.parsed methods module controller command command_camel
          url_path method_name parameters).

(** The loop over the data rows, on the state ([endpoints],
    [model_url]). *)
Fixpoint parse_rows (rest : list string) (endpoints : list Endpoint.t)
    (model_url : string) : option (list Endpoint.t * string) :=
  match rest with
  | [] => Some (endpoints, model_url)
  | raw :: more =>
      let line := strip raw in
      if negb (table_row_re line) then Some (endpoints, model_url)
      else
        match cells_of line with
        | c0 :: c1 :: c2 :: c3 :: c4 :: _ =>
            let method_str := strip (strip_char "`" c0) in
            let module := strip c1 in
            let controller := strip c2 in
            let command := strip c3 in
            let params_str := strip c4 in
            if negb (nonempty method_str) && negb (nonempty module) then
              parse_rows more endpoints model_url
            else if has_substring "<<uses>>" method_str then
              parse_rows more endpoints
                (match search_url params_str with
                 | Some url => url
                 | None => model_url
                 end)
            else
              ep ← row_endpoint method_str module controller command
                     params_str;
              parse_rows more (endpoints ++ [ep]) model_url
        | _ => parse_rows more endpoints model_url
        end
  end.

(** [_parse_table(lines, start)]; [None] stands for an exception. *)
Definition _parse_table (lines : list string) (start : nat)
    : option (list Endpoint.t * string) :=
  match find_header (List.skipn start lines) with
  | None => Some ([], "")
  | Some rest => parse_rows (skip_separator rest) [] ""
  end.

(** An endpoint as the table documents it: the path and the two derived
    names are those of its module, controller and command, there is at
    least one method, and the resolver's fields are unset. *)
Definition documented (ep : Endpoint.t) : Prop :=
  snake_to_camel (Endpoint.command ep) = Some (Endpoint.command_camel ep)
  /\ Endpoint.url_path ep
     = "/api/" +:+ Endpoint.module ep +:+ "/" +:+ Endpoint.controller ep
       +:+ "/" +:+ Endpoint.command_camel ep
  /\ go_method_name (Endpoint.controller ep) (Endpoint.command ep)
     = Some (Endpoint.go_method_name ep)
  /\ Endpoint.methods ep <> []
  /\ (forall field,
        In field [Endpoint.module ep; Endpoint.controller ep;
                  Endpoint.command ep] ->
        contains "|" field = false)
  /\ Endpoint.crud_verb ep = ""
  /\ Endpoint.model_item ep = None
  /\ Endpoint.item_json_key ep = "".

(** A model URL as the [<<uses>>] row gives it. *)
Definition xml_url (url : string) : Prop :=
  (startswith url "http://" = true \/ startswith url "https://" = true)
  /\ endswith url ".xml" = true
  /\ contains ")" url = false.

(** A data row as the documentation writes it: the method in
    backquotes, every cell between two spaces. *)
Record Row := {
  row_method : string;
  row_module : string;
  row_controller : string;
  row_command : string;
  row_params : string
}.

Definition padded (cell : string) : string := String " " (cell +:+ " ").

(** [| cell | cell | ... |] *)
Definition bar_row (cells : list string) : string :=
  String "|" (fold_right (fun cell acc => cell +:+ String "|" acc) "" cells).

Definition row_text (r : Row) : string :=
  bar_row [ padded (String "`" (row_method r +:+ "`"));
            padded (row_module r); padded (row_controller r);
            padded (row_command r); padded (row_params r) ].

(** A text without white space, bar or backquote. *)
Definition plain_text (s : string) : bool :=
  negb (any_char (fun c => is_space c || Ascii.eqb c "|" || Ascii.eqb c "`")
          s).

(** A row of plain texts with a method, other than a [<<uses>>] row. *)
Definition written_row (r : Row) : bool :=
  plain_text (row_method r) && plain_text (row_module r)
  && plain_text (row_controller r) && plain_text (row_command r)
  && plain_text (row_params r)
  && nonempty (row_method r)
  && negb (has_substring "<<uses>>" (row_method r)).

Definition endpoint_of_row (r : Row) : option Endpoint.t :=
  row_endpoint (row_method r) (row_module r) (row_controller r)
    (row_command r) (row_params r).

Definition header_line : string :=
  "| Method | Module | Controller | Command | Parameters |".

Definition separator_line : string := "| --- | --- | --- | --- | --- |".

End TableParser.

Import TableParser.

(** ** Linking a model to a URL ([generate/parser/xml_parser.py]) *)

Module ModelLink.

(** [.+\.xml] at the head of one line, greedy: the longest prefix that
    ends in [.xml] after at least one character; [has_char] tells whether
    a character was taken already. *)
Fixpoint xml_prefix (has_char : bool) (s : string) : option string :=
  match s with
  | EmptyString => None
  | String c r =>
      match xml_prefix true r with
      | Some w => Some (String c w)
      | None => if has_char && startswith s ".xml" then Some ".xml" else None
      end
  end.

(** Group 1 of [re.search(r"models/(OPNsense/.+\.xml)", s)]. *)
Fixpoint search_model (s : string) : option string :=
  match s with
  | EmptyString => None
  | String _ r =>
      if startswith s "models/OPNsense/" then
        match xml_prefix false (line_prefix (drop 16 s)) with
        | Some w => Some ("OPNsense/" +:+ w)
        | None => search_model r
        end
      else search_model r
  end.

Definition match_model_to_url (models : gmap string Model.t)
    (github_url : string) : option Model.t :=
  if negb (nonempty github_url) then None
  else
    match search_model github_url with
    | None => None
    | Some rel_path => models !! rel_path
    end.

End ModelLink.

Import ModelLink.

(** ** Go identifiers of resources and modules
    ([generate/emitter/cli_emitter.py], [generate/emitter/go_emitter.py]) *)

Module GoIdent.

(** [s.title()] on ASCII text: a letter that follows a letter is put in
    lower case, any other letter in upper case. *)
Fixpoint title_from (previous_is_cased : bool) (s : string) : string :=
  match s with
  | EmptyString => EmptyString
  | String c r =>
      if is_lower_char c then
        String (if previous_is_cased then c else to_upper c)
          (title_from true r)
      else if is_upper_char c then
        String (if previous_is_cased then to_lower c else c)
          (title_from true r)
      else String c (title_from false r)
  end.

Definition title (s : string) : string := title_from false s.

Definition _to_go_ident (name : string) : string :=
  replace " " "" (title (replace "_" " " (replace "-" " " name))).

Definition _module_field_name (module_name : string) : string :=
  replace " " "" (title (replace "_" " " module_name)).

(** Words of lower-case letters with one hyphen between two words;
    [after_letter] tells whether a letter came just before. *)
Fixpoint kebab_letters (after_letter : bool) (s : string) : bool :=
  match s with
  | EmptyString => after_letter
  | String c r =>
      if Ascii.eqb c "-" then after_letter && kebab_letters false r
      else is_lower_char c && kebab_letters true r
  end.

(** A hyphen before every upper-case letter, and that letter in lower
    case. *)
Fixpoint hyphenate (s : string) : string :=
  match s with
  | EmptyString => EmptyString
  | String c r =>
      if is_upper_char c then String "-" (String (to_lower c) (hyphenate r))
      else String c (hyphenate r)
  end.

End GoIdent.

Import GoIdent.

(** ** Invariants used by the proofs *)

Module Invariants.

(** A strategy of the resolver returns one of the items it was given. *)
Definition picks_from (items : list ModelItem.t)
    (result : option ModelItem.t) : Prop :=
  forall item, result = Some item -> In item items.


(** The client emitter keeps, in [seen], exactly the identifiers of the
    endpoints collected so far, each of them once. *)
Definition collected_once (st : list Endpoint.t * gset string) : Prop :=
  List.NoDup (map Endpoint.go_method_name (fst st))
  /\ (forall name, name ∈ snd st
                   <-> In name (map Endpoint.go_method_name (fst st))).

(** The endpoints of the concrete controllers, in declaration order. *)
Definition concrete_endpoints (ctrls : list Controller.t)
    : list Endpoint.t :=
  flat_map Controller.endpoints
    (List.filter (fun c => negb (Controller.is_abstract c)) ctrls).

Definition same_method (e x : Endpoint.t) : bool :=
  String.eqb (Endpoint.go_method_name x) (Endpoint.go_method_name e).

(** After the endpoints [done], the client emitter has seen their
    identifiers and holds the first endpoint of each identifier. *)
Definition first_kept (done : list Endpoint.t)
    (st : list Endpoint.t * gset string) : Prop :=
  (forall name, name ∈ snd st
                <-> In name (map Endpoint.go_method_name done))
  /\ (forall e, In e (fst st) <-> List.find (same_method e) done = Some e).

(** A character that [strip("*")] and [strip()] leave alone and that is
    no comma. *)
Definition plain_char (c : ascii) : bool :=
  negb (is_space c) && negb (Ascii.eqb "*" c) && negb (Ascii.eqb "," c).

End Invariants.

Import Invariants.

(** ** Sample data *)

Module Samples.

Definition details_item : ModelItem.t :=
  ModelItem.mk "details" "Details" "detailcontainer" [].

Definition alias_item : ModelItem.t :=
  ModelItem.mk "Alias" "Alias" "rules" [].
Definition rule_item : ModelItem.t :=
  ModelItem.mk "rule" "Rule" "alias" [].
Definition aliases_item : ModelItem.t :=
  ModelItem.mk "aliass" "Aliass" "alias" [].
Definition url_item : ModelItem.t := ModelItem.mk "url" "Url" "urls" [].
Definition list_item : ModelItem.t := ModelItem.mk "list" "List" "lists" [].
Definition foo_item : ModelItem.t := ModelItem.mk "foo" "Foo" "foos" [].

(** An endpoint as [_parse_table] builds it, for a POST row. *)
Definition parsed_endpoint (module controller command command_camel
    go_method_name : string) : Endpoint.t :=
  Endpoint.parsed ["POST"] module controller command command_camel
    ("/api/" +:+ module +:+ "/" +:+ controller +:+ "/" +:+ command_camel)
    go_method_name [].

Definition model_of (items : list ModelItem.t) : Model.t :=
  Model.mk "OPNsense.Sample" "https://example.com/model.xml" items "".

(** One controller with an unrelated name over a model with one item. *)
Definition lonely_item : ModelItem.t :=
  ModelItem.mk "something" "Something" "somethings" [].
Definition add_item_ep : Endpoint.t :=
  parsed_endpoint "firewall" "unrelated_ctrl" "add_item" "addItem"
    "UnrelatedCtrlAddItem".
Definition lonely_controller : Controller.t :=
  Controller.mk "UnrelatedCtrlController" "UnrelatedCtrlController.php" ""
    false [add_item_ep] (Some (model_of [lonely_item])) "".
Definition lonely_modules : list ApiModule.t :=
  [ApiModule.mk "firewall" "core" [lonely_controller]].

(** Three endpoints that reach the verb [get] of one resource. *)
Definition plain_get : Endpoint.t :=
  parsed_endpoint "firewall" "alias" "get" "get" "AliasGet".
Definition untyped_get : Endpoint.t :=
  Endpoint.mk ["POST"] "firewall" "alias" "get_item" "getItem"
    "/api/firewall/alias/getItem" "AliasGetItem" [] "get" None "".
Definition typed_get : Endpoint.t :=
  Endpoint.annotate "get" alias_item "Alias"
    (parsed_endpoint "firewall" "alias" "get_item" "getItem" "AliasGetItem").
Definition same_verb_entries : list (Endpoint.t * string) :=
  [(plain_get, "get"); (untyped_get, "get"); (typed_get, "get")].

(** Two concrete controllers of one module that both list the command
    [get_foo] of the controller [alias]; only the first has a model. *)
Definition get_foo_ep : Endpoint.t :=
  parsed_endpoint "firewall" "alias" "get_foo" "getFoo" "AliasGetFoo".
Definition twice_listed_module : ApiModule.t :=
  ApiModule.mk "firewall" "core"
    [ Controller.mk "AliasController" "AliasController.php" "" false
        [get_foo_ep] (Some (model_of [foo_item])) "";
      Controller.mk "AliasUtilController" "AliasUtilController.php" "" false
        [get_foo_ep] None "" ].

(** An item whose Go name collides with the client type, with two fields
    that share a Go name. *)
Definition enabled_field : ModelField.t :=
  ModelField.mk "enabled" "BooleanField" "Enabled" "enabled" true None false
    false [].
Definition enabled_again_field : ModelField.t :=
  ModelField.mk "Enabled" "TextField" "Enabled" "Enabled" false None false
    false [].
Definition client_item : ModelItem.t :=
  ModelItem.mk "client" "Client" "clients"
    [enabled_field; enabled_again_field].

(** The views of [typed_get] and [plain_get] in the two emitters. *)
Definition typed_get_view : GoViews.EndpointView :=
  {| GoViews.go_method_name := "AliasGetItem";
     GoViews.methods := ["POST"];
     GoViews.url_path := "/api/firewall/alias/getItem";
     GoViews.primary_method := "POST";
     GoViews.has_body := true;
     GoViews.required_params := [];
     GoViews.optional_params := [];
     GoViews.parameters := [];
     GoViews.path_fmt := "";
     GoViews.item_type := "Alias";
     GoViews.item_json_key := "Alias";
     GoViews.crud_verb := "get" |}.

Definition plain_get_view : GoViews.EndpointView :=
  {| GoViews.go_method_name := "AliasGet";
     GoViews.methods := ["POST"];
     GoViews.url_path := "/api/firewall/alias/get";
     GoViews.primary_method := "POST";
     GoViews.has_body := true;
     GoViews.required_params := [];
     GoViews.optional_params := [];
     GoViews.parameters := [];
     GoViews.path_fmt := "";
     GoViews.item_type := "";
     GoViews.item_json_key := "";
     GoViews.crud_verb := "" |}.

Definition typed_get_verb : CLIVerbView :=
  {| cli_verb := "get"; go_method := "AliasGetItem"; crud_verb := "get";
     positional_params := []; has_data_flag := false; has_body_arg := false;
     has_optional_params := false; item_type := "Alias"; is_typed := true;
     is_search := false; search_needs_body := false;
     primary_method := "POST"; url_path := "/api/firewall/alias/getItem" |}.



(** [del_item] with a required [uuid] and an optional [type]. *)
Definition del_item_ep : Endpoint.t :=
  Endpoint.parsed ["GET"; "POST"] "firewall" "alias" "del_item" "delItem"
    "/api/firewall/alias/delItem" "AliasDelItem"
    [Param.mk "uuid" true None; Param.mk "type" false (Some "null")].

Definition del_item_view : GoViews.EndpointView :=
  {| GoViews.go_method_name := "AliasDelItem";
     GoViews.methods := ["GET"; "POST"];
     GoViews.url_path := "/api/firewall/alias/delItem";
     GoViews.primary_method := "POST";
     GoViews.has_body := true;
     GoViews.required_params := [ {| GoViews.rp_name := "uuid" |} ];
     GoViews.optional_params :=
       [ {| GoViews.op_name := "type"; GoViews.op_default := Some "null" |} ];
     GoViews.parameters :=
       [ {| GoViews.ap_name := "uuid"; GoViews.ap_required := true;
            GoViews.ap_default := None |};
         {| GoViews.ap_name := "type"; GoViews.ap_required := false;
            GoViews.ap_default := Some "null" |} ];
     GoViews.path_fmt := "/api/firewall/alias/delItem/%s";
     GoViews.item_type := "";
     GoViews.item_json_key := "";
     GoViews.crud_verb := "" |}.

(** A section header, a five-column table and the text after it. *)
Definition sample_lines : list string :=
  [ "Resources (AliasController.php)";
    "| Method | Module | Controller | Command | Parameters |";
    "| --- | --- | --- | --- | --- |";
    "| `POST` | firewall | alias | add_item |  |";
    "";
    "Service (ServiceController.php)" ].

(** An abstract controller and a controller that extends it. *)
Definition filter_base : Controller.t :=
  Controller.mk "FilterBaseController" "FilterBaseController.php" "" true
    [ Endpoint.parsed ["POST"] "firewall" "filter_base" "add_rule" "addRule"
        "/api/firewall/filter_base/addRule" "FilterBaseAddRule" [];
      Endpoint.parsed ["POST"] "firewall" "filter_base" "del_rule" "delRule"
        "/api/firewall/filter_base/delRule" "FilterBaseDelRule"
        [Param.mk "uuid" true None] ]
    None "https://example.org/Filter.xml".

Definition filter_child : Controller.t :=
  Controller.mk "FilterController" "FilterController.php"
    "FilterBaseController" false
    [ Endpoint.parsed ["GET"] "firewall" "filter" "get_rule" "getRule"
        "/api/firewall/filter/getRule" "FilterGetRule"
        [Param.mk "uuid" false (Some "null")];
      Endpoint.parsed ["POST"] "firewall" "filter" "add_rule" "addRule"
        "/api/firewall/filter/addRule" "FilterAddRule" [] ]
    None "".

Definition filter_child_merged : Controller.t :=
  Controller.mk "FilterController" "FilterController.php"
    "FilterBaseController" false
    (Controller.endpoints filter_child
     ++ [ Endpoint.parsed ["POST"] "firewall" "filter" "del_rule" "delRule"
            "/api/firewall/filter/delRule" "FilterDelRule"
            [Param.mk "uuid" true None] ])
    None "https://example.org/Filter.xml".

Definition filter_controllers : list Controller.t :=
  [filter_base; filter_child].

Definition filter_abstracts : abstract_dict :=
  [("FilterBaseController.php", filter_base)].

(** A written table row. *)
Definition add_rule_row : Row :=
  {| row_method := "POST"; row_module := "firewall";
     row_controller := "filter"; row_command := "add_rule";
     row_params := "$uuid,$enabled=null" |}.

(** A model URL as a [<<uses>>] row gives it, and the parsed models. *)
Definition sample_model_url : string :=
  "https://github.com/opnsense/core/blob/master/src/opnsense/mvc/app/models/OPNsense/Firewall/Alias.xml".

Definition sample_models : gmap string Model.t :=
  {[ "OPNsense/Firewall/Alias.xml" := model_of [alias_item] ]}.

End Samples.

Import Samples.

(** * Properties *)

(** ** Characters and case *)

Section CaseFacts.

Lemma to_upper_not_lower (c : ascii) : is_lower_char (to_upper c) = false.
Proof. destruct c as [[] [] [] [] [] [] [] []]; reflexivity. Qed.

Lemma to_upper_fixed (c : ascii) : is_lower_char c = false -> to_upper c = c.
Proof. unfold to_upper. now intros ->. Qed.

Lemma upper_no_lower (s : string) : any_char is_lower_char (upper s) = false.
Proof.
  unfold upper. induction s as [|c r IH]; [reflexivity|].
  cbn. now rewrite to_upper_not_lower, IH.
Qed.

Lemma upper_fixed (s : string) :
  any_char is_lower_char s = false -> upper s = s.
Proof.
  unfold upper. induction s as [|c r IH]; [reflexivity|].
  cbn. intros [Hc Hr]%orb_false_iff.
  now rewrite to_upper_fixed, IH.
Qed.

Lemma upper_idempotent (s : string) : upper (upper s) = upper s.
Proof. apply upper_fixed, upper_no_lower. Qed.

Lemma isupper_fixed (s : string) : isupper s = true -> upper s = s.
Proof.
  unfold isupper. intros [_ H]%andb_true_iff.
  apply upper_fixed. now apply negb_true_iff.
Qed.

(** No upper-cased word is in the (lower-case) acronym set. *)
Lemma upper_not_known (w : string) : upper w ∉ _KNOWN_ACRONYMS.
Proof.
  unfold _KNOWN_ACRONYMS. rewrite elem_of_list_to_set.
  intros Hin.
  assert (Hall : Forall (fun a => upper a <> a) known_acronyms).
  { unfold known_acronyms. repeat constructor; discriminate. }
  rewrite Forall_forall in Hall.
  apply (Hall (upper w)); [exact Hin | apply upper_idempotent].
Qed.

End CaseFacts.

(** ** Identifier transform *)

Section NameTransformFacts.

Lemma capitalize_first_cons (c : ascii) (r : string) :
  capitalize_first (String c r) = Some (String (to_upper c) r).
Proof. reflexivity. Qed.

(** The re-casing of a word never touches more than its first
    character: the acronym-set test cannot succeed on an upper-cased
    word, and a word that is already upper case is its own upper case. *)
Lemma pascal_word_cons (c : ascii) (r : string) :
  pascal_word (String c r) = Some (String (to_upper c) r).
Proof.
  unfold pascal_word.
  rewrite (bool_decide_eq_false_2 _ (upper_not_known (String c r))).
  rewrite andb_false_r.
  destruct (isupper (String c r) && (1 <? String.length (String c r)))
    eqn:Hup; [|reflexivity].
  apply andb_true_iff in Hup as [Hup _].
  apply isupper_fixed in Hup. rewrite Hup.
  injection Hup as Hc _. now rewrite Hc.
Qed.

Lemma camel_word_first (w : string) : camel_word 0 w = Some (lower w).
Proof. reflexivity. Qed.

Lemma camel_word_cons (i : nat) (c : ascii) (r : string) :
  camel_word (S i) (String c r) = Some (String (to_upper c) r).
Proof.
  unfold camel_word. cbn [Nat.eqb].
  rewrite (bool_decide_eq_false_2 _ (upper_not_known (String c r))).
  rewrite andb_false_r.
  destruct (isupper (String c r) && (1 <? String.length (String c r)))
    eqn:Hup; [|reflexivity].
  apply andb_true_iff in Hup as [Hup _].
  apply isupper_fixed in Hup. rewrite Hup.
  injection Hup as Hc _. now rewrite Hc.
Qed.

Lemma camel_word_total (i : nat) (c : ascii) (r : string) :
  is_Some (camel_word i (String c r)).
Proof.
  destruct i; [rewrite camel_word_first | rewrite camel_word_cons]; eauto.
Qed.

Lemma pascal_loop_total (grouped : list string) :
  is_Some (pascal_loop grouped).
Proof.
  induction grouped as [|w rest [res IH]]; [now eexists|].
  destruct w as [|c r]; cbn [pascal_loop nonempty negb].
  - now exists res.
  - rewrite pascal_word_cons, IH. now eexists.
Qed.

Lemma camel_loop_total (grouped : list string) (i : nat) :
  is_Some (camel_loop i grouped).
Proof.
  revert i. induction grouped as [|w rest IH]; intros i; [now eexists|].
  destruct (IH (S i)) as [res Hres].
  destruct w as [|c r]; cbn [camel_loop nonempty negb].
  - now exists res.
  - destruct (camel_word_total i c r) as [piece ->].
    rewrite Hres. now eexists.
Qed.

Lemma snake_to_pascal_total (s : string) : is_Some (snake_to_pascal s).
Proof.
  unfold snake_to_pascal.
  destruct (negb (contains "_" s)).
  - destruct s as [|c r]; cbn [nonempty]; [now eexists|].
    rewrite capitalize_first_cons. now eexists.
  - cbv zeta.
    destruct (pascal_loop_total
                (_group_single_chars (split "_" (lstrip "_" s)))) as [res ->].
    now eexists.
Qed.

Lemma snake_to_camel_total (s : string) : is_Some (snake_to_camel s).
Proof.
  unfold snake_to_camel.
  destruct (negb (contains "_" s)); [now eexists|].
  cbv zeta.
  destruct (split "_" (lstrip "_" s)) as [|p parts]; [now eexists|].
  destruct (camel_loop_total (_group_single_chars (p :: parts)) 0)
    as [res ->].
  now eexists.
Qed.

Lemma lstrip_underscores (n : nat) : lstrip "_" (repeat_char "_" n) = "".
Proof. induction n as [|n IH]; [reflexivity | exact IH]. Qed.

Lemma group_keeps_words (parts : list string) :
  _group_single_chars (filter (fun p => is_single p = false) parts)
  = filter (fun p => is_single p = false) parts.
Proof.
  induction parts as [|p rest IH]; [reflexivity|].
  rewrite filter_cons. case_decide as Hp; [|exact IH].
  cbn [_group_single_chars]. rewrite Hp. now rewrite IH.
Qed.

(** C2: only the acronyms collapsed from runs of single-character
    segments are upper-cased.  [get_alias_u_u_i_d] gives [GetAliasUUID]
    and [getAliasUUID]; [add_url] gives [AddUrl] and [addUrl]; the same
    holds for every word of the known-acronym set after [add_]; the
    re-casing of a grouped word changes its first character only; and
    the grouping leaves a list without single-character parts as it
    is. *)
Theorem C2_only_collapsed_runs_are_uppercased :
  snake_to_pascal "get_alias_u_u_i_d" = Some "GetAliasUUID"
  /\ snake_to_camel "get_alias_u_u_i_d" = Some "getAliasUUID"
  /\ snake_to_pascal "add_url" = Some "AddUrl"
  /\ snake_to_camel "add_url" = Some "addUrl"
  /\ Forall (fun w =>
       snake_to_pascal ("add_" +:+ w)
         = (fun x => "Add" +:+ x) <$> capitalize_first w
       /\ snake_to_camel ("add_" +:+ w)
         = (fun x => "add" +:+ x) <$> capitalize_first w
       /\ snake_to_pascal ("add_" +:+ w) <> Some ("Add" +:+ upper w)
       /\ snake_to_camel ("add_" +:+ w) <> Some ("add" +:+ upper w))
       known_acronyms
  /\ (forall c r, pascal_word (String c r) = Some (String (to_upper c) r))
  /\ (forall i c r,
        camel_word (S i) (String c r) = Some (String (to_upper c) r))
  /\ (forall parts,
        _group_single_chars (filter (fun p => is_single p = false) parts)
        = filter (fun p => is_single p = false) parts).
Proof.
  split; [vm_compute; reflexivity|].
  split; [vm_compute; reflexivity|].
  split; [vm_compute; reflexivity|].
  split; [vm_compute; reflexivity|].
  split.
  { unfold known_acronyms.
    repeat (constructor; [vm_compute; repeat split; discriminate|]).
    constructor. }
  split; [exact pascal_word_cons|].
  split; [exact camel_word_cons|].
  exact group_keeps_words.
Qed.

(** C10: [snake_to_camel] and [snake_to_pascal] return on every string
    (no index is ever out of range), and both send the empty string and
    every string of underscores to the empty string. *)
Theorem C10_case_conversion_total :
  (forall s, is_Some (snake_to_camel s))
  /\ (forall s, is_Some (snake_to_pascal s))
  /\ snake_to_camel "" = Some ""
  /\ snake_to_pascal "" = Some ""
  /\ (forall n, snake_to_camel (repeat_char "_" n) = Some "")
  /\ (forall n, snake_to_pascal (repeat_char "_" n) = Some "").
Proof.
  split; [exact snake_to_camel_total|].
  split; [exact snake_to_pascal_total|].
  split; [reflexivity|]. split; [reflexivity|].
  split; intros [|n]; try reflexivity.
  - unfold snake_to_camel. cbn [repeat_char contains any_char].
    change (Ascii.eqb "_" "_") with true. cbn [orb negb].
    change (String "_" (repeat_char "_" n)) with (repeat_char "_" (S n)).
    now rewrite lstrip_underscores.
  - unfold snake_to_pascal. cbn [repeat_char contains any_char].
    change (Ascii.eqb "_" "_") with true. cbn [orb negb].
    change (String "_" (repeat_char "_" n)) with (repeat_char "_" (S n)).
    now rewrite lstrip_underscores.
Qed.

End NameTransformFacts.

(** ** Strings *)

Section StringFacts.

Lemma app_cons (c : ascii) (p r : string) :
  String c p +:+ r = String c (p +:+ r).
Proof. reflexivity. Qed.

Lemma app_nil_l (r : string) : "" +:+ r = r.
Proof. reflexivity. Qed.

Lemma startswith_app (p r : string) : startswith (p +:+ r) p = true.
Proof.
  induction p as [|c p IH]; [reflexivity|].
  rewrite app_cons. cbn. now rewrite Ascii.eqb_refl.
Qed.

Lemma drop_app (p r : string) : drop (String.length p) (p +:+ r) = r.
Proof. induction p as [|c p IH]; [reflexivity | exact IH]. Qed.

Lemma startswith_inv (s p : string) :
  startswith s p = true -> s = p +:+ drop (String.length p) s.
Proof.
  revert s.
  induction p as [|c p IH]; intros s H; [reflexivity|].
  destruct s as [|d s]; cbn in H; [discriminate|].
  apply andb_true_iff in H as [Hc H].
  apply Ascii.eqb_eq in Hc as ->.
  rewrite app_cons. cbn. f_equal. now apply IH.
Qed.

Lemma nonempty_true (s : string) : nonempty s = true <-> s <> "".
Proof. destruct s; cbn; split; congruence. Qed.

Lemma line_prefix_nonempty (s : string) :
  nonempty (line_prefix s) = true -> s <> "".
Proof. destruct s; cbn; congruence. Qed.

End StringFacts.

(** ** Resolver: CRUD prefixes *)

Section ParseCrudFacts.

(** A CRUD prefix followed by a non-empty remainder parses into the verb
    and that remainder. *)
Lemma parse_crud_prefix (prefix rest : string) :
  In prefix _CRUD_PREFIXES -> rest <> "" ->
  _parse_crud (prefix +:+ rest) = (rstrip "_" prefix, rest).
Proof.
  intros Hin Hrest. destruct rest as [|c r]; [congruence|].
  unfold _CRUD_PREFIXES in Hin. cbn [In] in Hin.
  repeat (destruct Hin as [<-|Hin]; [vm_compute; reflexivity|]).
  contradiction.
Qed.

Lemma parse_crud_bare (prefix : string) :
  In prefix _CRUD_PREFIXES -> _parse_crud prefix = ("", "").
Proof.
  unfold _CRUD_PREFIXES. cbn [In]. intros Hin.
  repeat (destruct Hin as [<-|Hin]; [vm_compute; reflexivity|]).
  contradiction.
Qed.

Lemma crud_named_from_inv (verbs : list string) (cmd verb body : string) :
  crud_named_from verbs cmd = Some (verb, body) ->
  In verb verbs
  /\ startswith cmd (verb +:+ "_") = true
  /\ dot_plus_dollar (drop (String.length (verb +:+ "_")) cmd) = Some body.
Proof.
  induction verbs as [|v more IH]; cbn [crud_named_from]; [discriminate|].
  destruct (startswith cmd (v +:+ "_")) eqn:Hpre.
  - destruct (dot_plus_dollar (drop (String.length (v +:+ "_")) cmd))
      as [b|] eqn:Hdot.
    + intros [= <- <-]. cbn [In]. auto.
    + intros H. destruct (IH H) as (? & ? & ?). cbn [In]. auto.
  - intros H. destruct (IH H) as (? & ? & ?). cbn [In]. auto.
Qed.

Lemma dot_plus_dollar_nonempty (s body : string) :
  dot_plus_dollar s = Some body -> s <> "".
Proof.
  unfold dot_plus_dollar.
  destruct (nonempty (line_prefix s)) eqn:Hne; [|discriminate].
  intros _. now apply line_prefix_nonempty.
Qed.

(** C3: every command matching [^(add|get|set|del|search|toggle)_.+$]
    parses into a non-empty verb, the matched alternative, and a
    non-empty suffix, the rest of the command after the underscore; a
    bare prefix parses into the empty pair. *)
Theorem C3_parse_crud_on_crud_commands :
  (forall cmd verb body,
      crud_named_re cmd = Some (verb, body) ->
      exists suffix,
        _parse_crud cmd = (verb, suffix)
        /\ verb <> "" /\ suffix <> ""
        /\ cmd = verb +:+ "_" +:+ suffix
        /\ In (verb +:+ "_") _CRUD_PREFIXES)
  /\ (forall prefix, In prefix _CRUD_PREFIXES -> _parse_crud prefix = ("", "")).
Proof.
  split; [|exact parse_crud_bare].
  intros cmd verb body Hre.
  apply crud_named_from_inv in Hre as (Hverb & Hpre & Hdot).
  apply dot_plus_dollar_nonempty in Hdot.
  apply startswith_inv in Hpre.
  set (suffix := drop (String.length (verb +:+ "_")) cmd) in *.
  exists suffix.
  assert (Hprefix : In (verb +:+ "_") _CRUD_PREFIXES
                    /\ rstrip "_" (verb +:+ "_") = verb /\ verb <> ""
                    /\ (verb +:+ "_") +:+ suffix = verb +:+ "_" +:+ suffix).
  { unfold crud_alternatives in Hverb. cbn [In] in Hverb.
    repeat (destruct Hverb as [<-|Hverb];
            [repeat split; try discriminate; cbn; tauto|]).
    contradiction. }
  destruct Hprefix as (Hin & Hstrip & Hne & Hassoc).
  rewrite Hpre at 1. rewrite (parse_crud_prefix _ _ Hin Hdot), Hstrip.
  repeat split; try assumption. now rewrite <- Hassoc.
Qed.

Lemma C3_parse_crud_witness :
  (exists suffix,
      _parse_crud "search_layer4_openvpn" = ("search", suffix)
      /\ "search" <> "" /\ suffix <> ""
      /\ "search_layer4_openvpn" = "search" +:+ "_" +:+ suffix
      /\ In ("search" +:+ "_") _CRUD_PREFIXES)
  /\ _parse_crud "del_" = ("", "").
Proof.
  split.
  - apply (proj1 C3_parse_crud_on_crud_commands
             "search_layer4_openvpn" "search" "layer4_openvpn").
    reflexivity.
  - apply (proj2 C3_parse_crud_on_crud_commands "del_").
    simpl. tauto.
Defined.

End ParseCrudFacts.

(** ** Resolver: matching ladder *)

Section MatchItemFacts.

Lemma no_override_for_item (module_name controller : string) :
  _MANUAL_OVERRIDES !! (module_name, controller, "item") = None.
Proof.
  unfold _MANUAL_OVERRIDES.
  rewrite !lookup_insert_ne by congruence. apply lookup_empty.
Qed.

Lemma first_item_after (test : ModelItem.t -> bool)
    (pre post : list ModelItem.t) (item : ModelItem.t) :
  Forall (fun other => test other = false) pre ->
  test item = true ->
  first_item test (pre ++ item :: post) = Some item.
Proof.
  unfold first_item. intros Hpre Hitem.
  induction Hpre as [|x pre Hx _ IH]; cbn [app List.find].
  - now rewrite Hitem.
  - now rewrite Hx.
Qed.

(** With a single item, the controller-name ladder always ends on it. *)
Lemma match_item_suffix_sole (controller : string) (only : ModelItem.t) :
  _match_item_suffix controller [only] = Some only.
Proof.
  unfold _match_item_suffix, first_item. cbn [List.find].
  repeat match goal with
         | |- context [if ?b then _ else _] => destruct b; cbn [or_else]
         end; reflexivity.
Qed.

Lemma match_item_generic_sole (suffix controller module_name : string)
    (only : ModelItem.t) :
  lower suffix = "item" ->
  _match_item suffix controller [only] module_name = Some only.
Proof.
  intros Hitem. unfold _match_item, by_override.
  rewrite Hitem, no_override_for_item. cbn [or_else String.eqb].
  change (String.eqb "item" "item") with true.
  apply match_item_suffix_sole.
Qed.

Lemma short_suffix_not_item (suffix : string) :
  String.length (_normalize suffix) < 3 ->
  String.eqb (lower suffix) "item" = false.
Proof.
  intros Hlen. destruct (String.eqb_spec (lower suffix) "item") as [E|];
    [|reflexivity].
  unfold _normalize in Hlen. rewrite E in Hlen. cbn in Hlen. lia.
Qed.

(** C1 (amended): with a normalized suffix of fewer than three
    characters the startswith fallback never produces a match: when none
    of the strategies before it matched (override, exact name, container
    name, normalized, plural, +ing, endswith, _item stripping,
    compound), the result is None. *)
Theorem C1_startswith_needs_three_chars
    (suffix controller module_name : string) (items : list ModelItem.t) :
  String.length (_normalize suffix) < 3 ->
  by_override suffix controller items module_name = None ->
  by_name suffix items = None ->
  by_container suffix items = None ->
  by_normalized suffix items = None ->
  by_plural suffix items = None ->
  by_ing suffix items = None ->
  by_endswith suffix items = None ->
  by_item_stripped suffix items = None ->
  by_compound suffix items = None ->
  _match_item suffix controller items module_name = None.
Proof.
  intros Hlen Ho Hn Hc Hnorm Hp Hi He Hs Hcomp.
  unfold _match_item.
  rewrite Ho, (short_suffix_not_item _ Hlen), Hn, Hc, Hnorm, Hp, Hi, He, Hs,
    Hcomp.
  cbn [or_else]. unfold by_startswith.
  apply Nat.leb_gt in Hlen. now rewrite Hlen.
Qed.

(** Suffix [de] against the sole item [details] yields no match. *)
Lemma C1_startswith_witness :
  _match_item "de" "somectrl" [details_item] "" = None.
Proof.
  apply C1_startswith_needs_three_chars; vm_compute; (lia || reflexivity).
Defined.

(** C1 as stated fails on the endswith fallback, which has no length
    guard: suffix [ls] is matched by none of the strategies the claim
    lists, and the item [details] is returned because its name ends with
    [ls]. *)
Lemma C1_endswith_counterexample :
  String.length (_normalize "ls") < 3
  /\ by_override "ls" "somectrl" [details_item] "" = None
  /\ by_name "ls" [details_item] = None
  /\ by_container "ls" [details_item] = None
  /\ by_normalized "ls" [details_item] = None
  /\ by_plural "ls" [details_item] = None
  /\ by_ing "ls" [details_item] = None
  /\ by_item_stripped "ls" [details_item] = None
  /\ by_compound "ls" [details_item] = None
  /\ by_endswith "ls" [details_item] = Some details_item
  /\ _match_item "ls" "somectrl" [details_item] "" = Some details_item.
Proof. vm_compute. repeat split; lia. Qed.

(** C5 (amended): when no manual override applies and the suffix is not
    the generic [item], a suffix that equals (case-insensitively) the
    name of some item resolves to the first such item in list order,
    whatever the later strategies would match. *)
Theorem C5_exact_name_wins
    (suffix controller module_name : string)
    (pre post : list ModelItem.t) (item : ModelItem.t) :
  by_override suffix controller (pre ++ item :: post) module_name = None ->
  lower suffix <> "item" ->
  Forall (fun other => lower (ModelItem.name other) <> lower suffix) pre ->
  lower (ModelItem.name item) = lower suffix ->
  _match_item suffix controller (pre ++ item :: post) module_name
  = Some item.
Proof.
  intros Ho Hgen Hpre Hitem. unfold _match_item. rewrite Ho.
  apply String.eqb_neq in Hgen. rewrite Hgen. cbn [or_else].
  unfold by_name. rewrite first_item_after; [reflexivity| |].
  - eapply Forall_impl; [exact Hpre|]. intros x Hx. now apply String.eqb_neq.
  - now apply String.eqb_eq.
Qed.

Lemma C5_exact_name_witness :
  _match_item "alias" "somectrl"
    ([aliases_item; rule_item] ++ alias_item :: [rule_item]) ""
  = Some alias_item.
Proof.
  apply C5_exact_name_wins.
  - reflexivity.
  - discriminate.
  - repeat constructor; discriminate.
  - reflexivity.
Defined.

(** C5 as stated fails where an earlier rung of the ladder applies: the
    override (clamav, url, url) sends the suffix [url] to the item
    [list] although an item named [url] comes first; and the generic
    suffix [item] is matched through the controller name although an
    item is itself named [item]. *)
Lemma C5_override_counterexample :
  lower (ModelItem.name url_item) = lower "url"
  /\ _match_item "url" "url" [url_item; list_item] "clamav"
     = Some list_item
  /\ list_item <> url_item
  /\ _match_item "item" "alias"
       [ModelItem.mk "item" "Item" "items" []; alias_item] ""
     = Some alias_item.
Proof. vm_compute. repeat split; discriminate. Qed.

End MatchItemFacts.

(** ** Resolver: whole-graph behaviour *)

Section ResolveFacts.

Import Frame.

Lemma picks_none items : picks_from items None.
Proof. intros item [=]. Qed.

Lemma picks_first_item test items : picks_from items (first_item test items).
Proof.
  intros item H. unfold first_item in H.
  now apply List.find_some in H as [H _].
Qed.

Lemma picks_or_else items hit next :
  picks_from items hit -> picks_from items next ->
  picks_from items (or_else hit next).
Proof. intros Hh Hn. destruct hit; [exact Hh | exact Hn]. Qed.

Lemma picks_plural_loop plurals items :
  picks_from items (plural_loop plurals items).
Proof.
  induction plurals as [|pl more IH]; [apply picks_none|].
  cbn [plural_loop].
  repeat apply picks_or_else; auto using picks_first_item.
Qed.

Lemma picks_endswith_loop candidates items :
  picks_from items (endswith_loop candidates items).
Proof.
  induction candidates as [|c more IH]; [apply picks_none|].
  cbn [endswith_loop].
  repeat apply picks_or_else; auto using picks_first_item.
Qed.

Lemma picks_match_item_suffix controller items :
  picks_from items (_match_item_suffix controller items).
Proof.
  unfold _match_item_suffix.
  repeat apply picks_or_else; try apply picks_first_item.
  - destruct (3 <=? _); [apply picks_first_item | apply picks_none].
  - destruct items as [|only [|? ?]]; try apply picks_none.
    intros item [= <-]. now left.
Qed.

Lemma picks_match_item suffix controller items module_name :
  picks_from items (_match_item suffix controller items module_name).
Proof.
  unfold _match_item. apply picks_or_else.
  - unfold by_override.
    destruct (_MANUAL_OVERRIDES !! _);
      [apply picks_first_item | apply picks_none].
  - destruct (String.eqb (lower suffix) "item");
      [apply picks_match_item_suffix|].
    unfold by_name, by_container, by_normalized, by_plural, by_ing,
      by_endswith, by_item_stripped, by_compound, by_startswith.
    repeat apply picks_or_else;
      try apply picks_first_item;
      try apply picks_plural_loop;
      try apply picks_endswith_loop.
    + destruct (contains "_" suffix); [|apply picks_none].
      repeat apply picks_or_else; apply picks_first_item.
    + destruct (3 <=? _); [|apply picks_none].
      repeat apply picks_or_else; apply picks_first_item.
Qed.

Lemma same_parsed_fields_refl ep : same_parsed_fields ep ep.
Proof. repeat split. Qed.

Lemma match_item_none_listed suffix controller module_name :
  _match_item suffix controller [] module_name = None.
Proof.
  destruct (_match_item suffix controller [] module_name) as [item|] eqn:H;
    [|reflexivity].
  now apply picks_match_item in H.
Qed.

Lemma endpoint_frame_unmatched module_name items ep :
  unmatched module_name items ep -> endpoint_frame module_name items ep ep.
Proof.
  intros H. split; [apply same_parsed_fields_refl|]. left.
  split; [exact H | repeat split].
Qed.

Lemma resolve_endpoint_frame module_name items ep :
  endpoint_frame module_name items ep
    (resolve_endpoint module_name items ep).
Proof.
  unfold resolve_endpoint.
  destruct (_parse_crud (Endpoint.command ep)) as [verb suffix] eqn:Hcrud.
  destruct (nonempty verb) eqn:Hverb; cbn [negb].
  2:{ apply endpoint_frame_unmatched. left. rewrite Hcrud. cbn [fst].
      now destruct verb. }
  destruct (_match_item suffix (Endpoint.controller ep) items module_name)
    as [item|] eqn:Hmatch.
  2:{ apply endpoint_frame_unmatched. right. rewrite Hcrud. exact Hmatch. }
  split; [repeat split|]. right. exists item.
  unfold Endpoint.annotate.
  cbn [Endpoint.crud_verb Endpoint.model_item Endpoint.item_json_key].
  rewrite Hcrud. cbn [fst snd].
  repeat split.
  - exact Hmatch.
  - now apply nonempty_true.
  - now apply (picks_match_item _ _ _ _ _ Hmatch).
Qed.

Lemma Forall2_map_self {A} (R : A -> A -> Prop) (f : A -> A) (l : list A) :
  (forall x, R x (f x)) -> Forall2 R l (map f l).
Proof. intros H. induction l; constructor; auto. Qed.

Lemma controller_frame_skipped module_name ctrl :
  items_of ctrl = [] -> controller_frame module_name ctrl ctrl.
Proof.
  intros Hitems. repeat split.
  rewrite <- (map_id (Controller.endpoints ctrl)) at 2.
  apply Forall2_map_self. intros ep.
  apply endpoint_frame_unmatched. right. rewrite Hitems.
  apply match_item_none_listed.
Qed.

Lemma resolve_controller_frame module_name ctrl :
  controller_frame module_name ctrl (resolve_controller module_name ctrl).
Proof.
  unfold resolve_controller.
  destruct (Controller.model ctrl) as [model|] eqn:Hmodel.
  2:{ apply controller_frame_skipped. unfold items_of. now rewrite Hmodel. }
  destruct (Model.items model) as [|it items] eqn:Hitems.
  { apply controller_frame_skipped. unfold items_of.
    now rewrite Hmodel, Hitems. }
  repeat split; cbn; try (symmetry; assumption).
  apply Forall2_map_self. intros ep.
  unfold items_of. rewrite Hmodel, Hitems.
  apply resolve_endpoint_frame.
Qed.

Lemma resolve_module_frame m : module_frame m (resolve_module m).
Proof.
  repeat split. cbn.
  apply Forall2_map_self, resolve_controller_frame.
Qed.

Lemma resolve_parsed_endpoint module_name items methods module controller
    command command_camel url_path go_method_name parameters :
  let ep := Endpoint.parsed methods module controller command command_camel
              url_path go_method_name parameters in
  let ep' := resolve_endpoint module_name items ep in
  ((fst (_parse_crud command) = ""
    \/ _match_item (snd (_parse_crud command)) controller items module_name
       = None)
   /\ Endpoint.crud_verb ep' = "" /\ Endpoint.model_item ep' = None
   /\ Endpoint.item_json_key ep' = "")
  \/ (exists item,
         _match_item (snd (_parse_crud command)) controller items module_name
         = Some item
         /\ In item items
         /\ Endpoint.crud_verb ep' = fst (_parse_crud command)
         /\ Endpoint.crud_verb ep' <> ""
         /\ Endpoint.model_item ep' = Some item
         /\ Endpoint.item_json_key ep' = ModelItem.name item).
Proof.
  intros ep ep'. subst ep'.
  destruct (resolve_endpoint_frame module_name items ep)
    as [_ [[Hun (Hv & Hi & Hk)]|(item & Hm & Hv & Hne & Hi & Hk & Hin)]].
  - left. split; [exact Hun|]. now rewrite Hv, Hi, Hk.
  - right. exists item. auto 10.
Qed.

(** C6: [resolve_endpoints] only annotates.  Modules, controllers and
    endpoints correspond one to one before and after; every field of a
    module or controller other than the endpoint list is the same, and the
    parsed fields of every endpoint are the same.  For every endpoint,
    either its command has no CRUD verb or [_match_item] finds no item of
    the controller's model for it, and none of [crud_verb], [model_item],
    [item_json_key] was assigned; or all three were assigned: the
    non-empty verb of the command's CRUD prefix, the item that
    [_match_item] returns (an item of the controller's model), and that
    item's name.  An endpoint as the parser built it therefore ends with
    all three at their empty defaults in the first case and with all
    three set in the second. *)
Theorem C6_resolve_only_annotates :
  (forall modules : list ApiModule.t,
      Forall2 module_frame modules (resolve_endpoints modules))
  /\ (forall module_name items methods module controller command
        command_camel url_path go_method_name parameters,
        let ep' :=
          resolve_endpoint module_name items
            (Endpoint.parsed methods module controller command command_camel
               url_path go_method_name parameters) in
        ((fst (_parse_crud command) = ""
          \/ _match_item (snd (_parse_crud command)) controller items
               module_name = None)
         /\ Endpoint.crud_verb ep' = "" /\ Endpoint.model_item ep' = None
         /\ Endpoint.item_json_key ep' = "")
        \/ (exists item,
               _match_item (snd (_parse_crud command)) controller items
                 module_name = Some item
               /\ In item items
               /\ Endpoint.crud_verb ep' = fst (_parse_crud command)
               /\ Endpoint.crud_verb ep' <> ""
               /\ Endpoint.model_item ep' = Some item
               /\ Endpoint.item_json_key ep' = ModelItem.name item)).
Proof.
  split.
  - intros modules. apply Forall2_map_self, resolve_module_frame.
  - intros. apply resolve_parsed_endpoint.
Qed.

(** C4: an endpoint whose command is a CRUD prefix followed by [item],
    under a controller whose model has exactly one item, is linked to
    that item: after resolution its [model_item] is the sole item, its
    [crud_verb] is the prefix without the underscore (not empty), its
    [item_json_key] is the item's name and its parsed fields are as
    before, whatever the names of the item, its container and the
    controller. *)
Theorem C4_generic_suffix_sole_item
    (modules : list ApiModule.t) (k j i : nat)
    (m : ApiModule.t) (ctrl : Controller.t) (model : Model.t)
    (only : ModelItem.t) (ep : Endpoint.t) (prefix : string) :
  modules !! k = Some m ->
  ApiModule.controllers m !! j = Some ctrl ->
  Controller.model ctrl = Some model ->
  Model.items model = [only] ->
  Controller.endpoints ctrl !! i = Some ep ->
  In prefix _CRUD_PREFIXES ->
  Endpoint.command ep = prefix +:+ "item" ->
  exists m' ctrl' ep',
    resolve_endpoints modules !! k = Some m'
    /\ ApiModule.controllers m' !! j = Some ctrl'
    /\ Controller.endpoints ctrl' !! i = Some ep'
    /\ Endpoint.model_item ep' = Some only
    /\ Endpoint.crud_verb ep' = rstrip "_" prefix
    /\ Endpoint.crud_verb ep' <> ""
    /\ Endpoint.item_json_key ep' = ModelItem.name only
    /\ same_parsed_fields ep ep'.
Proof.
  intros Hm Hctrl Hmodel Hitems Hep Hprefix Hcmd.
  assert (Hverb : nonempty (rstrip "_" prefix) = true).
  { unfold _CRUD_PREFIXES in Hprefix. cbn [In] in Hprefix.
    repeat (destruct Hprefix as [<-|Hprefix]; [reflexivity|]).
    contradiction. }
  assert (Hresolved :
            resolve_endpoint (ApiModule.name m) [only] ep
            = Endpoint.annotate (rstrip "_" prefix) only
                (ModelItem.name only) ep).
  { unfold resolve_endpoint.
    rewrite Hcmd, (parse_crud_prefix prefix "item" Hprefix) by discriminate.
    rewrite Hverb. cbn [negb].
    now rewrite match_item_generic_sole. }
  exists (resolve_module m), (resolve_controller (ApiModule.name m) ctrl),
    (resolve_endpoint (ApiModule.name m) [only] ep).
  split; [|split; [|split]].
  - unfold resolve_endpoints.
    change (map resolve_module modules) with (resolve_module <$> modules).
    now rewrite list_lookup_fmap, Hm.
  - cbn.
    change (map ?f ?l) with (f <$> l).
    now rewrite list_lookup_fmap, Hctrl.
  - unfold resolve_controller. rewrite Hmodel, Hitems. cbn.
    change (map ?f ?l) with (f <$> l).
    now rewrite list_lookup_fmap, Hep.
  - rewrite Hresolved. unfold Endpoint.annotate. cbn.
    repeat split. now apply nonempty_true.
Qed.

(** The command [add_item] of a controller named [unrelated_ctrl], over
    a model whose only item is called [something]. *)
Lemma C4_generic_suffix_witness :
  exists m' ctrl' ep',
    resolve_endpoints lonely_modules !! 0 = Some m'
    /\ ApiModule.controllers m' !! 0 = Some ctrl'
    /\ Controller.endpoints ctrl' !! 0 = Some ep'
    /\ Endpoint.model_item ep' = Some lonely_item
    /\ Endpoint.crud_verb ep' = rstrip "_" "add_"
    /\ Endpoint.crud_verb ep' <> ""
    /\ Endpoint.item_json_key ep' = ModelItem.name lonely_item
    /\ same_parsed_fields add_item_ep ep'.
Proof.
  apply (C4_generic_suffix_sole_item lonely_modules 0 0 0
           (ApiModule.mk "firewall" "core" [lonely_controller])
           lonely_controller (model_of [lonely_item]));
    try reflexivity.
  simpl. auto.
Defined.

End ResolveFacts.

(** ** CLI emitter: one verb per (resource, cli verb) *)

Section BestVerbFacts.












End BestVerbFacts.

(** ** Emitters: duplicate method identifiers *)

Section DedupFacts.

Lemma collect_from_controller_once eps st :
  collected_once st -> collected_once (collect_from_controller eps st).
Proof.
  revert st. induction eps as [|ep more IH]; intros [endpoints seen] Hst;
    cbn [collect_from_controller]; [exact Hst|].
  destruct Hst as [Hnd Hseen]. cbn [fst snd] in *.
  case_bool_decide as Hnew; apply IH; [|now split].
  split; cbn [fst snd].
  - rewrite List.map_app. cbn [map].
    apply List.NoDup_app; [exact Hnd | repeat constructor; intros [] |].
    intros name Hin [<-|[]]. apply Hnew. now apply Hseen.
  - intros name. rewrite List.map_app, List.in_app_iff, elem_of_union,
      elem_of_singleton, Hseen.
    cbn [map In]. intuition congruence.
Qed.

Lemma collect_from_controllers_once ctrls st :
  collected_once st -> collected_once (collect_from_controllers ctrls st).
Proof.
  revert st. induction ctrls as [|ctrl more IH]; intros st Hst;
    cbn [collect_from_controllers]; [exact Hst|].
  destruct (Controller.is_abstract ctrl); apply IH; [exact Hst|].
  now apply collect_from_controller_once.
Qed.

(** The client emitter's collection holds every method identifier at
    most once over the whole module. *)
Lemma collect_endpoints_unique (module : ApiModule.t) :
  List.NoDup (map Endpoint.go_method_name (_collect_endpoints module)).
Proof.
  unfold _collect_endpoints.
  apply (collect_from_controllers_once (ApiModule.controllers module) ([], ∅)).
  split; [constructor|]. intros name. cbn. set_solver.
Qed.

Lemma collect_from_controller_app (a b : list Endpoint.t) st :
  collect_from_controller (a ++ b) st
  = collect_from_controller b (collect_from_controller a st).
Proof.
  revert st. induction a as [|ep a IH]; intros [endpoints seen];
    [reflexivity|].
  cbn [app collect_from_controller]. case_bool_decide; apply IH.
Qed.

Lemma collect_from_controllers_flat (ctrls : list Controller.t) st :
  collect_from_controllers ctrls st
  = collect_from_controller (concrete_endpoints ctrls) st.
Proof.
  revert st. induction ctrls as [|ctrl more IH]; intros st; [now destruct st|].
  unfold concrete_endpoints. cbn [collect_from_controllers List.filter].
  destruct (Controller.is_abstract ctrl); cbn [negb flat_map]; [apply IH|].
  now rewrite collect_from_controller_app, IH.
Qed.

Lemma find_snoc {A} (f : A -> bool) (l : list A) (x : A) :
  List.find f (l ++ [x])
  = match List.find f l with
    | Some y => Some y
    | None => if f x then Some x else None
    end.
Proof.
  induction l as [|y l IH]; cbn [app List.find]; [reflexivity|].
  now destruct (f y).
Qed.

Lemma collect_from_controller_first done eps st :
  first_kept done st ->
  first_kept (done ++ eps) (collect_from_controller eps st).
Proof.
  revert done st. induction eps as [|ep more IH]; intros done [endpoints seen];
    cbn [collect_from_controller]; [now rewrite List.app_nil_r|].
  intros [Hseen Hkept]. cbn [fst snd] in *.
  replace (done ++ ep :: more) with ((done ++ [ep]) ++ more)
    by now rewrite <- List.app_assoc.
  assert (Hnames : forall name,
             name = Endpoint.go_method_name ep \/ name ∈ seen
             <-> In name (map Endpoint.go_method_name (done ++ [ep]))).
  { intros name. rewrite List.map_app, List.in_app_iff, Hseen. cbn [map In].
    intuition congruence. }
  assert (Hold : forall e,
             In e endpoints ->
             List.find (same_method e) (done ++ [ep]) = Some e).
  { intros e He. apply Hkept in He. now rewrite find_snoc, He. }
  case_bool_decide as Hnew; apply IH; split; cbn [fst snd].
  - intros name. rewrite elem_of_union, elem_of_singleton. apply Hnames.
  - intros e. rewrite List.in_app_iff. cbn [In]. split.
    + intros [He|[<-|[]]]; [now apply Hold|].
      rewrite find_snoc.
      destruct (List.find (same_method ep) done) as [x|] eqn:Hfind.
      * apply List.find_some in Hfind as [Hx Hsame].
        apply String.eqb_eq in Hsame. exfalso. apply Hnew, Hseen.
        rewrite <- Hsame. now apply List.in_map.
      * unfold same_method. now rewrite String.eqb_refl.
    + rewrite find_snoc.
      destruct (List.find (same_method e) done) as [x|] eqn:Hfind.
      * intros [= ->]. left. now apply Hkept.
      * destruct (same_method e ep); [|discriminate].
        intros [= ->]. right. now left.
  - intros name. rewrite <- Hnames. split; [tauto|].
    intros [->|H]; [exact Hnew | exact H].
  - intros e. split; [apply Hold|].
    rewrite find_snoc.
    destruct (List.find (same_method e) done) as [x|] eqn:Hfind.
    + intros [= ->]. now apply Hkept.
    + destruct (same_method e ep) eqn:Hsame; [|discriminate].
      intros [= ->]. exfalso.
      apply Hseen in Hnew.
      apply List.in_map_iff in Hnew as (x & Hx & Hin).
      apply (List.find_none _ _ Hfind) in Hin.
      unfold same_method in Hin. rewrite Hx, String.eqb_refl in Hin.
      discriminate.
Qed.

(** First occurrence wins in the client emitter: an endpoint is
    collected exactly when it is the first of the module's concrete
    endpoints, in declaration order, with its method identifier. *)
Lemma collect_endpoints_first_wins (module : ApiModule.t) (e : Endpoint.t) :
  In e (_collect_endpoints module)
  <-> List.find (same_method e)
        (concrete_endpoints (ApiModule.controllers module)) = Some e.
Proof.
  unfold _collect_endpoints. rewrite collect_from_controllers_flat.
  apply (collect_from_controller_first [] _ ([], ∅)).
  split; cbn; [set_solver | intuition discriminate].
Qed.

(** C7: the client emitter removes duplicate method identifiers over the
    whole module, the CLI emitter only within one controller.  In the
    sample module the command [get_foo] of controller [alias] is listed
    under two concrete controllers, and the resolver types only the
    first.  Both endpoints carry the identifier the parser derives,
    [AliasGetFoo].  The client emitter collects one endpoint; the CLI
    grouping keeps both and emits the identifier under two verbs of the
    resource [foo]. *)
Theorem C7_cli_grouping_repeats_method_across_controllers :
  NameTransform.go_method_name "alias" "get_foo" = Some "AliasGetFoo"
  /\ map Endpoint.go_method_name
       (_collect_endpoints (resolve_module twice_listed_module))
     = ["AliasGetFoo"]
  /\ map (fun entry =>
            (fst entry,
             map (fun e => Endpoint.go_method_name (fst e)) (snd entry)))
         (grouped_resources (resolve_module twice_listed_module))
     = [("foo", ["AliasGetFoo"; "AliasGetFoo"])]
  /\ fmap (M := option)
       (map (fun r => (fst (fst r),
                       map (fun view => (cli_verb view, go_method view,
                                         is_typed view)) (snd r))))
       (raw_resources (resolve_module twice_listed_module))
     = Some [("foo", [("get", "AliasGetFoo", true);
                      ("get-foo", "AliasGetFoo", false)])].
Proof. vm_compute. repeat split. Qed.

End DedupFacts.

(** ** Parameter grammar *)

Section ParamFacts.

Lemma all_chars_app p (a b : string) :
  all_chars p (a +:+ b) = all_chars p a && all_chars p b.
Proof.
  induction a as [|c a IH]; [reflexivity|].
  rewrite app_cons. cbn [all_chars]. now rewrite IH, andb_assoc.
Qed.

Lemma any_char_app p (a b : string) :
  any_char p (a +:+ b) = any_char p a || any_char p b.
Proof.
  induction a as [|c a IH]; [reflexivity|].
  rewrite app_cons. cbn [any_char]. now rewrite IH, orb_assoc.
Qed.

Lemma all_chars_impl (p q : ascii -> bool) (s : string) :
  (forall c, p c = true -> q c = true) ->
  all_chars p s = true -> all_chars q s = true.
Proof.
  intros Hpq. induction s as [|c r IH]; [reflexivity|].
  cbn [all_chars]. intros [Hc Hr]%andb_true_iff.
  rewrite (Hpq _ Hc). now apply IH.
Qed.

Lemma all_chars_none (p q : ascii -> bool) (s : string) :
  (forall c, p c = true -> q c = false) ->
  all_chars p s = true -> any_char q s = false.
Proof.
  intros Hpq. induction s as [|c r IH]; [reflexivity|].
  cbn [all_chars any_char]. intros [Hc Hr]%andb_true_iff.
  rewrite (Hpq _ Hc). now apply IH.
Qed.

Lemma app_empty_r (s : string) : s +:+ "" = s.
Proof.
  induction s as [|c r IH]; [reflexivity|]. now rewrite app_cons, IH.
Qed.

Lemma lstrip_by_clean p (s : string) :
  all_chars (fun c => negb (p c)) s = true -> lstrip_by p s = s.
Proof.
  destruct s as [|c r]; [reflexivity|]. cbn [all_chars lstrip_by].
  intros [Hc _]%andb_true_iff. apply negb_true_iff in Hc. now rewrite Hc.
Qed.

Lemma rstrip_by_clean p (s : string) :
  all_chars (fun c => negb (p c)) s = true -> rstrip_by p s = s.
Proof.
  induction s as [|c r IH]; [reflexivity|]. cbn [all_chars rstrip_by].
  intros [Hc Hr]%andb_true_iff. apply negb_true_iff in Hc.
  rewrite (IH Hr). destruct r; [now rewrite Hc | reflexivity].
Qed.

Lemma strip_by_clean p (s : string) :
  all_chars (fun c => negb (p c)) s = true -> strip_by p s = s.
Proof.
  intros H. unfold strip_by. now rewrite lstrip_by_clean, rstrip_by_clean.
Qed.

(** The text before and after the first separator. *)
Lemma split_first_app sep (a b : string) :
  contains sep a = false ->
  split_first sep (a +:+ String sep b) = (a, b).
Proof.
  unfold contains. induction a as [|c a IH]; cbn [any_char].
  - intros _. rewrite app_nil_l. cbn [split_first].
    now rewrite Ascii.eqb_refl.
  - intros [Hc Ha]%orb_false_iff. rewrite app_cons. cbn [split_first].
    rewrite Ascii.eqb_sym, Hc. now rewrite (IH Ha).
Qed.

Lemma split_clean sep (t : string) :
  contains sep t = false -> split sep t = [t].
Proof.
  unfold contains. induction t as [|c t IH]; [reflexivity|].
  cbn [any_char split]. intros [Hc Ht]%orb_false_iff.
  rewrite Ascii.eqb_sym, Hc. now rewrite (IH Ht).
Qed.

Lemma split_app sep (t r : string) :
  contains sep t = false ->
  split sep (t +:+ String sep r) = t :: split sep r.
Proof.
  unfold contains. induction t as [|c t IH]; cbn [any_char].
  - intros _. rewrite app_nil_l. cbn [split]. now rewrite Ascii.eqb_refl.
  - intros [Hc Ht]%orb_false_iff. rewrite app_cons. cbn [split].
    rewrite Ascii.eqb_sym, Hc. now rewrite (IH Ht).
Qed.

Lemma split_join sep (t : string) (toks : list string) :
  Forall (fun x => contains sep x = false) (t :: toks) ->
  split sep (join (String sep "") (t :: toks)) = t :: toks.
Proof.
  revert t. induction toks as [|u toks IH]; intros t Hall.
  - apply split_clean. now inversion Hall.
  - inversion Hall as [|? ? Ht Hrest]; subst.
    change (join (String sep "") (t :: u :: toks))
      with (t +:+ String sep "" +:+ join (String sep "") (u :: toks)).
    rewrite app_cons, app_nil_l, (split_app _ _ _ Ht). f_equal.
    now apply IH.
Qed.

(** *** One token *)

Lemma parse_part_empty (part : string) :
  lstrip "$" (strip part) = "" -> parse_part part = None.
Proof. intros H. unfold parse_part. now rewrite H. Qed.

Lemma parse_part_optional (part before after : string) :
  lstrip "$" (strip part) = before +:+ "=" +:+ after ->
  contains "=" before = false ->
  parse_part part = Some (Param.mk (strip before) false (Some (strip after))).
Proof.
  intros Hclean Hbefore. unfold parse_part. rewrite Hclean.
  assert (Hne : nonempty (before +:+ "=" +:+ after) = true).
  { destruct before; reflexivity. }
  rewrite Hne. cbn [negb].
  unfold contains in *. rewrite any_char_app, Hbefore.
  change (any_char (Ascii.eqb "=") ("=" +:+ after)) with true.
  cbn [orb].
  change ("=" +:+ after) with (String "=" after).
  now rewrite (split_first_app "=" before after Hbefore).
Qed.

Lemma parse_part_required (part : string) :
  lstrip "$" (strip part) <> "" ->
  contains "=" (lstrip "$" (strip part)) = false ->
  parse_part part
  = Some (Param.mk (strip (lstrip "$" (strip part))) true None).
Proof.
  intros Hne Heq. unfold parse_part.
  apply nonempty_true in Hne. now rewrite Hne, Heq.
Qed.

Lemma parse_part_default_iff (part : string) (p : Param.t) :
  parse_part part = Some p ->
  (Param.default p = None <-> Param.required p = true).
Proof.
  unfold parse_part.
  destruct (nonempty (lstrip "$" (strip part))); cbn [negb]; [|discriminate].
  destruct (contains "=" (lstrip "$" (strip part))).
  - destruct (split_first "=" (lstrip "$" (strip part))).
    intros [= <-]. cbn. split; discriminate.
  - intros [= <-]. cbn. split; reflexivity.
Qed.

(** *** Canonically written parameter lists *)

Ltac char_cases c :=
  unfold name_char, value_char;
  destruct (is_space c), (Ascii.eqb_spec c ","), (Ascii.eqb_spec c "="),
    (Ascii.eqb_spec c "$"), (Ascii.eqb_spec c "*");
  subst; cbn; congruence.

Lemma name_char_not_space c : name_char c = true -> negb (is_space c) = true.
Proof. char_cases c. Qed.
Lemma name_char_not_star c :
  name_char c = true -> negb (Ascii.eqb "*" c) = true.
Proof. rewrite (Ascii.eqb_sym "*" c). char_cases c. Qed.
Lemma name_char_not_comma c : name_char c = true -> Ascii.eqb "," c = false.
Proof. rewrite (Ascii.eqb_sym "," c). char_cases c. Qed.
Lemma name_char_not_equals c : name_char c = true -> Ascii.eqb "=" c = false.
Proof. rewrite (Ascii.eqb_sym "=" c). char_cases c. Qed.
Lemma name_char_not_sigil c : name_char c = true -> Ascii.eqb "$" c = false.
Proof. rewrite (Ascii.eqb_sym "$" c). char_cases c. Qed.
Lemma value_char_not_space c : value_char c = true -> negb (is_space c) = true.
Proof. char_cases c. Qed.
Lemma value_char_not_star c :
  value_char c = true -> negb (Ascii.eqb "*" c) = true.
Proof. rewrite (Ascii.eqb_sym "*" c). char_cases c. Qed.
Lemma value_char_not_comma c : value_char c = true -> Ascii.eqb "," c = false.
Proof. rewrite (Ascii.eqb_sym "," c). char_cases c. Qed.

Lemma name_char_plain c : name_char c = true -> plain_char c = true.
Proof.
  intros H. unfold plain_char.
  now rewrite name_char_not_space, name_char_not_star, name_char_not_comma.
Qed.

Lemma value_char_plain c : value_char c = true -> plain_char c = true.
Proof.
  intros H. unfold plain_char.
  now rewrite value_char_not_space, value_char_not_star,
    value_char_not_comma.
Qed.

Lemma token_plain (w : written_param) :
  well_formed w = true -> all_chars plain_char (token w) = true.
Proof.
  unfold well_formed, token. destruct w as [name [d|]]; cbn [fst snd];
    intros [[_ Hname]%andb_true_iff Hd]%andb_true_iff;
    change ("$" +:+ ?x) with (String "$" x); cbn [all_chars];
    rewrite !all_chars_app, (all_chars_impl _ _ _ name_char_plain Hname).
  - change ("=" +:+ d) with (String "=" d). cbn [all_chars].
    now rewrite (all_chars_impl _ _ _ value_char_plain Hd).
  - reflexivity.
Qed.

Lemma plain_not_space c : plain_char c = true -> negb (is_space c) = true.
Proof. unfold plain_char. now intros [[H _]%andb_true_iff _]%andb_true_iff. Qed.
Lemma plain_not_star c :
  plain_char c = true -> negb (Ascii.eqb "*" c) = true.
Proof. unfold plain_char. now intros [[_ H]%andb_true_iff _]%andb_true_iff. Qed.
Lemma plain_not_comma c : plain_char c = true -> Ascii.eqb "," c = false.
Proof.
  unfold plain_char. intros [_ H]%andb_true_iff. now apply negb_true_iff.
Qed.

Lemma parse_part_token (w : written_param) :
  well_formed w = true -> parse_part (token w) = Some (param_of w).
Proof.
  intros Hw. pose proof (token_plain w Hw) as Hplain.
  assert (Hstrip : strip (token w) = token w).
  { apply strip_by_clean. revert Hplain. apply all_chars_impl, plain_not_space. }
  unfold well_formed in Hw.
  apply andb_true_iff in Hw as [[Hne Hname]%andb_true_iff Hd].
  destruct w as [name d]. cbn [fst snd] in *.
  assert (Hname_strip : strip name = name).
  { apply strip_by_clean. revert Hname.
    apply all_chars_impl, name_char_not_space. }
  assert (Hname_eq : contains "=" name = false).
  { revert Hname. apply all_chars_none, name_char_not_equals. }
  assert (Hsigil : forall tail,
             lstrip "$" (String "$" (name +:+ tail)) = name +:+ tail).
  { intros tail. destruct name as [|c n]; [discriminate|].
    cbn [all_chars] in Hname. apply andb_true_iff in Hname as [Hc _].
    rewrite app_cons. unfold lstrip. cbn [lstrip_by].
    change (Ascii.eqb "$" "$") with true. cbv iota.
    now rewrite (name_char_not_sigil _ Hc). }
  destruct d as [d|]; unfold param_of; cbn [fst snd].
  - rewrite (parse_part_optional _ name d).
    + rewrite Hname_strip. do 3 f_equal.
      apply strip_by_clean. revert Hd.
      apply all_chars_impl, value_char_not_space.
    + rewrite Hstrip. unfold token. cbn [fst snd]. apply Hsigil.
    + exact Hname_eq.
  - assert (Hclean : lstrip "$" (strip (token (name, None))) = name).
    { rewrite Hstrip. unfold token. cbn [fst snd].
      rewrite <- (app_empty_r name) at 2. apply Hsigil. }
    rewrite parse_part_required; rewrite Hclean.
    + now rewrite Hname_strip.
    + now apply nonempty_true.
    + exact Hname_eq.
Qed.

Lemma join_plain (toks : list string) :
  Forall (fun t => all_chars plain_char t = true) toks ->
  all_chars (fun c => negb (is_space c) && negb (Ascii.eqb "*" c))
    (join "," toks) = true.
Proof.
  assert (Hweak : forall t, all_chars plain_char t = true ->
            all_chars (fun c => negb (is_space c) && negb (Ascii.eqb "*" c))
              t = true).
  { intros t. apply all_chars_impl. intros c Hc.
    now rewrite plain_not_space, plain_not_star. }
  induction 1 as [|t toks Ht Htoks IH]; [reflexivity|].
  destruct toks as [|u toks]; [now apply Hweak|].
  change (join "," (t :: u :: toks))
    with (t +:+ "," +:+ join "," (u :: toks)).
  rewrite all_chars_app, (Hweak _ Ht).
  change ("," +:+ ?x) with (String "," x). cbn [all_chars andb].
  exact IH.
Qed.

Lemma parse_tokens (ws : list written_param) :
  Forall (fun w => well_formed w = true) ws ->
  omap parse_part (map token ws) = map param_of ws.
Proof.
  induction 1 as [|x l Hx _ IH]; [reflexivity|].
  cbn [map omap list_omap]. rewrite (parse_part_token _ Hx).
  f_equal. exact IH.
Qed.

Lemma parse_rendered (ws : list written_param) :
  forallb well_formed ws = true ->
  _parse_parameters (render ws) = map param_of ws.
Proof.
  intros Hws. destruct ws as [|w ws]; [reflexivity|].
  assert (Hall : Forall (fun w => well_formed w = true) (w :: ws)).
  { apply List.Forall_forall. exact (proj1 (forallb_forall _ _) Hws). }
  assert (Hplain : Forall (fun t => all_chars plain_char t = true)
                     (map token (w :: ws))).
  { clear Hws. induction Hall; constructor; auto using token_plain. }
  pose proof (join_plain _ Hplain) as Hjoin. fold (render (w :: ws)) in Hjoin.
  assert (Hstar : strip_char "*" (render (w :: ws)) = render (w :: ws)).
  { apply strip_by_clean. revert Hjoin. apply all_chars_impl.
    now intros c [_ H]%andb_true_iff. }
  assert (Hspace : strip (render (w :: ws)) = render (w :: ws)).
  { apply strip_by_clean. revert Hjoin. apply all_chars_impl.
    now intros c [H _]%andb_true_iff. }
  assert (Hhead : exists r, render (w :: ws) = String "$" r).
  { unfold render. cbn [map]. destruct (map token ws); cbn [join];
      unfold token; eexists; reflexivity. }
  destruct Hhead as [r Hr].
  assert (Hguard : negb (nonempty (render (w :: ws)))
                   || isspace (render (w :: ws)) = false)
    by now rewrite Hr.
  assert (Hstart : negb (startswith (render (w :: ws)) "$") = false)
    by now rewrite Hr.
  unfold _parse_parameters. rewrite Hstar, Hspace, Hguard, Hstart.
  unfold render. cbn [map].
  rewrite (split_join "," (token w) (map token ws)).
  - change (token w :: map token ws) with (map token (w :: ws)).
    now apply parse_tokens.
  - eapply Forall_impl; [exact Hplain|]. intros t Ht. cbn beta in Ht.
    revert Ht. apply all_chars_none, plain_not_comma.
Qed.

Lemma parse_parameters_default_iff (s : string) :
  Forall (fun p => Param.default p = None <-> Param.required p = true)
    (_parse_parameters s).
Proof.
  unfold _parse_parameters.
  destruct (negb (nonempty s) || isspace s); [constructor|].
  destruct (negb (startswith _ "$")); [constructor|].
  induction (split "," (strip (strip_char "*" s))) as [|t toks IH];
    [constructor|].
  cbn [omap list_omap]. destruct (parse_part t) as [p|] eqn:Hp; [|exact IH].
  constructor; [|exact IH]. now apply (parse_part_default_iff t).
Qed.

Lemma parse_parameters_guard (s : string) :
  nonempty s = false \/ isspace s = true
  \/ startswith (strip (strip_char "*" s)) "$" = false ->
  _parse_parameters s = [].
Proof.
  unfold _parse_parameters. intros [H|[H|H]]; rewrite H; cbn [negb orb].
  - reflexivity.
  - now rewrite orb_true_r.
  - now destruct (negb (nonempty s) || isspace s).
Qed.

Lemma split_first_inv sep (s : string) :
  contains sep s = true ->
  s = fst (split_first sep s) +:+ String sep (snd (split_first sep s))
  /\ contains sep (fst (split_first sep s)) = false.
Proof.
  unfold contains. induction s as [|c r IH]; cbn [any_char split_first];
    [discriminate|].
  rewrite (Ascii.eqb_sym sep c).
  destruct (Ascii.eqb c sep) eqn:Hc.
  - intros _. apply Ascii.eqb_eq in Hc as ->. cbn [fst snd].
    now rewrite app_nil_l.
  - cbn [orb]. intros Hr. destruct (IH Hr) as [Heq Hclean].
    destruct (split_first sep r) as [a b]. cbn [fst snd] in *.
    rewrite app_cons, <- Heq. cbn [any_char].
    now rewrite (Ascii.eqb_sym sep c), Hc, Hclean.
Qed.

(** The loop body reads a token as the grammar says. *)
Lemma parse_part_reads (part : string) : reads part (parse_part part).
Proof.
  unfold parse_part.
  destruct (nonempty (lstrip "$" (strip part))) eqn:Hne; cbn [negb].
  2:{ apply reads_nothing. now destruct (lstrip "$" (strip part)). }
  destruct (contains "=" (lstrip "$" (strip part))) eqn:Heq.
  - destruct (split_first_inv "=" _ Heq) as [Hsplit Hclean].
    destruct (split_first "=" (lstrip "$" (strip part))) as [name default].
    cbn [fst snd] in *. now apply reads_optional.
  - apply reads_required; [|assumption]. now apply nonempty_true.
Qed.

Lemma reads_functional (part : string) (r r' : option Param.t) :
  reads part r -> reads part r' -> r = r'.
Proof.
  assert (Hmixed : forall before after,
            lstrip "$" (strip part) = before +:+ "=" +:+ after ->
            contains "=" (lstrip "$" (strip part)) = true).
  { intros before after ->. unfold contains. rewrite any_char_app.
    change (any_char (Ascii.eqb "=") ("=" +:+ after)) with true.
    apply orb_true_r. }
  intros H H'.
  destruct H as [part He|part before after Hs Hb|part Hne Hno];
    inversion H' as [? He'|? before' after' Hs' Hb'|? Hne' Hno']; subst;
    try reflexivity; try congruence.
  - rewrite He in Hs'. now destruct before'.
  - rewrite He' in Hs. now destruct before.
  - rewrite Hs in Hs'.
    pose proof (split_first_app "=" before after Hb) as E.
    pose proof (split_first_app "=" before' after' Hb') as E'.
    change (String "=" ?x) with ("=" +:+ x) in E, E'.
    rewrite Hs' in E. congruence.
  - rewrite (Hmixed _ _ Hs) in Hno'. discriminate.
  - rewrite (Hmixed _ _ Hs') in Hno. discriminate.
Qed.

Lemma omap_parse_part (tokens : list string) :
  omap parse_part tokens = omap id (map parse_part tokens).
Proof.
  induction tokens as [|t tokens IH]; [reflexivity|].
  cbn [omap list_omap map]. unfold id at 1.
  now destruct (parse_part t); rewrite IH.
Qed.

Lemma parse_parameters_tokens (s : string) :
  nonempty s = true -> isspace s = false ->
  startswith (strip (strip_char "*" s)) "$" = true ->
  exists results,
    Forall2 reads (split "," (strip (strip_char "*" s))) results
    /\ _parse_parameters s = omap id results.
Proof.
  intros Hne Hspace Hstart.
  exists (map parse_part (split "," (strip (strip_char "*" s)))). split.
  - induction (split "," (strip (strip_char "*" s))) as [|t tokens IH];
      constructor; [apply parse_part_reads | exact IH].
  - unfold _parse_parameters. rewrite Hne, Hspace, Hstart. cbn [negb orb].
    apply omap_parse_part.
Qed.

(** C9 (amended): [_parse_parameters] first removes surrounding
    asterisks and whitespace.  An empty or whitespace-only string, or a
    string that then does not start with the sigil, gives no parameter.
    Every other string is split at its commas, and the result is what its
    tokens give, in order, a token that gives nothing being skipped.  A
    token is trimmed of whitespace and leading sigils; an empty token
    gives nothing; a token with an equals sign gives a non-required
    parameter whose name is the text before the first equals sign and
    whose default is the text after it, both trimmed of whitespace only;
    a token without one gives a required parameter without default; this
    determines what a token gives.  A canonically written list
    [$n1,$n2=d2,...] parses back into its parameters, in order.  Every
    parameter produced has a default exactly when it is not required. *)
Theorem C9_parse_parameters_grammar :
  (forall s,
      nonempty s = false \/ isspace s = true
      \/ startswith (strip (strip_char "*" s)) "$" = false ->
      _parse_parameters s = [])
  /\ (forall s,
        nonempty s = true -> isspace s = false ->
        startswith (strip (strip_char "*" s)) "$" = true ->
        exists results,
          Forall2 reads (split "," (strip (strip_char "*" s))) results
          /\ _parse_parameters s = omap id results)
  /\ (forall part r r', reads part r -> reads part r' -> r = r')
  /\ (forall part before after,
        lstrip "$" (strip part) = before +:+ "=" +:+ after ->
        contains "=" before = false ->
        parse_part part
        = Some (Param.mk (strip before) false (Some (strip after))))
  /\ (forall part,
        lstrip "$" (strip part) <> "" ->
        contains "=" (lstrip "$" (strip part)) = false ->
        parse_part part
        = Some (Param.mk (strip (lstrip "$" (strip part))) true None))
  /\ (forall part, lstrip "$" (strip part) = "" -> parse_part part = None)
  /\ (forall ws,
        forallb well_formed ws = true ->
        _parse_parameters (render ws) = map param_of ws)
  /\ (forall s,
        Forall (fun p => Param.default p = None <-> Param.required p = true)
          (_parse_parameters s)).
Proof.
  split; [exact parse_parameters_guard|].
  split; [exact parse_parameters_tokens|].
  split; [exact reads_functional|].
  split; [exact parse_part_optional|].
  split; [exact parse_part_required|].
  split; [exact parse_part_empty|].
  split; [exact parse_rendered | exact parse_parameters_default_iff].
Qed.

(** A string without sigil; the list [$uuid, $enabled=null] with a space
    after its comma; the tokens [ $b = 1 ], [$a ] and [ $ ]; and the list
    [$uuid,$enabled=null]. *)
Lemma C9_parse_parameters_witness :
  _parse_parameters "uuid" = []
  /\ (exists results,
         Forall2 reads
           (split "," (strip (strip_char "*" "$uuid, $enabled=null")))
           results
         /\ _parse_parameters "$uuid, $enabled=null" = omap id results)
  /\ parse_part " $b = 1 " = Some (Param.mk (strip "b ") false (Some (strip " 1")))
  /\ parse_part "$a "
     = Some (Param.mk (strip (lstrip "$" (strip "$a "))) true None)
  /\ parse_part " $ " = None
  /\ _parse_parameters (render [("uuid", None); ("enabled", Some "null")])
     = map param_of [("uuid", None); ("enabled", Some "null")].
Proof.
  destruct C9_parse_parameters_grammar
    as (Hguard & Htokens & _ & Hoptional & Hrequired & Hempty & Hrendered
        & _).
  split; [apply Hguard; right; right; reflexivity|].
  split; [apply Htokens; reflexivity|].
  split; [apply Hoptional; reflexivity|].
  split; [apply Hrequired; [discriminate | reflexivity]|].
  split; [apply Hempty; reflexivity|].
  apply Hrendered. reflexivity.
Defined.

(** C9 as stated fails on markdown emphasis and on a sigil inside a
    default: [*$uuid] does not start with the sigil and still gives the
    parameter [uuid]; the default of [$a=$b] keeps its sigil. *)
Lemma C9_emphasis_counterexample :
  startswith "*$uuid" "$" = false
  /\ _parse_parameters "*$uuid" = [Param.mk "uuid" true None]
  /\ _parse_parameters "$a=$b" = [Param.mk "a" false (Some "$b")].
Proof. vm_compute. repeat split. Qed.

End ParamFacts.

(** * Further properties of the generator *)

(** ** Case and underscores *)

Section RecaseFacts.

Lemma to_lower_to_upper (c : ascii) : to_lower (to_upper c) = to_lower c.
Proof. destruct c as [[] [] [] [] [] [] [] []]; reflexivity. Qed.

Lemma to_lower_idempotent (c : ascii) : to_lower (to_lower c) = to_lower c.
Proof. destruct c as [[] [] [] [] [] [] [] []]; reflexivity. Qed.

Lemma to_lower_not_upper (c : ascii) : is_upper_char (to_lower c) = false.
Proof. destruct c as [[] [] [] [] [] [] [] []]; reflexivity. Qed.

Lemma to_lower_underscore (c : ascii) :
  Ascii.eqb (to_lower c) "_" = Ascii.eqb c "_".
Proof. destruct c as [[] [] [] [] [] [] [] []]; reflexivity. Qed.

Lemma to_upper_underscore (c : ascii) :
  Ascii.eqb (to_upper c) "_" = Ascii.eqb c "_".
Proof. destruct c as [[] [] [] [] [] [] [] []]; reflexivity. Qed.

Lemma to_lower_hyphen (c : ascii) :
  Ascii.eqb (to_lower c) "-" = Ascii.eqb c "-".
Proof. destruct c as [[] [] [] [] [] [] [] []]; reflexivity. Qed.

Lemma str_app_assoc (a b c : string) : (a +:+ b) +:+ c = a +:+ b +:+ c.
Proof.
  induction a as [|x a IH]; [reflexivity|]. now rewrite !app_cons, IH.
Qed.

Lemma map_chars_app f (a b : string) :
  map_chars f (a +:+ b) = map_chars f a +:+ map_chars f b.
Proof.
  induction a as [|x a IH]; [reflexivity|].
  rewrite app_cons. cbn [map_chars]. now rewrite IH.
Qed.

Lemma lower_app (a b : string) : lower (a +:+ b) = lower a +:+ lower b.
Proof. apply map_chars_app. Qed.

Lemma lower_upper (s : string) : lower (upper s) = lower s.
Proof.
  unfold lower, upper. induction s as [|c r IH]; [reflexivity|].
  cbn [map_chars]. now rewrite to_lower_to_upper, IH.
Qed.

Lemma lower_idempotent (s : string) : lower (lower s) = lower s.
Proof.
  unfold lower. induction s as [|c r IH]; [reflexivity|].
  cbn [map_chars]. now rewrite to_lower_idempotent, IH.
Qed.

Lemma lower_no_upper (s : string) : any_char is_upper_char (lower s) = false.
Proof.
  unfold lower. induction s as [|c r IH]; [reflexivity|].
  cbn [map_chars any_char]. now rewrite to_lower_not_upper, IH.
Qed.

Lemma contains_lower (s : string) : contains "_" (lower s) = contains "_" s.
Proof.
  unfold contains, lower. induction s as [|c r IH]; [reflexivity|].
  cbn [map_chars any_char].
  now rewrite IH, (Ascii.eqb_sym "_"), to_lower_underscore, (Ascii.eqb_sym c).
Qed.

Lemma contains_upper (s : string) : contains "_" (upper s) = contains "_" s.
Proof.
  unfold contains, upper. induction s as [|c r IH]; [reflexivity|].
  cbn [map_chars any_char].
  now rewrite IH, (Ascii.eqb_sym "_"), to_upper_underscore, (Ascii.eqb_sym c).
Qed.

Lemma replace_app c new (a b : string) :
  replace c new (a +:+ b) = replace c new a +:+ replace c new b.
Proof.
  induction a as [|x a IH]; [reflexivity|].
  rewrite app_cons. cbn [replace].
  destruct (Ascii.eqb x c); rewrite IH; [now rewrite str_app_assoc|].
  now rewrite app_cons.
Qed.

(** Removing underscores commutes with lower-casing. *)
Lemma remove_underscores_lower (s : string) :
  replace "_" "" (lower s) = lower (replace "_" "" s).
Proof.
  unfold lower. induction s as [|c r IH]; [reflexivity|].
  cbn [map_chars replace]. rewrite to_lower_underscore.
  destruct (Ascii.eqb c "_"); rewrite ?app_nil_l; cbn [map_chars];
    now rewrite IH.
Qed.

Lemma removed_has_none c (s : string) : contains c (replace c "" s) = false.
Proof.
  unfold contains. induction s as [|d r IH]; [reflexivity|].
  cbn [replace]. destruct (Ascii.eqb d c) eqn:Hd.
  - now rewrite app_nil_l.
  - cbn [any_char]. now rewrite Ascii.eqb_sym, Hd, IH.
Qed.

Lemma remove_absent c (s : string) :
  contains c s = false -> replace c "" s = s.
Proof.
  unfold contains. induction s as [|d r IH]; [reflexivity|].
  cbn [any_char replace]. intros [Hd Hr]%orb_false_iff.
  now rewrite Ascii.eqb_sym, Hd, IH.
Qed.

Lemma join_empty_cons (p : string) (rest : list string) :
  join "" (p :: rest) = p +:+ join "" rest.
Proof.
  destruct rest; cbn [join]; [now rewrite app_empty_r | now rewrite app_nil_l].
Qed.

Lemma split_nonempty sep (s : string) : split sep s <> [].
Proof.
  destruct s as [|c r]; cbn [split]; [discriminate|].
  destruct (Ascii.eqb c sep); [discriminate|].
  destruct (split sep r); discriminate.
Qed.

(** Joining the pieces of a split gives the text without the separator. *)
Lemma join_split sep (s : string) : join "" (split sep s) = replace sep "" s.
Proof.
  induction s as [|c r IH]; [reflexivity|]. cbn [split replace].
  destruct (Ascii.eqb c sep).
  - now rewrite join_empty_cons, IH.
  - destruct (split sep r) as [|h t] eqn:Hs; [now apply split_nonempty in Hs|].
    rewrite join_empty_cons, app_cons. rewrite join_empty_cons in IH.
    now rewrite IH.
Qed.

Lemma remove_after_lstrip c (s : string) :
  replace c "" (lstrip c s) = replace c "" s.
Proof.
  unfold lstrip. induction s as [|d r IH]; [reflexivity|].
  cbn [lstrip_by replace]. rewrite (Ascii.eqb_sym c d).
  destruct (Ascii.eqb d c) eqn:Hd; [now rewrite IH, app_nil_l|].
  cbn [replace]. now rewrite Hd.
Qed.

(** *** Grouping keeps the characters *)

Lemma group_cons (p : string) (rest : list string) :
  _group_single_chars (p :: rest)
  = if is_single p then collect_run (upper p) rest
    else p :: _group_single_chars rest.
Proof. reflexivity. Qed.

Lemma group_and_run_content (parts : list string) :
  lower (join "" (_group_single_chars parts)) = lower (join "" parts)
  /\ (forall acronym,
        lower (join "" (collect_run acronym parts))
        = lower acronym +:+ lower (join "" parts)).
Proof.
  induction parts as [|p rest [IHg IHr]].
  - split; [reflexivity|]. intros acronym. cbn [collect_run join].
    now rewrite app_empty_r.
  - split.
    + rewrite group_cons, (join_empty_cons p rest), lower_app.
      destruct (is_single p).
      * now rewrite IHr, lower_upper.
      * now rewrite join_empty_cons, lower_app, IHg.
    + intros acronym. cbn [collect_run].
      rewrite (join_empty_cons p rest), lower_app.
      destruct (is_single p).
      * now rewrite IHr, lower_app, lower_upper, str_app_assoc.
      * now rewrite !join_empty_cons, !lower_app, IHg.
Qed.

Lemma group_and_run_length (parts : list string) :
  length (_group_single_chars parts) <= length parts
  /\ (forall acronym, length (collect_run acronym parts) <= S (length parts)).
Proof.
  induction parts as [|p rest [IHg IHr]]; [cbn; split; [lia | intros; lia]|].
  split.
  - rewrite group_cons. destruct (is_single p); cbn [length].
    + apply IHr.
    + lia.
  - intros acronym. cbn [collect_run]. destruct (is_single p); cbn [length].
    + specialize (IHr (acronym +:+ upper p)). lia.
    + lia.
Qed.

(** *** Re-casing keeps the letters *)

Lemma capitalize_first_lower (w r : string) :
  capitalize_first w = Some r -> lower r = lower w.
Proof.
  destruct w as [|c w]; [discriminate|].
  rewrite capitalize_first_cons. intros [= <-].
  unfold lower. cbn [map_chars]. now rewrite to_lower_to_upper.
Qed.

Lemma pascal_loop_content (grouped : list string) :
  exists res,
    pascal_loop grouped = Some res
    /\ lower (join "" res) = lower (join "" grouped)
    /\ Forall (fun w => exists c r, w = String (to_upper c) r) res.
Proof.
  induction grouped as [|w rest (res & Hres & Hlow & Hhead)].
  - exists []. repeat split. constructor.
  - destruct w as [|c r]; cbn [pascal_loop nonempty negb].
    + exists res. rewrite join_empty_cons, app_nil_l. auto.
    + rewrite pascal_word_cons, Hres. cbn [mbind option_bind].
      exists (String (to_upper c) r :: res). split; [reflexivity|]. split.
      * rewrite !join_empty_cons, !lower_app, Hlow. f_equal.
        unfold lower. cbn [map_chars]. now rewrite to_lower_to_upper.
      * constructor; eauto.
Qed.

Lemma camel_loop_content (grouped : list string) (i : nat) :
  exists res,
    camel_loop i grouped = Some res
    /\ lower (join "" res) = lower (join "" grouped).
Proof.
  revert i. induction grouped as [|w rest IH]; intros i.
  - exists []. now split.
  - destruct (IH (S i)) as (res & Hres & Hlow).
    destruct w as [|c r]; cbn [camel_loop nonempty negb].
    + exists res. rewrite join_empty_cons, app_nil_l. auto.
    + assert (Hpiece : exists piece,
                 camel_word i (String c r) = Some piece
                 /\ lower piece = lower (String c r)).
      { destruct i.
        - rewrite camel_word_first. eexists. split; [reflexivity|].
          apply lower_idempotent.
        - rewrite camel_word_cons. eexists. split; [reflexivity|].
          unfold lower. cbn [map_chars]. now rewrite to_lower_to_upper. }
      destruct Hpiece as (piece & -> & Hpiece). rewrite Hres.
      cbn [mbind option_bind].
      exists (piece :: res). split; [reflexivity|].
      now rewrite !join_empty_cons, !lower_app, Hlow, Hpiece.
Qed.

Lemma grouped_content (s : string) :
  lower (join "" (_group_single_chars (split "_" (lstrip "_" s))))
  = _normalize s.
Proof.
  rewrite (proj1 (group_and_run_content _)), join_split, remove_after_lstrip.
  unfold _normalize. now rewrite remove_underscores_lower.
Qed.

Lemma normalize_without_underscore (s : string) :
  contains "_" s = false -> _normalize s = lower s.
Proof.
  intros H. unfold _normalize. apply remove_absent. now rewrite contains_lower.
Qed.

Lemma snake_to_pascal_content (s r : string) :
  snake_to_pascal s = Some r -> lower r = _normalize s.
Proof.
  unfold snake_to_pascal. destruct (contains "_" s) eqn:Hc; cbn [negb].
  - destruct (pascal_loop_content
                (_group_single_chars (split "_" (lstrip "_" s))))
      as (res & -> & Hlow & _).
    cbn. intros [= <-]. now rewrite Hlow, grouped_content.
  - rewrite (normalize_without_underscore _ Hc).
    destruct (nonempty s); [apply capitalize_first_lower | now intros [= <-]].
Qed.

Lemma snake_to_camel_content (s r : string) :
  snake_to_camel s = Some r -> lower r = _normalize s.
Proof.
  unfold snake_to_camel. destruct (contains "_" s) eqn:Hc; cbn [negb].
  - cbv zeta.
    destruct (split "_" (lstrip "_" s)) as [|p parts] eqn:Hs;
      [now apply split_nonempty in Hs|].
    destruct (camel_loop_content (_group_single_chars (p :: parts)) 0)
      as (res & -> & Hlow).
    cbn. intros [= <-]. now rewrite Hlow, <- Hs, grouped_content.
  - intros [= <-]. now rewrite (normalize_without_underscore _ Hc).
Qed.

Lemma normalize_no_underscore (s : string) : contains "_" (_normalize s) = false.
Proof. apply removed_has_none. Qed.

Lemma lower_eq_no_underscore (r s : string) :
  lower r = _normalize s -> contains "_" r = false.
Proof.
  intros H. now rewrite <- contains_lower, H, normalize_no_underscore.
Qed.

(** X1: for every ASCII string, [snake_to_pascal] and [snake_to_camel]
    return the input without its underscores, up to the case of the
    letters: lower-casing the result gives the lower-cased input with the
    underscores removed.  For every string, ASCII or not, the result
    contains no underscore. *)
Theorem recase_keeps_letters (s : string) :
  (isascii s = true ->
   lower <$> snake_to_pascal s = Some (replace "_" "" (lower s))
   /\ lower <$> snake_to_camel s = Some (replace "_" "" (lower s)))
  /\ contains "_" <$> snake_to_pascal s = Some false
  /\ contains "_" <$> snake_to_camel s = Some false.
Proof.
  destruct (snake_to_pascal_total s) as [p Hp].
  destruct (snake_to_camel_total s) as [c Hc].
  pose proof (snake_to_pascal_content _ _ Hp) as Hpl.
  pose proof (snake_to_camel_content _ _ Hc) as Hcl.
  rewrite Hp, Hc. cbn.
  rewrite Hpl, Hcl, (lower_eq_no_underscore _ _ Hpl),
    (lower_eq_no_underscore _ _ Hcl).
  repeat split.
Qed.

Lemma recase_keeps_letters_witness :
  lower <$> snake_to_pascal "get_alias_u_u_i_d"
  = Some (replace "_" "" (lower "get_alias_u_u_i_d"))
  /\ lower <$> snake_to_camel "get_alias_u_u_i_d"
     = Some (replace "_" "" (lower "get_alias_u_u_i_d")).
Proof.
  apply (proj1 (recase_keeps_letters "get_alias_u_u_i_d")). reflexivity.
Defined.

Lemma snake_to_pascal_head (s r : string) :
  snake_to_pascal s = Some r ->
  r = "" \/ exists c r', r = String (to_upper c) r'.
Proof.
  unfold snake_to_pascal. destruct (contains "_" s); cbn [negb].
  - destruct (pascal_loop_content
                (_group_single_chars (split "_" (lstrip "_" s))))
      as (res & -> & _ & Hhead).
    cbn. intros [= <-].
    destruct Hhead as [|w res (c & r' & ->) _]; [now left|].
    right. rewrite join_empty_cons, app_cons. eauto.
  - destruct s as [|c s]; cbn [nonempty]; [intros [= <-]; now left|].
    rewrite capitalize_first_cons. intros [= <-]. eauto.
Qed.

Lemma to_upper_idempotent (c : ascii) : to_upper (to_upper c) = to_upper c.
Proof. apply to_upper_fixed, to_upper_not_lower. Qed.

(** X2: a second application changes nothing: [snake_to_pascal] returns
    its own results unchanged, and so does [snake_to_camel]. *)
Theorem recase_idempotent (s : string) :
  snake_to_pascal s ≫= snake_to_pascal = snake_to_pascal s
  /\ snake_to_camel s ≫= snake_to_camel = snake_to_camel s.
Proof.
  split.
  - destruct (snake_to_pascal_total s) as [r Hr]. rewrite Hr. cbn.
    pose proof (lower_eq_no_underscore _ _ (snake_to_pascal_content _ _ Hr))
      as Hnone.
    unfold snake_to_pascal at 1. rewrite Hnone. cbn [negb].
    destruct (snake_to_pascal_head _ _ Hr) as [->|(c & r' & ->)];
      [reflexivity|].
    cbn [nonempty]. now rewrite capitalize_first_cons, to_upper_idempotent.
  - destruct (snake_to_camel_total s) as [r Hr]. rewrite Hr. cbn.
    pose proof (lower_eq_no_underscore _ _ (snake_to_camel_content _ _ Hr))
      as Hnone.
    unfold snake_to_camel at 1. now rewrite Hnone.
Qed.

(** X3: grouping single-character parts never yields more parts than it
    was given, and for ASCII parts the concatenation of the parts is the
    same before and after, up to the case of the letters. *)
Theorem grouping_keeps_content (parts : list string) :
  length (_group_single_chars parts) <= length parts
  /\ (forallb isascii parts = true ->
      lower (join "" (_group_single_chars parts)) = lower (join "" parts)).
Proof.
  split.
  - apply group_and_run_length.
  - intros _. apply group_and_run_content.
Qed.

Lemma grouping_keeps_content_witness :
  lower (join "" (_group_single_chars ["get"; "u"; "u"; "i"; "d"]))
  = lower (join "" ["get"; "u"; "u"; "i"; "d"]).
Proof.
  apply (proj2 (grouping_keeps_content ["get"; "u"; "u"; "i"; "d"])).
  reflexivity.
Defined.

(** *** Field and item names *)

Lemma hyphens_replaced (s : string) : contains "-" (replace "-" "_" s) = false.
Proof.
  unfold contains. induction s as [|c r IH]; [reflexivity|].
  cbn [replace]. destruct (Ascii.eqb c "-") eqn:Hc.
  - change ("_" +:+ ?x) with (String "_" x). cbn [any_char]. exact IH.
  - cbn [any_char]. now rewrite Ascii.eqb_sym, Hc, IH.
Qed.

Lemma contains_hyphen_lower (s : string) :
  contains "-" (lower s) = contains "-" s.
Proof.
  unfold contains, lower. induction s as [|c r IH]; [reflexivity|].
  cbn [map_chars any_char].
  now rewrite IH, (Ascii.eqb_sym "-"), to_lower_hyphen, (Ascii.eqb_sym c).
Qed.

Lemma removal_adds_no_hyphen (s : string) :
  contains "-" s = false -> contains "-" (replace "_" "" s) = false.
Proof.
  unfold contains. induction s as [|c r IH]; [reflexivity|].
  cbn [any_char replace]. intros [Hc Hr]%orb_false_iff.
  destruct (Ascii.eqb c "_"); [now rewrite app_nil_l; apply IH|].
  cbn [any_char]. now rewrite Hc, IH.
Qed.

Lemma field_to_go_name_pascal (name : string) :
  field_to_go_name name = snake_to_pascal (replace "-" "_" name).
Proof.
  unfold field_to_go_name, snake_to_pascal. cbv zeta.
  now destruct (contains "_" (replace "-" "_" name)).
Qed.

(** X4: [field_to_go_name] and [_item_go_name] return on every name (no
    index is out of range) and give the same identifier, which contains
    neither a hyphen nor an underscore; for an ASCII name that identifier
    is the name without its hyphens and underscores, up to the case of
    the letters. *)
Theorem field_names_drop_separators (name : string) :
  _item_go_name name = field_to_go_name name
  /\ exists ident,
       field_to_go_name name = Some ident
       /\ (isascii name = true ->
           lower ident = replace "_" "" (lower (replace "-" "_" name)))
       /\ contains "_" ident = false
       /\ contains "-" ident = false.
Proof.
  split; [reflexivity|].
  rewrite field_to_go_name_pascal.
  destruct (snake_to_pascal_total (replace "-" "_" name)) as [ident Hident].
  exists ident. split; [exact Hident|].
  pose proof (snake_to_pascal_content _ _ Hident) as Hlow.
  split; [intros _; exact Hlow|].
  split; [exact (lower_eq_no_underscore _ _ Hlow)|].
  rewrite <- contains_hyphen_lower, Hlow. unfold _normalize.
  apply removal_adds_no_hyphen.
  rewrite contains_hyphen_lower. apply hyphens_replaced.
Qed.

Lemma field_names_drop_separators_witness :
  exists ident,
    field_to_go_name "source-net_u_r_l" = Some ident
    /\ lower ident
       = replace "_" "" (lower (replace "-" "_" "source-net_u_r_l")).
Proof.
  destruct (proj2 (field_names_drop_separators "source-net_u_r_l"))
    as (ident & Hident & Hlow & _).
  exists ident. split; [exact Hident|]. apply Hlow. reflexivity.
Defined.

End RecaseFacts.

(** ** Resolver: further properties *)

Section ResolverMoreFacts.

Lemma parse_crud_from_sound (prefixes : list string) (command : string) :
  parse_crud_from prefixes command = ("", "")
  \/ exists prefix,
       In prefix prefixes
       /\ parse_crud_from prefixes command
          = (rstrip "_" prefix, drop (String.length prefix) command)
       /\ drop (String.length prefix) command <> ""
       /\ command = prefix +:+ drop (String.length prefix) command.
Proof.
  induction prefixes as [|prefix more IH]; [now left|].
  cbn [parse_crud_from].
  assert (Hmore : parse_crud_from more command = ("", "")
                  \/ exists p,
                       In p (prefix :: more)
                       /\ parse_crud_from more command
                          = (rstrip "_" p, drop (String.length p) command)
                       /\ drop (String.length p) command <> ""
                       /\ command = p +:+ drop (String.length p) command).
  { destruct IH as [IH|(p & Hin & IH)]; [now left|].
    right. exists p. split; [now right | exact IH]. }
  destruct (startswith command prefix) eqn:Hstart; [|exact Hmore].
  destruct (nonempty (drop (String.length prefix) command)) eqn:Hne;
    [|exact Hmore].
  right. exists prefix. split; [now left|]. split; [reflexivity|].
  split; [now apply nonempty_true | now apply startswith_inv].
Qed.

(** X5: whatever the command, [_parse_crud] returns either the empty
    pair, or one of the six verbs together with a non-empty suffix such
    that the command is the verb, an underscore and the suffix. *)
Theorem parse_crud_sound (command : string) :
  _parse_crud command = ("", "")
  \/ exists verb suffix,
       _parse_crud command = (verb, suffix)
       /\ In (verb +:+ "_") _CRUD_PREFIXES
       /\ verb <> "" /\ suffix <> ""
       /\ command = verb +:+ "_" +:+ suffix.
Proof.
  unfold _parse_crud.
  destruct (parse_crud_from_sound _CRUD_PREFIXES command)
    as [H|(prefix & Hin & Hparse & Hne & Hcmd)]; [now left|].
  right. exists (rstrip "_" prefix), (drop (String.length prefix) command).
  split; [exact Hparse|].
  assert (Hprefix : rstrip "_" prefix +:+ "_" = prefix
                    /\ rstrip "_" prefix <> "").
  { unfold _CRUD_PREFIXES in Hin. cbn [In] in Hin.
    repeat (destruct Hin as [<-|Hin]; [split; [reflexivity|discriminate]|]).
    contradiction. }
  destruct Hprefix as [Hp Hv].
  rewrite <- str_app_assoc, Hp. auto.
Qed.

Lemma normalize_lower (s : string) : _normalize (lower s) = _normalize s.
Proof. unfold _normalize. now rewrite lower_idempotent. Qed.

Lemma normalize_upper (s : string) : _normalize (upper s) = _normalize s.
Proof. unfold _normalize. now rewrite lower_upper. Qed.

Lemma match_item_by_case (s t controller module_name : string)
    (items : list ModelItem.t) :
  lower t = lower s -> contains "_" t = contains "_" s ->
  _match_item t controller items module_name
  = _match_item s controller items module_name.
Proof.
  intros Hlow Hund.
  assert (Hnorm : _normalize t = _normalize s)
    by (unfold _normalize; now rewrite Hlow).
  unfold _match_item, by_override, by_name, by_container, by_normalized,
    by_plural, by_ing, by_endswith, by_item_stripped, by_compound,
    by_startswith.
  now rewrite Hlow, Hund, Hnorm.
Qed.

(** X6: matching ignores the case of an ASCII suffix: the suffix, its
    lower case and its upper case select the same item. *)
Theorem match_item_ignores_suffix_case
    (suffix controller module_name : string) (items : list ModelItem.t) :
  isascii suffix = true ->
  _match_item (lower suffix) controller items module_name
  = _match_item suffix controller items module_name
  /\ _match_item (upper suffix) controller items module_name
     = _match_item suffix controller items module_name.
Proof.
  intros _. split; apply match_item_by_case.
  - apply lower_idempotent.
  - apply contains_lower.
  - apply lower_upper.
  - apply contains_upper.
Qed.

Lemma match_item_ignores_suffix_case_witness :
  _match_item (lower "Alias") "alias" [rule_item; alias_item] "firewall"
  = _match_item "Alias" "alias" [rule_item; alias_item] "firewall"
  /\ _match_item (upper "Alias") "alias" [rule_item; alias_item] "firewall"
     = _match_item "Alias" "alias" [rule_item; alias_item] "firewall".
Proof.
  apply (match_item_ignores_suffix_case "Alias" "alias" "firewall"
           [rule_item; alias_item]).
  reflexivity.
Defined.

(** X7: [_match_item] never invents an item: what it returns is an
    element of the list it was given, and on the empty list it returns
    None, whatever the suffix, controller and module. *)
Theorem match_item_returns_listed_item :
  (forall suffix controller module_name items item,
      _match_item suffix controller items module_name = Some item ->
      In item items)
  /\ (forall suffix controller module_name,
        _match_item suffix controller [] module_name = None).
Proof.
  split.
  - intros suffix controller module_name items item H.
    now apply (picks_match_item _ _ _ _ _ H).
  - intros suffix controller module_name.
    destruct (_match_item suffix controller [] module_name) as [x|] eqn:Hx;
      [|reflexivity].
    now apply picks_match_item in Hx.
Qed.

Lemma match_item_returns_listed_item_witness :
  In alias_item [rule_item; alias_item].
Proof.
  apply (proj1 match_item_returns_listed_item "alias" "somectrl" ""
           [rule_item; alias_item] alias_item).
  reflexivity.
Defined.

Lemma resolve_endpoint_idempotent module_name items ep :
  resolve_endpoint module_name items (resolve_endpoint module_name items ep)
  = resolve_endpoint module_name items ep.
Proof.
  unfold resolve_endpoint at 2.
  destruct (_parse_crud (Endpoint.command ep)) as [verb suffix] eqn:Hcrud.
  destruct (nonempty verb) eqn:Hverb; cbn [negb].
  - destruct (_match_item suffix (Endpoint.controller ep) items module_name)
      as [item|] eqn:Hmatch.
    + unfold resolve_endpoint, Endpoint.annotate.
      cbn [Endpoint.command Endpoint.controller].
      now rewrite Hcrud, Hverb, Hmatch.
    + unfold resolve_endpoint. now rewrite Hcrud, Hverb, Hmatch.
  - unfold resolve_endpoint. now rewrite Hcrud, Hverb.
Qed.

Lemma resolve_controller_idempotent module_name ctrl :
  resolve_controller module_name (resolve_controller module_name ctrl)
  = resolve_controller module_name ctrl.
Proof.
  unfold resolve_controller at 2.
  destruct (Controller.model ctrl) as [model|] eqn:Hmodel.
  - destruct (Model.items model) as [|it items] eqn:Hitems.
    + unfold resolve_controller. now rewrite Hmodel, Hitems.
    + unfold resolve_controller, Controller.with_endpoints.
      cbn [Controller.model Controller.endpoints Controller.name
           Controller.php_file Controller.base_class Controller.is_abstract
           Controller.model_url].
      rewrite Hmodel, Hitems. f_equal.
      rewrite List.map_map. apply List.map_ext.
      intros ep. apply resolve_endpoint_idempotent.
  - unfold resolve_controller. now rewrite Hmodel.
Qed.

(** X8: resolving twice is resolving once: a second run of
    [resolve_endpoints] over the resolved graph changes nothing. *)
Theorem resolve_endpoints_idempotent (modules : list ApiModule.t) :
  resolve_endpoints (resolve_endpoints modules) = resolve_endpoints modules.
Proof.
  unfold resolve_endpoints. rewrite List.map_map. apply List.map_ext.
  intros m. unfold resolve_module, ApiModule.with_controllers.
  cbn [ApiModule.name ApiModule.category ApiModule.controllers]. f_equal.
  rewrite List.map_map. apply List.map_ext.
  intros ctrl. apply resolve_controller_idempotent.
Qed.

(** X9: the resolver touches an endpoint only when its command is one of
    the six CRUD prefixes followed by a non-empty suffix, and then the
    verb it records is that prefix without its underscore; every other
    endpoint is returned as it was. *)
Theorem resolve_endpoint_only_crud (module_name : string)
    (items : list ModelItem.t) (ep : Endpoint.t) :
  resolve_endpoint module_name items ep = ep
  \/ exists prefix suffix,
       In prefix _CRUD_PREFIXES /\ suffix <> ""
       /\ Endpoint.command ep = prefix +:+ suffix
       /\ Endpoint.crud_verb (resolve_endpoint module_name items ep)
          = rstrip "_" prefix.
Proof.
  unfold resolve_endpoint, _parse_crud.
  destruct (parse_crud_from_sound _CRUD_PREFIXES (Endpoint.command ep))
    as [->|(prefix & Hin & -> & Hne & Hcmd)]; [now left|].
  destruct (nonempty (rstrip "_" prefix)); cbn [negb]; [|now left].
  destruct (_match_item _ _ _ _) as [item|]; [|now left].
  right. exists prefix, (drop (String.length prefix) (Endpoint.command ep)).
  auto.
Qed.

End ResolverMoreFacts.

(** ** De-duplication by key *)

Section KeepFirstFacts.

Lemma keep_first_sound {A} (key : A -> string) (l : list A) (seen : gset string) (x : A) :
  In x (keep_first key seen l) -> In x l /\ key x ∉ seen.
Proof.
  revert seen. induction l as [|y more IH]; intros seen; cbn [keep_first];
    [intros []|].
  case_bool_decide as Hy.
  - intros H. apply IH in H as [H Hx]. split; [now right | exact Hx].
  - intros [<-|H]; [split; [now left | exact Hy]|].
    apply IH in H as [H Hx]. split; [now right|].
    intros Hseen. apply Hx, elem_of_union. now right.
Qed.

Lemma keep_first_nodup {A} (key : A -> string) (l : list A) (seen : gset string) :
  List.NoDup (map key (keep_first key seen l)).
Proof.
  revert seen. induction l as [|y more IH]; intros seen; cbn [keep_first];
    [constructor|].
  case_bool_decide as Hy; [apply IH|].
  cbn [map]. constructor; [|apply IH].
  intros Hin. apply List.in_map_iff in Hin as (x & Hkey & Hin).
  apply keep_first_sound in Hin as [_ Hx].
  apply Hx, elem_of_union. left. now apply elem_of_singleton.
Qed.

Lemma keep_first_first {A} (key : A -> string) (l : list A) (seen : gset string) (e : A) :
  In e (keep_first key seen l)
  <-> (key e ∉ seen) /\ List.find (same_key key e) l = Some e.
Proof.
  revert seen. induction l as [|y more IH]; intros seen;
    cbn [keep_first List.find In]; [intuition congruence|].
  destruct (same_key key e y) eqn:Hsame; unfold same_key in Hsame.
  - apply String.eqb_eq in Hsame.
    case_bool_decide as Hy.
    + rewrite IH. split.
      * intros [Hfresh _]. now rewrite <- Hsame in Hfresh.
      * intros [Hfresh _]. now rewrite <- Hsame in Hfresh.
    + cbn [In]. rewrite IH. split.
      * intros [<-|[Hfresh _]]; [split; [exact Hy | reflexivity]|].
        exfalso. apply Hfresh, elem_of_union. left.
        now apply elem_of_singleton.
      * intros [_ Hye]. left. congruence.
  - apply String.eqb_neq in Hsame.
    case_bool_decide as Hy; [apply IH|].
    cbn [In]. rewrite IH. split.
    + intros [<-|[Hfresh Hfind]]; [congruence|].
      split; [|exact Hfind].
      intros Hseen. apply Hfresh, elem_of_union. now right.
    + intros [Hfresh Hfind]. right. split; [|exact Hfind].
      intros [Hk|Hseen]%elem_of_union; [|now apply Hfresh].
      apply elem_of_singleton in Hk. congruence.
Qed.

Lemma seen_after_cons (k : string) (ks : list string) (seen : gset string) :
  list_to_set (k :: ks) ∪ seen = list_to_set ks ∪ ({[k]} ∪ seen).
Proof.
  apply set_eq. intros z. cbn [list_to_set foldr].
  rewrite !elem_of_union. tauto.
Qed.

Lemma seen_absorbs (k : string) (ks : list string) (seen : gset string) :
  k ∈ seen -> list_to_set (k :: ks) ∪ seen = list_to_set ks ∪ seen.
Proof.
  intros Hk. apply set_eq. intros z. cbn [list_to_set foldr].
  rewrite !elem_of_union, elem_of_singleton. intuition congruence.
Qed.

Lemma keep_first_app {A} (key : A -> string) (a b : list A)
    (seen : gset string) :
  keep_first key seen (a ++ b)
  = keep_first key seen a
    ++ keep_first key (list_to_set (map key a) ∪ seen) b.
Proof.
  revert seen. induction a as [|x a IH]; intros seen; cbn [app keep_first map].
  - f_equal. cbn [list_to_set foldr]. now rewrite union_empty_l_L.
  - case_bool_decide as Hx.
    + now rewrite IH, (seen_absorbs _ _ _ Hx).
    + cbn [app]. now rewrite IH, seen_after_cons.
Qed.

(** Every key of the list is either already seen or kept. *)
Lemma keep_first_complete {A} (key : A -> string) (l : list A) (seen : gset string) (x : A) :
  In x l ->
  key x ∈ seen \/ In (key x) (map key (keep_first key seen l)).
Proof.
  revert seen. induction l as [|y more IH]; intros seen; [intros []|].
  cbn [keep_first]. intros [->|Hin].
  - case_bool_decide; [now left|]. right. now left.
  - case_bool_decide as Hy.
    + now apply IH.
    + destruct (IH ({[key y]} ∪ seen) Hin) as [H|H].
      * apply elem_of_union in H as [H|H]; [|now left].
        apply elem_of_singleton in H. right. left. congruence.
      * right. now right.
Qed.

End KeepFirstFacts.

(** ** Client emitter: items, types and wrappers *)

Section GoViewFacts.

Lemma collect_items_from_spec (l acc : list ModelItem.t) (seen : gset string) :
  GoViews.collect_items_from l (acc, seen)
  = (acc ++ keep_first ModelItem.go_name seen l,
     list_to_set (map ModelItem.go_name l) ∪ seen).
Proof.
  revert acc seen. induction l as [|x l IH]; intros acc seen;
    cbn [GoViews.collect_items_from keep_first map].
  - rewrite List.app_nil_r. cbn [list_to_set foldr].
    now rewrite union_empty_l_L.
  - case_bool_decide as Hnew; case_bool_decide as Hseen; try contradiction.
    + rewrite IH, <- List.app_assoc. now rewrite seen_after_cons.
    + now rewrite IH, (seen_absorbs _ _ _ Hseen).
Qed.

Lemma collect_items_from_controllers_spec (ctrls : list Controller.t)
    (acc : list ModelItem.t) (seen : gset string) :
  GoViews.collect_items_from_controllers ctrls (acc, seen)
  = (acc ++ keep_first ModelItem.go_name seen (model_items_of ctrls),
     list_to_set (map ModelItem.go_name (model_items_of ctrls)) ∪ seen).
Proof.
  revert acc seen. induction ctrls as [|ctrl more IH]; intros acc seen.
  - cbn. rewrite List.app_nil_r. now rewrite union_empty_l_L.
  - assert (Hstep :
      GoViews.collect_items_from_controllers (ctrl :: more) (acc, seen)
      = GoViews.collect_items_from_controllers more
          (GoViews.collect_items_from (Frame.items_of ctrl) (acc, seen))).
    { cbn [GoViews.collect_items_from_controllers]. unfold Frame.items_of.
      destruct (Controller.model ctrl) as [model|]; [|reflexivity].
      now destruct (Model.items model). }
    rewrite Hstep, collect_items_from_spec, IH.
    unfold model_items_of. cbn [flat_map].
    fold (model_items_of more).
    rewrite keep_first_app, List.app_assoc. f_equal.
    rewrite List.map_app, list_to_set_app_L.
    apply set_eq. intros z. rewrite !elem_of_union. tauto.
Qed.

(** X10: the items collected for the types file carry pairwise different
    Go names, and an item is collected exactly when it is the first, in
    declaration order over all controllers with a model (abstract ones
    included), to carry its Go name. *)
Theorem collect_model_items_first_wins (module : ApiModule.t) :
  List.NoDup (map ModelItem.go_name (GoViews._collect_model_items module))
  /\ forall item,
       In item (GoViews._collect_model_items module)
       <-> List.find (same_key ModelItem.go_name item)
             (model_items_of (ApiModule.controllers module)) = Some item.
Proof.
  unfold GoViews._collect_model_items.
  rewrite collect_items_from_controllers_spec. cbn [fst app]. split.
  - apply keep_first_nodup.
  - intros item. rewrite keep_first_first. split; [tauto|].
    intros H. split; [apply not_elem_of_empty | exact H].
Qed.

Lemma type_fields_from_spec (l : list ModelField.t) (seen : gset string)
    (acc : list GoViews.TypeFieldView) :
  GoViews.type_fields_from l seen acc
  = acc ++ map field_view (keep_first ModelField.go_name seen l).
Proof.
  revert seen acc. induction l as [|f l IH]; intros seen acc;
    cbn [GoViews.type_fields_from keep_first map].
  - now rewrite List.app_nil_r.
  - case_bool_decide as Hseen; [apply IH|].
    rewrite IH, <- List.app_assoc. reflexivity.
Qed.

Lemma reserved_type_name_escaped (go_name : string) :
  (if bool_decide (go_name ∈ GoViews._RESERVED_TYPE_NAMES)
   then go_name +:+ "Config" else go_name) ∉ GoViews._RESERVED_TYPE_NAMES.
Proof.
  case_bool_decide as Hin; [|exact Hin].
  unfold GoViews._RESERVED_TYPE_NAMES in *.
  apply elem_of_union in Hin as [Hin|Hin]; apply elem_of_singleton in Hin;
    subst; intros Hbad;
    apply elem_of_union in Hbad as [Hbad|Hbad];
    apply elem_of_singleton in Hbad; discriminate.
Qed.

(** X11: the type view of an item keeps the item's name, never carries a
    reserved type name, and lists each Go field name once: every field of
    the item is represented, by the first field that carries its Go name,
    with [omitempty] set exactly when that field is not required or is
    volatile. *)
Theorem type_item_view_fields (item : ModelItem.t) :
  GoViews.ti_name (GoViews._type_item_view item) = ModelItem.name item
  /\ (GoViews.ti_go_name (GoViews._type_item_view item)
        ∉ GoViews._RESERVED_TYPE_NAMES)
  /\ List.NoDup (map GoViews.tf_go_name
                   (GoViews.ti_fields (GoViews._type_item_view item)))
  /\ (forall f,
        In f (ModelItem.fields item) ->
        In (ModelField.go_name f)
           (map GoViews.tf_go_name
              (GoViews.ti_fields (GoViews._type_item_view item))))
  /\ (forall tf,
        In tf (GoViews.ti_fields (GoViews._type_item_view item)) ->
        exists f,
          List.find (same_key ModelField.go_name f) (ModelItem.fields item)
          = Some f
          /\ GoViews.tf_go_name tf = ModelField.go_name f
          /\ GoViews.tf_json_name tf = ModelField.json_name f
          /\ GoViews.tf_options tf = ModelField.options f
          /\ GoViews.tf_omitempty tf
             = negb (ModelField.required f) || ModelField.volatile f).
Proof.
  unfold GoViews._type_item_view.
  cbn [GoViews.ti_name GoViews.ti_go_name GoViews.ti_fields].
  rewrite type_fields_from_spec. cbn [app].
  split; [reflexivity|]. split; [apply reserved_type_name_escaped|].
  assert (Hnames : forall l,
             map GoViews.tf_go_name (map field_view l)
             = map ModelField.go_name l).
  { intros l. rewrite List.map_map. now apply List.map_ext. }
  rewrite Hnames. split; [apply keep_first_nodup|]. split.
  - intros f Hf.
    destruct (keep_first_complete ModelField.go_name _ ∅ f Hf) as [H|H];
      [now apply not_elem_of_empty in H | exact H].
  - intros tf Htf. apply List.in_map_iff in Htf as (f & <- & Hf).
    apply keep_first_first in Hf as [_ Hf].
    exists f. repeat split. exact Hf.
Qed.

Lemma type_item_view_fields_witness :
  In (ModelField.go_name enabled_field)
     (map GoViews.tf_go_name
        (GoViews.ti_fields (GoViews._type_item_view client_item))).
Proof.
  apply (proj1 (proj2 (proj2 (proj2 (type_item_view_fields client_item))))).
  simpl. auto.
Defined.

Lemma wrappers_from_spec (evs : list GoViews.EndpointView)
    (seen : gset string) (acc : list GoViews.Wrapper) :
  GoViews.wrappers_from evs seen acc
  = acc ++ map wrapper_of
      (keep_first GoViews.item_json_key seen (List.filter wants_wrapper evs)).
Proof.
  revert seen acc. induction evs as [|ev evs IH]; intros seen acc;
    cbn [GoViews.wrappers_from List.filter].
  - now rewrite List.app_nil_r.
  - fold (wants_wrapper ev). destruct (wants_wrapper ev); [|apply IH].
    cbn [keep_first].
    case_bool_decide as Hnew; case_bool_decide as Hseen; try contradiction.
    + rewrite IH, <- List.app_assoc. reflexivity.
    + apply IH.
Qed.

(** X12: the response wrappers carry pairwise different JSON keys; each
    comes from a [get] view with a non-empty item type and key, is named
    after the key and typed by that view; and every such view has a
    wrapper for its key. *)
Theorem response_wrappers_per_key (ep_views : list GoViews.EndpointView) :
  List.NoDup
    (map GoViews.json_key (GoViews._collect_response_wrappers ep_views))
  /\ (forall w,
        In w (GoViews._collect_response_wrappers ep_views) ->
        exists ev,
          In ev ep_views
          /\ GoViews.crud_verb ev = "get"
          /\ GoViews.item_type ev <> ""
          /\ GoViews.item_json_key ev <> ""
          /\ GoViews.json_key w = GoViews.item_json_key ev
          /\ GoViews.field_name w = GoViews.item_type ev
          /\ GoViews.wrapper_name w
             = GoViews.item_json_key ev +:+ "GetItemResponse")
  /\ (forall ev,
        In ev ep_views ->
        GoViews.crud_verb ev = "get" ->
        GoViews.item_type ev <> "" ->
        GoViews.item_json_key ev <> "" ->
        In (GoViews.item_json_key ev)
           (map GoViews.json_key
              (GoViews._collect_response_wrappers ep_views))).
Proof.
  unfold GoViews._collect_response_wrappers.
  rewrite wrappers_from_spec. cbn [app].
  assert (Hkeys : forall l,
             map GoViews.json_key (map wrapper_of l)
             = map GoViews.item_json_key l).
  { intros l. rewrite List.map_map. now apply List.map_ext. }
  rewrite Hkeys. split; [apply keep_first_nodup|]. split.
  - intros w Hw. apply List.in_map_iff in Hw as (ev & <- & Hev).
    apply keep_first_sound in Hev as [Hev _].
    apply List.filter_In in Hev as [Hin Hwant].
    unfold wants_wrapper in Hwant.
    apply andb_true_iff in Hwant as [[Hget Htype]%andb_true_iff Hkey].
    exists ev. split; [exact Hin|]. split; [now apply String.eqb_eq|].
    split; [now apply nonempty_true|]. split; [now apply nonempty_true|].
    repeat split.
  - intros ev Hin Hget Htype Hkey.
    assert (Hwant : wants_wrapper ev = true).
    { unfold wants_wrapper. rewrite Hget.
      apply nonempty_true in Htype, Hkey. now rewrite Htype, Hkey. }
    assert (Hfiltered : In ev (List.filter wants_wrapper ep_views))
      by now apply List.filter_In.
    destruct (keep_first_complete GoViews.item_json_key _ ∅ ev Hfiltered)
      as [H|H]; [now apply not_elem_of_empty in H | exact H].
Qed.

Lemma response_wrappers_per_key_witness :
  In (GoViews.item_json_key typed_get_view)
     (map GoViews.json_key
        (GoViews._collect_response_wrappers
           [plain_get_view; typed_get_view; typed_get_view])).
Proof.
  apply (proj2 (proj2 (response_wrappers_per_key
                         [plain_get_view; typed_get_view; typed_get_view]))).
  - simpl. auto.
  - reflexivity.
  - discriminate.
  - discriminate.
Defined.

(** *** Reserved names *)

Lemma reserved_word_escaped :
  Forall (fun w => bool_decide (w +:+ "Val" ∈ GoViews._GO_RESERVED) = false)
    GoViews.go_reserved_words.
Proof.
  unfold GoViews.go_reserved_words.
  repeat (constructor; [vm_compute; reflexivity|]). constructor.
Qed.

(** X13: a parameter name that leaves [_safe_param_name] is never a Go
    reserved word, and a type name that leaves [_safe_go_name] is never
    one of the reserved type names. *)
Theorem safe_names_are_not_reserved :
  (forall name, GoViews._safe_param_name name ∉ GoViews._GO_RESERVED)
  /\ (forall name, _safe_go_name name ∉ _RESERVED_TYPE_NAMES).
Proof.
  split; intros name.
  - unfold GoViews._safe_param_name. case_bool_decide as Hin; [|exact Hin].
    unfold GoViews._GO_RESERVED in Hin. apply elem_of_list_to_set in Hin.
    pose proof reserved_word_escaped as Hall.
    rewrite Forall_forall in Hall. specialize (Hall _ Hin).
    now apply bool_decide_eq_false in Hall.
  - apply reserved_type_name_escaped.
Qed.

(** *** The two views of one endpoint *)

Lemma primary_of_last (methods : list string) :
  primary_of methods
  = match methods with
    | [] => None
    | _ => Some (List.last methods "")
    end.
Proof.
  unfold primary_of. destruct methods as [|m [|m' more]]; try reflexivity.
  change (1 <? length (m :: m' :: more)) with true. cbv iota.
  generalize (m' :: more) as l. clear. revert m.
  intros m l. revert m. induction l as [|x l IH]; intros m; [reflexivity|].
  cbn [map List.last]. apply IH.
Qed.

Lemma add_placeholders_join (l : list GoViews.RequiredParam) (acc : string) :
  GoViews.add_placeholders l acc = acc +:+ join "" (map (fun _ => "/%s") l).
Proof.
  revert acc. induction l as [|p l IH]; intros acc;
    cbn [GoViews.add_placeholders map].
  - now rewrite app_empty_r.
  - now rewrite IH, join_empty_cons, str_app_assoc.
Qed.

(** X14: the client view and the CLI verb view of an endpoint fail
    together, exactly on an endpoint without methods.  Otherwise both take
    the last listed method as primary method, and they agree on the Go
    method, CRUD verb, URL path, item type and on the required
    parameters, which the client view passes through [_safe_param_name];
    the client view takes a body exactly for POST. *)
Theorem emitter_views_agree (ep : Endpoint.t) (verb : string) :
  (GoViews._endpoint_view ep = None <-> Endpoint.methods ep = [])
  /\ (_build_verb_view ep verb = None <-> Endpoint.methods ep = [])
  /\ (forall ev cv,
        GoViews._endpoint_view ep = Some ev ->
        _build_verb_view ep verb = Some cv ->
        GoViews.primary_method ev = List.last (Endpoint.methods ep) ""
        /\ primary_method cv = GoViews.primary_method ev
        /\ GoViews.has_body ev = String.eqb (GoViews.primary_method ev) "POST"
        /\ go_method cv = GoViews.go_method_name ev
        /\ crud_verb cv = GoViews.crud_verb ev
        /\ url_path cv = GoViews.url_path ev
        /\ item_type cv = GoViews.item_type ev
        /\ map GoViews.rp_name (GoViews.required_params ev)
           = map GoViews._safe_param_name (positional_params cv)).
Proof.
  unfold GoViews._endpoint_view, _build_verb_view. cbv zeta.
  rewrite primary_of_last.
  destruct (Endpoint.methods ep) as [|m more] eqn:Hm.
  - cbn. repeat split; intros; congruence.
  - cbn [mbind option_bind].
    destruct (Endpoint.model_item ep) as [item|];
      (split; [split; discriminate|]; split; [split; discriminate|]);
      intros ev cv [= <-] [= <-]; cbn; rewrite !List.map_map;
      repeat split.
Qed.

Lemma emitter_views_agree_witness :
  GoViews.primary_method typed_get_view
  = List.last (Endpoint.methods typed_get) ""
  /\ primary_method typed_get_verb = GoViews.primary_method typed_get_view
  /\ GoViews.has_body typed_get_view
     = String.eqb (GoViews.primary_method typed_get_view) "POST"
  /\ go_method typed_get_verb = GoViews.go_method_name typed_get_view
  /\ crud_verb typed_get_verb = GoViews.crud_verb typed_get_view
  /\ url_path typed_get_verb = GoViews.url_path typed_get_view
  /\ item_type typed_get_verb = GoViews.item_type typed_get_view
  /\ map GoViews.rp_name (GoViews.required_params typed_get_view)
     = map GoViews._safe_param_name (positional_params typed_get_verb).
Proof.
  apply (proj2 (proj2 (emitter_views_agree typed_get "get")));
    reflexivity.
Defined.

(** X15: the path format of a client view is empty exactly when the
    endpoint has no required parameter; otherwise it is the URL path
    followed by one [/%s] for every required parameter. *)
Theorem path_fmt_placeholders (ep : Endpoint.t) (ev : GoViews.EndpointView) :
  GoViews._endpoint_view ep = Some ev ->
  (GoViews.path_fmt ev = "" <-> GoViews.required_params ev = [])
  /\ length (GoViews.required_params ev)
     = length (filter (fun p => Param.required p = true)
                 (Endpoint.parameters ep))
  /\ (GoViews.required_params ev <> [] ->
      GoViews.path_fmt ev
      = Endpoint.url_path ep
        +:+ join "" (map (fun _ => "/%s") (GoViews.required_params ev))).
Proof.
  unfold GoViews._endpoint_view. cbv zeta.
  destruct (primary_of (Endpoint.methods ep)) as [primary|]; [|discriminate].
  cbn [mbind option_bind].
  destruct (match Endpoint.model_item ep with
            | Some _ => _ | None => _ end) as [ty k].
  intros [= <-]. cbn [GoViews.path_fmt GoViews.required_params].
  rewrite length_map.
  destruct (filter (fun p => Param.required p = true) (Endpoint.parameters ep))
    as [|p ps]; cbn [map].
  - repeat split; congruence.
  - rewrite add_placeholders_join. split; [|split; [reflexivity|reflexivity]].
    split; [|discriminate].
    cbn [map]. rewrite join_empty_cons. intros H. exfalso.
    destruct (Endpoint.url_path ep); discriminate.
Qed.

Lemma path_fmt_placeholders_witness :
  (GoViews.path_fmt del_item_view = "" <-> GoViews.required_params del_item_view = [])
  /\ length (GoViews.required_params del_item_view)
     = length (filter (fun p => Param.required p = true)
                 (Endpoint.parameters del_item_ep))
  /\ (GoViews.required_params del_item_view <> [] ->
      GoViews.path_fmt del_item_view
      = Endpoint.url_path del_item_ep
        +:+ join "" (map (fun _ => "/%s")
                       (GoViews.required_params del_item_view))).
Proof.
  apply (path_fmt_placeholders del_item_ep del_item_view). reflexivity.
Defined.

End GoViewFacts.

(** ** CLI emitter: grouping into resources *)

Section GroupingFacts.

Lemma entries_cons (k : string) (l : list (Endpoint.t * string))
    (d : resource_map) :
  entries_of ((k, l) :: d) = l ++ entries_of d.
Proof. reflexivity. Qed.

Lemma setdefault_append_entries res e (d : resource_map) :
  Permutation (entries_of (setdefault_append res e d)) (entries_of d ++ [e]).
Proof.
  induction d as [|[k l] d IH]; cbn [setdefault_append]; [reflexivity|].
  destruct (String.eqb k res); rewrite !entries_cons.
  - rewrite <- !List.app_assoc. apply Permutation_app_head.
    apply Permutation_app_comm.
  - rewrite IH. now rewrite List.app_assoc.
Qed.

Lemma setdefault_append_keys res e (d : resource_map) (k : string) :
  In k (map fst (setdefault_append res e d)) <-> k = res \/ In k (map fst d).
Proof.
  induction d as [|[k' l] d IH]; cbn [setdefault_append map fst In].
  - intuition congruence.
  - destruct (String.eqb_spec k' res) as [->|Hne]; cbn [map fst In].
    + intuition congruence.
    + rewrite IH. intuition congruence.
Qed.

Lemma setdefault_append_nodup res e (d : resource_map) :
  List.NoDup (map fst d) -> List.NoDup (map fst (setdefault_append res e d)).
Proof.
  induction d as [|[k l] d IH]; cbn [setdefault_append map fst]; intros Hnd.
  - repeat constructor. intros [].
  - apply List.NoDup_cons_iff in Hnd as [Hk Hnd].
    destruct (String.eqb_spec k res) as [->|Hne]; cbn [map fst].
    + now constructor.
    + constructor; [|now apply IH].
      rewrite setdefault_append_keys. intuition congruence.
Qed.

Lemma setdefault_append_in res e (d : resource_map) r l :
  In (r, l) (setdefault_append res e d) ->
  In (r, l) d
  \/ (r = res /\ (l = [e] \/ exists l0, In (res, l0) d /\ l = l0 ++ [e])).
Proof.
  induction d as [|[k l0] d IH]; cbn [setdefault_append].
  - intros [[= <- <-]|[]]. right. auto.
  - destruct (String.eqb_spec k res) as [->|Hne].
    + intros [[= <- <-]|Hin]; [|left; now right].
      right. split; [reflexivity|]. right. exists l0. split; [now left|auto].
    + intros [[= <- <-]|Hin]; [left; now left|].
      destruct (IH Hin) as [H|(-> & [->|(l1 & Hl1 & ->)])].
      * left. now right.
      * right. auto.
      * right. split; [reflexivity|]. right. exists l1.
        split; [now right | reflexivity].
Qed.

Lemma group_endpoints_entries eps seen (d : resource_map) :
  Permutation (entries_of (group_endpoints eps seen d))
    (entries_of d
     ++ map entry_for (keep_first Endpoint.go_method_name seen eps)).
Proof.
  revert seen d. induction eps as [|ep eps IH]; intros seen d;
    cbn [group_endpoints keep_first map].
  - now rewrite List.app_nil_r.
  - case_bool_decide as Hseen; [apply IH|].
    cbv zeta. rewrite IH, setdefault_append_entries.
    now rewrite <- List.app_assoc.
Qed.

Lemma group_controllers_entries ctrls (d : resource_map) :
  Permutation (entries_of (group_controllers ctrls d))
    (entries_of d ++ cli_kept ctrls).
Proof.
  revert d. induction ctrls as [|ctrl more IH]; intros d;
    cbn [group_controllers]; unfold cli_kept; cbn [List.filter].
  - now rewrite List.app_nil_r.
  - destruct (Controller.is_abstract ctrl); cbn [negb flat_map].
    + apply IH.
    + fold (cli_kept more).
      rewrite IH, group_endpoints_entries. now rewrite <- List.app_assoc.
Qed.

(** *** The plural merge *)

Lemma pop_entries k (d : resource_map) :
  Permutation (entries_of d) (fst (pop k d) ++ entries_of (snd (pop k d))).
Proof.
  induction d as [|[k' l] d IH]; cbn [pop]; [reflexivity|].
  destruct (String.eqb k' k); cbn [fst snd]; [reflexivity|].
  destruct (pop k d) as [v rest]. cbn [fst snd] in *.
  rewrite !entries_cons, IH, !List.app_assoc.
  apply Permutation_app_tail, Permutation_app_comm.
Qed.

Lemma pop_keys k (d : resource_map) (x : string) :
  In x (map fst (snd (pop k d))) -> In x (map fst d).
Proof.
  induction d as [|[k' l] d IH]; cbn [pop]; [intros []|].
  destruct (String.eqb k' k); cbn [snd map fst In]; [auto|].
  destruct (pop k d) as [v rest]. cbn [snd map fst In] in *. intuition.
Qed.

Lemma pop_nodup k (d : resource_map) :
  List.NoDup (map fst d) -> List.NoDup (map fst (snd (pop k d))).
Proof.
  induction d as [|[k' l] d IH]; cbn [pop]; [auto|].
  intros [Hk Hnd]%List.NoDup_cons_iff.
  destruct (String.eqb k' k); cbn [snd]; [exact Hnd|].
  pose proof (pop_keys k d k') as Hkeys. specialize (IH Hnd).
  destruct (pop k d) as [v rest]. cbn [snd map fst] in *.
  constructor; auto.
Qed.

Lemma pop_in k (d : resource_map) r l :
  In (r, l) (snd (pop k d)) -> In (r, l) d.
Proof.
  induction d as [|[k' l'] d IH]; cbn [pop]; [intros []|].
  destruct (String.eqb k' k); cbn [snd]; [now right|].
  destruct (pop k d) as [v rest]. cbn [snd] in *.
  intros [H|H]; [now left | right; auto].
Qed.

Lemma pop_value k (d : resource_map) :
  fst (pop k d) = [] \/ In (k, fst (pop k d)) d.
Proof.
  induction d as [|[k' l] d IH]; cbn [pop]; [now left|].
  destruct (String.eqb_spec k' k) as [->|Hne]; cbn [fst].
  - right. now left.
  - destruct (pop k d) as [v rest]. cbn [fst] in *.
    destruct IH as [->|H]; [now left | right; now right].
Qed.

Lemma has_key_after_pop k k' (d : resource_map) :
  k <> k' -> has_key k (snd (pop k' d)) = has_key k d.
Proof.
  intros Hne. unfold has_key.
  induction d as [|[x l] d IH]; cbn [pop]; [reflexivity|].
  destruct (String.eqb_spec x k') as [->|Hx]; cbn [snd existsb fst].
  - apply String.eqb_neq in Hne. rewrite String.eqb_sym in Hne.
    now rewrite Hne.
  - destruct (pop k' d) as [v rest]. cbn [snd existsb fst] in *.
    now rewrite IH.
Qed.

Lemma extend_at_entries k more (d : resource_map) :
  has_key k d = true ->
  Permutation (entries_of (extend_at k more d)) (entries_of d ++ more).
Proof.
  unfold has_key. induction d as [|[k' l] d IH]; cbn [existsb extend_at fst];
    [discriminate|].
  destruct (String.eqb k' k); cbn [orb]; rewrite !entries_cons.
  - intros _. rewrite <- !List.app_assoc. apply Permutation_app_head.
    apply Permutation_app_comm.
  - intros H. rewrite (IH H). now rewrite List.app_assoc.
Qed.

Lemma extend_at_keys k more (d : resource_map) :
  map fst (extend_at k more d) = map fst d.
Proof.
  induction d as [|[k' l] d IH]; cbn [extend_at]; [reflexivity|].
  destruct (String.eqb k' k); cbn [map fst]; now rewrite ?IH.
Qed.

Lemma extend_at_in k more (d : resource_map) r l :
  In (r, l) (extend_at k more d) ->
  In (r, l) d \/ (r = k /\ exists l0, In (k, l0) d /\ l = l0 ++ more).
Proof.
  induction d as [|[k' l0] d IH]; cbn [extend_at]; [intros []|].
  destruct (String.eqb_spec k' k) as [->|Hne].
  - intros [[= <- <-]|H]; [|left; now right].
    right. split; [reflexivity|]. exists l0. split; [now left | reflexivity].
  - intros [[= <- <-]|H]; [left; now left|].
    destruct (IH H) as [H'|(-> & l1 & Hl1 & ->)]; [left; now right|].
    right. split; [reflexivity|]. exists l1. split; [now right | reflexivity].
Qed.

Lemma length_app (a b : string) :
  String.length (a +:+ b) = String.length a + String.length b.
Proof.
  induction a as [|c a IH]; [reflexivity|].
  rewrite app_cons. cbn [String.length]. now rewrite IH.
Qed.

Lemma take_drop (n : nat) (s : string) : take n s +:+ drop n s = s.
Proof.
  revert s. induction n as [|n IH]; intros s; [reflexivity|].
  destruct s as [|c s]; [reflexivity|]. cbn [take drop].
  now rewrite app_cons, IH.
Qed.

Lemma endswith_inv (s p : string) :
  endswith s p = true ->
  s = take (String.length s - String.length p) s +:+ p.
Proof.
  unfold endswith. intros [Hlen Heq]%andb_true_iff.
  apply String.eqb_eq in Heq.
  rewrite <- (take_drop (String.length s - String.length p) s) at 1.
  now rewrite Heq.
Qed.

Lemma singular_of_inv (res sg : string) :
  singular_of res = Some sg -> res = sg +:+ "s" /\ sg <> res.
Proof.
  unfold singular_of.
  destruct (endswith res "s") eqn:Hend; cbn [andb]; [|discriminate].
  destruct (2 <? String.length res); [|discriminate].
  intros [= <-]. apply endswith_inv in Hend. cbn [String.length] in Hend.
  split; [exact Hend|].
  intros Heq. apply (f_equal String.length) in Hend.
  rewrite length_app, Heq in Hend. cbn in Hend. lia.
Qed.

Lemma merge_plural_entries (d : resource_map) (res : string) :
  Permutation (entries_of (merge_plural d res)) (entries_of d).
Proof.
  unfold merge_plural.
  destruct (singular_of res) as [sg|] eqn:Hsg; [|reflexivity].
  destruct (nonempty sg && has_key sg d) eqn:Hkey; [|reflexivity].
  apply andb_true_iff in Hkey as [_ Hkey].
  apply singular_of_inv in Hsg as [_ Hne].
  pose proof (pop_entries res d) as Hpop.
  pose proof (has_key_after_pop sg res d Hne) as Hafter.
  destruct (pop res d) as [moved without]. cbn [fst snd] in *.
  rewrite extend_at_entries by now rewrite Hafter.
  rewrite Hpop. apply Permutation_app_comm.
Qed.

Lemma merge_plural_nodup (d : resource_map) (res : string) :
  List.NoDup (map fst d) -> List.NoDup (map fst (merge_plural d res)).
Proof.
  intros Hnd. unfold merge_plural.
  destruct (singular_of res) as [sg|]; [|exact Hnd].
  destruct (nonempty sg && has_key sg d); [|exact Hnd].
  pose proof (pop_nodup res d Hnd) as Hpop.
  destruct (pop res d) as [moved without]. cbn [snd] in Hpop.
  now rewrite extend_at_keys.
Qed.

Lemma repeat_char_snoc (k : nat) :
  "s" +:+ repeat_char "s" k = repeat_char "s" (S k).
Proof. reflexivity. Qed.

Lemma merge_plural_filed (d : resource_map) (res : string) :
  filed_by_name d -> filed_by_name (merge_plural d res).
Proof.
  intros Hd. unfold merge_plural.
  destruct (singular_of res) as [sg|] eqn:Hsg; [|exact Hd].
  destruct (nonempty sg && has_key sg d); [|exact Hd].
  apply singular_of_inv in Hsg as [Hres _].
  pose proof (pop_value res d) as Hval.
  pose proof (pop_in res d) as Hin.
  destruct (pop res d) as [moved without]. cbn [fst snd] in *.
  intros r l Hrl.
  apply extend_at_in in Hrl as [Hrl|(-> & l0 & Hl0 & ->)].
  - apply (Hd r l). now apply Hin.
  - destruct (Hd sg l0 (Hin _ _ Hl0)) as [Hne Hnames]. split.
    + destruct l0; [congruence | discriminate].
    + intros ep v Hep. apply List.in_app_or in Hep as [Hep|Hep];
        [now apply (Hnames ep v)|].
      destruct Hval as [->|Hmoved]; [destruct Hep|].
      destruct (Hd res moved Hmoved) as [_ Hmv].
      destruct (Hmv ep v Hep) as [k Hk].
      exists (S k). rewrite Hk, Hres, str_app_assoc.
      now rewrite repeat_char_snoc.
Qed.

Lemma merge_plurals_fold (keys : list string) (d : resource_map) :
  List.NoDup (map fst d) -> filed_by_name d ->
  Permutation (entries_of (fold_left merge_plural keys d)) (entries_of d)
  /\ List.NoDup (map fst (fold_left merge_plural keys d))
  /\ filed_by_name (fold_left merge_plural keys d).
Proof.
  revert d. induction keys as [|k keys IH]; intros d Hnd Hfiled;
    cbn [fold_left]; [auto|].
  destruct (IH (merge_plural d k) (merge_plural_nodup _ _ Hnd)
              (merge_plural_filed _ _ Hfiled)) as (Hperm & Hnd' & Hf').
  split; [|auto]. now rewrite Hperm, merge_plural_entries.
Qed.

(** *** The grouping loops *)

Lemma app_empty_repeat (s : string) : s = s +:+ repeat_char "s" 0.
Proof. cbn [repeat_char]. now rewrite app_empty_r. Qed.

Lemma setdefault_append_filed ep (d : resource_map) :
  filed_by_name d ->
  filed_by_name
    (setdefault_append (_resource_name_from_endpoint ep)
       (ep, _cli_verb_from_endpoint ep) d).
Proof.
  intros Hd r l Hrl.
  apply setdefault_append_in in Hrl
    as [Hrl|(-> & [->|(l0 & Hl0 & ->)])].
  - now apply Hd.
  - split; [discriminate|]. intros e v [[= <- <-]|[]].
    exists 0. apply app_empty_repeat.
  - destruct (Hd _ _ Hl0) as [_ Hnames]. split.
    + destruct l0; discriminate.
    + intros e v Hin. apply List.in_app_or in Hin as [Hin|[[= <- <-]|[]]];
        [now apply (Hnames e v)|].
      exists 0. apply app_empty_repeat.
Qed.

Lemma group_endpoints_invariant eps seen (d : resource_map) :
  List.NoDup (map fst d) -> filed_by_name d ->
  List.NoDup (map fst (group_endpoints eps seen d))
  /\ filed_by_name (group_endpoints eps seen d).
Proof.
  revert seen d. induction eps as [|ep eps IH]; intros seen d Hnd Hf;
    cbn [group_endpoints]; [auto|].
  case_bool_decide; [now apply IH|].
  cbv zeta. apply IH;
    [now apply setdefault_append_nodup | now apply setdefault_append_filed].
Qed.

Lemma group_controllers_invariant ctrls (d : resource_map) :
  List.NoDup (map fst d) -> filed_by_name d ->
  List.NoDup (map fst (group_controllers ctrls d))
  /\ filed_by_name (group_controllers ctrls d).
Proof.
  revert d. induction ctrls as [|ctrl more IH]; intros d Hnd Hf;
    cbn [group_controllers]; [auto|].
  destruct (Controller.is_abstract ctrl); [now apply IH|].
  destruct (group_endpoints_invariant (Controller.endpoints ctrl) ∅ d Hnd Hf).
  now apply IH.
Qed.

(** X16: the CLI grouping files exactly the endpoints it keeps, each
    once: the entries of all resources together are, up to order, the
    first endpoint of each method identifier of every concrete
    controller, paired with its cli verb.  The plural merge moves entries
    between resources and loses none. *)
Theorem cli_grouping_files_each_kept_endpoint_once (module : ApiModule.t) :
  Permutation (entries_of (grouped_resources module))
    (cli_kept (ApiModule.controllers module)).
Proof.
  unfold grouped_resources, merge_plurals.
  destruct (group_controllers_invariant (ApiModule.controllers module) [])
    as [Hnd Hf]; [constructor | intros ? ? [] |].
  destruct (merge_plurals_fold
              (map fst (group_controllers (ApiModule.controllers module) []))
              _ Hnd Hf) as (Hperm & _ & _).
  rewrite Hperm, group_controllers_entries. reflexivity.
Qed.

(** X17: the resources that reach the per-resource loop have pairwise
    different names and none is empty; every entry sits under the
    resource name of its endpoint, or under that name with trailing
    letters [s] removed by the plural merge. *)
Theorem cli_resources_named_after_endpoints (module : ApiModule.t) :
  List.NoDup (map fst (grouped_resources module))
  /\ forall res l,
       In (res, l) (grouped_resources module) ->
       l <> []
       /\ forall ep v,
            In (ep, v) l ->
            exists k,
              _resource_name_from_endpoint ep = res +:+ repeat_char "s" k.
Proof.
  unfold grouped_resources, merge_plurals.
  destruct (group_controllers_invariant (ApiModule.controllers module) [])
    as [Hnd Hf]; [constructor | intros ? ? [] |].
  destruct (merge_plurals_fold
              (map fst (group_controllers (ApiModule.controllers module) []))
              _ Hnd Hf) as (_ & Hnd' & Hf').
  split; [exact Hnd' | exact Hf'].
Qed.

End GroupingFacts.

(** ** CLI emitter: the shape of resource names *)

Section KebabFacts.

Lemma any_char_replace p c new (s : string) :
  any_char p new = false -> any_char p s = false ->
  any_char p (replace c new s) = false.
Proof.
  intros Hnew. induction s as [|d r IH]; [reflexivity|].
  cbn [any_char replace]. intros [Hd Hr]%orb_false_iff.
  destruct (Ascii.eqb d c).
  - now rewrite any_char_app, Hnew, IH.
  - cbn [any_char]. now rewrite Hd, IH.
Qed.

Lemma replace_removes c new (s : string) :
  contains c new = false -> contains c (replace c new s) = false.
Proof.
  unfold contains. intros Hnew. induction s as [|d r IH]; [reflexivity|].
  cbn [replace]. destruct (Ascii.eqb d c) eqn:Hd.
  - now rewrite any_char_app, Hnew, IH.
  - cbn [any_char]. now rewrite Ascii.eqb_sym, Hd, IH.
Qed.

Lemma split_parts_clean sep (s : string) :
  Forall (fun p => contains sep p = false) (split sep s).
Proof.
  unfold contains. induction s as [|c r IH]; [now repeat constructor|].
  cbn [split]. destruct (Ascii.eqb c sep) eqn:Hc; [now constructor|].
  destruct (split sep r) as [|h t]; [repeat constructor; cbn|].
  - now rewrite Ascii.eqb_sym, Hc.
  - inversion IH as [|? ? Hh Ht]; subst. constructor; [|exact Ht].
    cbn [any_char]. now rewrite Ascii.eqb_sym, Hc, Hh.
Qed.

(** Grouping keeps every property of parts that upper-casing and
    concatenation keep. *)
Lemma group_and_run_keep (Q : string -> Prop) (parts : list string) :
  (forall p, Q p -> Q (upper p)) ->
  (forall a b, Q a -> Q b -> Q (a +:+ b)) ->
  Forall Q parts ->
  Forall Q (_group_single_chars parts)
  /\ (forall acronym, Q acronym -> Forall Q (collect_run acronym parts)).
Proof.
  intros Hup Happ. induction 1 as [|p rest Hp Hrest [IHg IHr]].
  - split; [constructor|]. intros acronym Hq. now repeat constructor.
  - split.
    + rewrite group_cons. destruct (is_single p); [|now constructor].
      apply IHr. auto.
    + intros acronym Hq. cbn [collect_run].
      destruct (is_single p); [apply IHr; auto|].
      now repeat constructor.
Qed.

Lemma join_keeps_out p sep (l : list string) :
  any_char p sep = false ->
  Forall (fun w => any_char p w = false) l ->
  any_char p (join sep l) = false.
Proof.
  intros Hsep. induction 1 as [|w l Hw Hl IH]; [reflexivity|].
  destruct l as [|v l]; [exact Hw|].
  change (join sep (w :: v :: l)) with (w +:+ sep +:+ join sep (v :: l)).
  now rewrite !any_char_app, Hw, Hsep, IH.
Qed.

Lemma kebab_words (raw : string) :
  Forall (fun w => contains "_" w = false
                   /\ any_char is_upper_char w = false)
    (map lower
       (filter (fun p => nonempty p = true)
          (_group_single_chars (split "_" raw)))).
Proof.
  apply List.Forall_map.
  assert (Hgroup : Forall (fun p => contains "_" p = false)
                     (_group_single_chars (split "_" raw))).
  { apply group_and_run_keep.
    - intros p Hp. now rewrite contains_upper.
    - intros a b Ha Hb. unfold contains in *.
      now rewrite any_char_app, Ha, Hb.
    - apply split_parts_clean. }
  rewrite List.Forall_forall in Hgroup. apply List.Forall_forall.
  intros w Hw. apply list_elem_of_In, list_elem_of_filter in Hw as [_ Hw].
  apply list_elem_of_In in Hw. split.
  - rewrite contains_lower. auto.
  - apply lower_no_upper.
Qed.

Lemma kebab_shape (raw : string) :
  contains "_" (_normalize_kebab raw) = false
  /\ any_char is_upper_char (_normalize_kebab raw) = false.
Proof.
  unfold _normalize_kebab. cbv zeta. pose proof (kebab_words raw) as Hw.
  split; apply join_keeps_out; try reflexivity;
    (eapply Forall_impl; [exact Hw|]); intros w [H1 H2]; assumption.
Qed.

(** X18: a resource name never contains an underscore or an upper-case
    letter, whatever the endpoint; the same holds for every string that
    leaves [_normalize_kebab]. *)
Theorem resource_names_are_lower_kebab :
  (forall ep,
      contains "_" (_resource_name_from_endpoint ep) = false
      /\ any_char is_upper_char (_resource_name_from_endpoint ep) = false)
  /\ (forall raw,
        contains "_" (_normalize_kebab raw) = false
        /\ any_char is_upper_char (_normalize_kebab raw) = false).
Proof.
  split; [|exact kebab_shape].
  intros ep.
  assert (Hctrl : contains "_" (replace "_" "-" (lower (Endpoint.controller ep)))
                  = false
                  /\ any_char is_upper_char
                       (replace "_" "-" (lower (Endpoint.controller ep)))
                     = false).
  { split; [now apply replace_removes|].
    apply any_char_replace; [reflexivity | apply lower_no_upper]. }
  unfold _resource_name_from_endpoint. cbv zeta.
  destruct (crud_item_re (Endpoint.command ep)); [exact Hctrl|].
  destruct (crud_named_re (Endpoint.command ep)) as [[verb group2]|];
    [apply kebab_shape | exact Hctrl].
Qed.

End KebabFacts.

(** ** Table parser: skipping a table *)

Section SkipTableFacts.

Lemma skip_from_bounds (rest : list string) (start i : nat) (b : bool) :
  i <= skip_from rest start i b <= i + length rest.
Proof.
  revert i b. induction rest as [|raw more IH]; intros i b; cbn [skip_from length];
    [lia|].
  destruct (is_row raw).
  - specialize (IH (S i) true). lia.
  - destruct b; [lia|].
    destruct ((5 <? S i - start) && negb false); [lia|].
    specialize (IH (S i) false). lia.
Qed.

Lemma skip_from_progress (raw : string) (more : list string) (start i : nat) :
  i < skip_from (raw :: more) start i false.
Proof.
  cbn [skip_from]. destruct (is_row raw).
  - pose proof (skip_from_bounds more start (S i) true). lia.
  - destruct ((5 <? S i - start) && negb false); [lia|].
    pose proof (skip_from_bounds more start (S i) false). lia.
Qed.

Lemma skip_from_in_table (rest : list string) (start i : nat) :
  skip_from rest start i true = i + leading_rows rest.
Proof.
  revert i. induction rest as [|raw more IH]; intros i;
    cbn [skip_from leading_rows]; [lia|].
  destruct (is_row raw); [rewrite IH; lia | lia].
Qed.

(** Without a row among the next [6 - seen] lines the loop gives up
    after them. *)
Lemma skip_from_gives_up (rest : list string) (start i : nat) :
  i - start <= 5 -> start <= i ->
  Forall (fun raw => is_row raw = false) (List.firstn (6 - (i - start)) rest) ->
  skip_from rest start i false
  = Nat.min (i + length rest) (start + 6).
Proof.
  revert i. induction rest as [|raw more IH]; intros i Hseen Hle Hnone;
    cbn [skip_from length]; [lia|].
  replace (6 - (i - start)) with (S (5 - (i - start))) in Hnone by lia.
  cbn [List.firstn] in Hnone.
  inversion Hnone as [|? ? Hraw Hmore]; subst. rewrite Hraw. cbn [negb].
  rewrite andb_true_r.
  destruct (Nat.ltb_spec 5 (S i - start)) as [Hstop|Hgo]; [lia|].
  rewrite IH; [lia | lia | lia |].
  replace (6 - (S i - start)) with (5 - (i - start)) by lia. exact Hmore.
Qed.

(** X19: [_skip_table] returns an index that is at least [start] and, when
    [start] is a valid index, strictly beyond it and at most the number of
    lines; past the end it returns [start] itself.  The caller's loop
    therefore always advances. *)
Theorem skip_table_advances (lines : list string) (start : nat) :
  start <= _skip_table lines start
  /\ (start < length lines ->
      start < _skip_table lines start <= length lines)
  /\ (length lines <= start -> _skip_table lines start = start).
Proof.
  unfold _skip_table.
  pose proof (skip_from_bounds (List.skipn start lines) start start false)
    as Hb.
  rewrite List.length_skipn in Hb.
  split; [lia|]. split.
  - intros Hlt. split; [|lia].
    destruct (List.skipn start lines) as [|raw more] eqn:Hs.
    + apply (f_equal (@length string)) in Hs.
      rewrite List.length_skipn in Hs. cbn in Hs. lia.
    + apply skip_from_progress.
  - intros Hge. lia.
Qed.

Lemma skip_table_advances_witness :
  1 < _skip_table sample_lines 1 <= length sample_lines.
Proof.
  apply (proj1 (proj2 (skip_table_advances sample_lines 1))).
  simpl. lia.
Defined.

(** X20: when the line at [start] is a table or separator row,
    [_skip_table] returns the index just after the last row of the
    unbroken run of rows that starts there; when none of the six lines
    from [start] on is a row, it gives up after them. *)
Theorem skip_table_skips_the_table (lines : list string) (start : nat) :
  (forall raw,
      List.nth_error lines start = Some raw -> is_row raw = true ->
      _skip_table lines start
      = start + leading_rows (List.skipn start lines))
  /\ (Forall (fun raw => is_row raw = false)
        (List.firstn 6 (List.skipn start lines)) ->
      _skip_table lines start = Nat.min (Nat.max start (length lines)) (start + 6)).
Proof.
  unfold _skip_table. split.
  - intros raw Hnth Hrow.
    destruct (List.skipn start lines) as [|raw' more] eqn:Hs.
    + apply List.nth_error_split in Hnth as (l1 & l2 & -> & <-).
      rewrite List.skipn_app, List.skipn_all, Nat.sub_diag in Hs.
      discriminate.
    + assert (raw' = raw) as ->.
      { apply List.nth_error_split in Hnth as (l1 & l2 & -> & <-).
        rewrite List.skipn_app, List.skipn_all, Nat.sub_diag in Hs.
        cbn in Hs. congruence. }
      cbn [skip_from leading_rows]. rewrite Hrow.
      rewrite skip_from_in_table. lia.
  - intros Hnone.
    rewrite skip_from_gives_up; rewrite ?Nat.sub_diag; try lia; [|exact Hnone].
    rewrite List.length_skipn. lia.
Qed.

Lemma skip_table_skips_the_table_witness :
  _skip_table sample_lines 1
  = 1 + leading_rows (List.skipn 1 sample_lines).
Proof.
  apply (proj1 (skip_table_skips_the_table sample_lines 1)
           "| Method | Module | Controller | Command | Parameters |");
    reflexivity.
Defined.

End SkipTableFacts.

(** ** Table parser: endpoints inherited from abstract controllers *)

Section MergeFacts.

Lemma go_method_name_total (controller command : string) :
  is_Some (go_method_name controller command).
Proof.
  unfold go_method_name, controller_to_go_name.
  destruct (snake_to_pascal_total controller) as [a ->].
  destruct (snake_to_pascal_total command) as [b ->].
  cbn. eauto.
Qed.

Lemma clone_inherited (eps : list Endpoint.t) (ep : Endpoint.t) :
  exists ep',
    clone eps ep = Some ep'
    /\ inherited ep ep'
    /\ Endpoint.module ep' = child_module eps ep
    /\ Endpoint.controller ep' = child_controller eps ep.
Proof.
  unfold clone.
  destruct (go_method_name_total (child_controller eps ep) (Endpoint.command ep))
    as [name Hname].
  rewrite Hname. cbn [mbind option_bind].
  eexists. split; [reflexivity|].
  unfold inherited, Endpoint.parsed. cbn. repeat split; auto.
Qed.

Lemma command_is_new (cmd : string) (cmds : list string) :
  bool_decide (cmd ∉ (list_to_set cmds : gset string))
  = negb (existsb (String.eqb cmd) cmds).
Proof.
  induction cmds as [|c cmds IH]; cbn [existsb list_to_set].
  - apply bool_decide_eq_true. apply not_elem_of_empty.
  - destruct (String.eqb_spec cmd c) as [->|Hne]; cbn [orb negb].
    + apply bool_decide_eq_false. intros Hnot. apply Hnot.
      apply elem_of_union_l, elem_of_singleton. reflexivity.
    + rewrite <- IH. apply bool_decide_ext.
      rewrite not_elem_of_union, not_elem_of_singleton. tauto.
Qed.


Lemma merge_parent_spec (existing : gset string)
    (parent_eps eps : list Endpoint.t) :
  exists added,
    merge_parent existing parent_eps eps = Some (eps ++ added)
    /\ Forall2 inherited
         (List.filter
            (fun ep => bool_decide (Endpoint.command ep ∉ existing))
            parent_eps)
         added
    /\ (forall ep', In ep' added ->
          exists first,
            head (eps ++ added) = Some first
            /\ Endpoint.module ep' = Endpoint.module first
            /\ Endpoint.controller ep' = Endpoint.controller first).
Proof.
  revert eps. induction parent_eps as [|ep more IH]; intros eps;
    cbn [merge_parent List.filter].
  - exists []. rewrite app_nil_r. split; [reflexivity|].
    split; [constructor|]. intros ep' [].
  - destruct (bool_decide (Endpoint.command ep ∉ existing)).
    + destruct (clone_inherited eps ep) as (child & -> & Hinh & Hm & Hc).
      cbn [mbind option_bind].
      destruct (IH (eps ++ [child])) as (added & -> & Hall & Hhome).
      exists (child :: added). rewrite <- app_assoc. cbn [app].
      split; [reflexivity|]. split; [constructor; assumption|].
      intros ep' [<-|Hin].
      * destruct eps as [|first eps]; cbn [app head].
        -- exists child. auto.
        -- exists first. auto.
      * destruct (Hhome ep' Hin) as (first & Hhead & Hrest).
        rewrite <- app_assoc in Hhead. cbn [app] in Hhead. eauto.
    + apply IH.
Qed.

Lemma filter_new_commands (ctrl parent : Controller.t) :
  List.filter
    (fun ep =>
       bool_decide
         (Endpoint.command ep
          ∉ (list_to_set (map Endpoint.command (Controller.endpoints ctrl))
              : gset string)))
    (Controller.endpoints parent)
  = missing_from ctrl parent.
Proof.
  unfold missing_from. apply List.filter_ext. intros ep.
  apply command_is_new.
Qed.

(** What the loop body does to a controller that has a parent. *)
Lemma merge_controller_child (a : abstract_dict) (ctrl parent : Controller.t) :
  Controller.is_abstract ctrl = false ->
  Controller.base_class ctrl <> "" ->
  find_parent a ctrl = Some parent ->
  exists added,
    merge_controller a ctrl
    = Some (Controller.mk (Controller.name ctrl) (Controller.php_file ctrl)
              (Controller.base_class ctrl) (Controller.is_abstract ctrl)
              (Controller.endpoints ctrl ++ added) (Controller.model ctrl)
              (inherit_url (Controller.model_url ctrl)
                 (Controller.model_url parent)))
    /\ Forall2 inherited (missing_from ctrl parent) added
    /\ (forall ep', In ep' added ->
          exists first,
            head (Controller.endpoints ctrl ++ added) = Some first
            /\ Endpoint.module ep' = Endpoint.module first
            /\ Endpoint.controller ep' = Endpoint.controller first).
Proof.
  intros Habs Hbase Hparent. unfold merge_controller.
  rewrite Habs, Hparent.
  destruct (Controller.base_class ctrl) as [|c r] eqn:Hb; [congruence|].
  cbn [nonempty negb orb].
  destruct (merge_parent_spec
              (list_to_set (map Endpoint.command (Controller.endpoints ctrl)))
              (Controller.endpoints parent) (Controller.endpoints ctrl))
    as (added & -> & Hall & Hhome).
  cbn [mbind option_bind]. exists added.
  rewrite filter_new_commands in Hall. auto.
Qed.

Lemma inherit_url_keeps (ctrl_url parent_url : string) :
  ctrl_url <> "" -> inherit_url ctrl_url parent_url = ctrl_url.
Proof.
  intros Hne. unfold inherit_url.
  destruct ctrl_url; [congruence | reflexivity].
Qed.

Lemma merge_controller_grown (a : abstract_dict) (ctrl : Controller.t) :
  exists ctrl',
    merge_controller a ctrl = Some ctrl'
    /\ grown ctrl ctrl'
    /\ (Controller.is_abstract ctrl = true
        \/ Controller.base_class ctrl = ""
        \/ find_parent a ctrl = None -> ctrl' = ctrl).
Proof.
  assert (Hsame : grown ctrl ctrl).
  { unfold grown. repeat split; auto. exists []. now rewrite app_nil_r. }
  destruct (Controller.is_abstract ctrl) eqn:Habs.
  { exists ctrl. unfold merge_controller. rewrite Habs. auto. }
  destruct (Controller.base_class ctrl) as [|c r] eqn:Hbase.
  { exists ctrl. unfold merge_controller. rewrite Habs, Hbase. auto. }
  destruct (find_parent a ctrl) as [parent|] eqn:Hparent.
  - destruct (merge_controller_child a ctrl parent) as (added & -> & _);
      [assumption | congruence | assumption |].
    eexists. split; [reflexivity|]. split.
    + unfold grown. cbn. repeat split; eauto using inherit_url_keeps.
    + intros [?|[?|?]]; congruence.
  - exists ctrl. unfold merge_controller. rewrite Habs, Hbase, Hparent. auto.
Qed.

(** X21: [_merge_abstract_endpoints] raises no exception and leaves the
    list of controllers as long as it was; each controller keeps its name,
    file, base class, abstractness and model, keeps its own endpoints as
    the first ones of its list, and keeps a model URL it already had.  An
    abstract controller, one without a base class and one whose parent is
    not found are unchanged. *)
Theorem merge_abstract_keeps_own_endpoints
    (controllers : list Controller.t) (abstract_controllers : abstract_dict) :
  abstract_only abstract_controllers ->
  exists merged,
    _merge_abstract_endpoints controllers abstract_controllers = Some merged
    /\ Forall2
         (fun ctrl ctrl' =>
            grown ctrl ctrl'
            /\ (Controller.is_abstract ctrl = true
                \/ Controller.base_class ctrl = ""
                \/ find_parent abstract_controllers ctrl = None ->
                ctrl' = ctrl))
         controllers merged.
Proof.
  intros _. unfold _merge_abstract_endpoints.
  induction controllers as [|ctrl more (merged & Hmore & Hall)].
  - exists []. split; [reflexivity | constructor].
  - destruct (merge_controller_grown abstract_controllers ctrl)
      as (ctrl' & Hctrl & Hgrown).
    exists (ctrl' :: merged). split; [|constructor; assumption].
    cbn [mapM]. rewrite Hctrl. cbn [mbind option_bind]. rewrite Hmore.
    reflexivity.
Qed.

Lemma merge_abstract_keeps_own_endpoints_witness :
  exists merged,
    _merge_abstract_endpoints filter_controllers filter_abstracts = Some merged
    /\ Forall2
         (fun ctrl ctrl' =>
            grown ctrl ctrl'
            /\ (Controller.is_abstract ctrl = true
                \/ Controller.base_class ctrl = ""
                \/ find_parent filter_abstracts ctrl = None ->
                ctrl' = ctrl))
         filter_controllers merged.
Proof.
  apply (merge_abstract_keeps_own_endpoints filter_controllers filter_abstracts).
  repeat constructor.
Defined.

(** X22: a concrete controller with a base class whose parent is found
    ends up with its own endpoints followed by one re-homed copy of every
    endpoint of the parent whose command it did not document itself, in
    the parent's order: the copy has the parent's methods, command and
    parameters, the module and controller of the first endpoint of the
    merged list, and a path and method identifier rebuilt for them.  So
    the controller offers every command of its parent, and it takes the
    parent's model URL when it has none. *)
Theorem merge_abstract_inherits
    (controllers merged : list Controller.t)
    (abstract_controllers : abstract_dict)
    (i : nat) (ctrl ctrl' parent : Controller.t) :
  abstract_only abstract_controllers ->
  _merge_abstract_endpoints controllers abstract_controllers = Some merged ->
  controllers !! i = Some ctrl ->
  merged !! i = Some ctrl' ->
  Controller.is_abstract ctrl = false ->
  Controller.base_class ctrl <> "" ->
  find_parent abstract_controllers ctrl = Some parent ->
  exists added,
    Controller.endpoints ctrl' = Controller.endpoints ctrl ++ added
    /\ Forall2 inherited (missing_from ctrl parent) added
    /\ (forall ep', In ep' added ->
          exists first,
            head (Controller.endpoints ctrl') = Some first
            /\ Endpoint.module ep' = Endpoint.module first
            /\ Endpoint.controller ep' = Endpoint.controller first)
    /\ (forall ep, In ep (Controller.endpoints parent) ->
          In (Endpoint.command ep)
            (map Endpoint.command (Controller.endpoints ctrl')))
    /\ Controller.model_url ctrl'
       = (if nonempty (Controller.model_url ctrl)
          then Controller.model_url ctrl
          else Controller.model_url parent).
Proof.
  intros _ Hmerged Hi Hi' Habs Hbase Hparent.
  unfold _merge_abstract_endpoints in Hmerged.
  apply mapM_Some in Hmerged.
  pose proof (Forall2_lookup_lr _ _ _ _ _ _ Hmerged Hi Hi') as Hctrl.
  destruct (merge_controller_child abstract_controllers ctrl parent
              Habs Hbase Hparent) as (added & Heq & Hall & Hhome).
  cbv beta in Hctrl. rewrite Heq in Hctrl. injection Hctrl as <-. cbn.
  exists added. split; [reflexivity|]. split; [assumption|].
  split; [assumption|]. split.
  - intros ep Hin. rewrite map_app. apply in_app_iff.
    destruct (existsb (String.eqb (Endpoint.command ep))
                (map Endpoint.command (Controller.endpoints ctrl)))
      eqn:Hown.
    + left. apply existsb_exists in Hown as (cmd & Hcmd & Heqb).
      apply String.eqb_eq in Heqb. congruence.
    + right.
      assert (Hmiss : In ep (missing_from ctrl parent)).
      { unfold missing_from. apply filter_In. rewrite Hown. auto. }
      clear - Hall Hmiss. induction Hall as [|e e' l l' He Hl IH];
        [destruct Hmiss|].
      destruct Hmiss as [->|Hmiss]; cbn [map In].
      * left. apply He.
      * right. auto.
  - unfold inherit_url.
    destruct (Controller.model_url ctrl), (Controller.model_url parent);
      reflexivity.
Qed.

Lemma merge_abstract_inherits_witness :
  exists added,
    Controller.endpoints filter_child_merged
    = Controller.endpoints filter_child ++ added
    /\ Forall2 inherited (missing_from filter_child filter_base) added
    /\ (forall ep', In ep' added ->
          exists first,
            head (Controller.endpoints filter_child_merged) = Some first
            /\ Endpoint.module ep' = Endpoint.module first
            /\ Endpoint.controller ep' = Endpoint.controller first)
    /\ (forall ep, In ep (Controller.endpoints filter_base) ->
          In (Endpoint.command ep)
            (map Endpoint.command (Controller.endpoints filter_child_merged)))
    /\ Controller.model_url filter_child_merged
       = (if nonempty (Controller.model_url filter_child)
          then Controller.model_url filter_child
          else Controller.model_url filter_base).
Proof.
  apply (merge_abstract_inherits filter_controllers
           [filter_base; filter_child_merged] filter_abstracts 1
           filter_child filter_child_merged filter_base).
  - repeat constructor.
  - vm_compute. reflexivity.
  - reflexivity.
  - reflexivity.
  - reflexivity.
  - discriminate.
  - vm_compute. reflexivity.
Defined.


Lemma file_abstract_lookup (l : list Controller.t)
    (m : gmap string Controller.t) (k : string) :
  match foldl file_abstract m l !! k with
  | Some p =>
      m !! k = Some p
      \/ (In p l
          /\ (k = Controller.name p
              \/ k = remove_sub "Controller" (Controller.name p)))
  | None =>
      m !! k = None
      /\ forall p, In p l ->
           k <> Controller.name p
           /\ k <> remove_sub "Controller" (Controller.name p)
  end.
Proof.
  revert m. induction l as [|x l IH]; intros m; cbn [foldl].
  - destruct (m !! k); [auto | split; [reflexivity | intros p []]].
  - specialize (IH (file_abstract m x)).
    destruct (foldl file_abstract (file_abstract m x) l !! k) as [p|].
    + destruct IH as [Hm|(Hin & Hk)]; [|right; cbn [In]; auto].
      unfold file_abstract in Hm.
      apply lookup_insert_Some in Hm as [(<- & <-)|(Hne & Hm)];
        [right; cbn [In]; auto|].
      apply lookup_insert_Some in Hm as [(<- & <-)|(Hne' & Hm)];
        [right; cbn [In]; auto | auto].
    + destruct IH as (Hm & Hl). unfold file_abstract in Hm.
      apply lookup_insert_None in Hm as (Hm & Hne).
      apply lookup_insert_None in Hm as (Hm & Hne').
      split; [assumption|]. intros p [<-|Hin]; [split; congruence | auto].
Qed.

(** X23: the parent of a controller is a controller of the dictionary.
    One whose name is the base class, or is it once every [Controller] is
    removed from the name, is preferred; without such a one, the parent is
    a controller whose name contains the base class; and no parent is
    found only when no controller of the dictionary is any of these. *)
Theorem find_parent_sound (abstract_controllers : abstract_dict)
    (ctrl : Controller.t) :
  let base_class := Controller.base_class ctrl in
  let exact p :=
    base_class = Controller.name p
    \/ base_class = remove_sub "Controller" (Controller.name p) in
  match find_parent abstract_controllers ctrl with
  | Some parent =>
      In parent (values abstract_controllers)
      /\ (exact parent
          \/ ((forall p, In p (values abstract_controllers) -> ~ exact p)
              /\ has_substring base_class (Controller.name parent) = true))
  | None =>
      forall p, In p (values abstract_controllers) ->
        ~ exact p /\ has_substring base_class (Controller.name p) = false
  end.
Proof.
  intros base_class exact. unfold find_parent, abstract_by_name.
  pose proof (file_abstract_lookup (values abstract_controllers) ∅ base_class)
    as Hlookup.
  fold base_class.
  destruct (foldl file_abstract ∅ (values abstract_controllers) !! base_class)
    as [parent|].
  - destruct Hlookup as [Hempty|(Hin & Hexact)].
    + rewrite lookup_empty in Hempty. discriminate.
    + split; [assumption|]. left. exact Hexact.
  - destruct Hlookup as (_ & Hnone).
    assert (Hno : forall p, In p (values abstract_controllers) -> ~ exact p).
    { intros p Hin [Hp|Hp]; destruct (Hnone p Hin); contradiction. }
    unfold by_pattern.
    destruct (List.find _ (values abstract_controllers)) as [parent|] eqn:Hfind.
    + apply List.find_some in Hfind as (Hin & Hsub). auto.
    + intros p Hin. split; [auto|].
      apply (List.find_none _ _ Hfind p Hin).
Qed.

End MergeFacts.

(** ** Go identifiers of resources and modules *)

Section GoIdentFacts.

Lemma lower_title_from (b : bool) (s : string) :
  lower (title_from b s) = lower s.
Proof.
  unfold lower. revert b. induction s as [|c r IH]; intros b; [reflexivity|].
  cbn [title_from].
  destruct (is_lower_char c); [|destruct (is_upper_char c)];
    cbn [map_chars]; rewrite IH; destruct b;
    rewrite ?to_lower_to_upper, ?to_lower_idempotent; reflexivity.
Qed.

Lemma lower_replace_sep (c : ascii) (new s : string) :
  (forall d, Ascii.eqb (to_lower d) c = Ascii.eqb d c) ->
  lower (replace c new s) = replace c (lower new) (lower s).
Proof.
  intros Hc. induction s as [|d r IH]; [reflexivity|].
  unfold lower in *. cbn [map_chars replace]. rewrite Hc.
  destruct (Ascii.eqb d c).
  - rewrite map_chars_app. now rewrite IH.
  - cbn [map_chars]. now rewrite IH.
Qed.

Lemma to_lower_space (c : ascii) :
  Ascii.eqb (to_lower c) " " = Ascii.eqb c " ".
Proof. destruct c as [[] [] [] [] [] [] [] []]; reflexivity. Qed.

(** A test that does not tell the two cases of a letter apart gives the
    same on a text and on its title case. *)
Lemma title_keeps_out (p : ascii -> bool) (b : bool) (s : string) :
  (forall c, p (to_upper c) = p c) -> (forall c, p (to_lower c) = p c) ->
  any_char p (title_from b s) = any_char p s.
Proof.
  intros Hup Hlow. revert b. induction s as [|c r IH]; intros b;
    [reflexivity|].
  cbn [title_from].
  destruct (is_lower_char c); [|destruct (is_upper_char c)];
    cbn [any_char]; rewrite IH; destruct b; rewrite ?Hup, ?Hlow; reflexivity.
Qed.

Lemma sep_case_blind (sep : ascii) :
  is_lower_char sep = false -> is_upper_char sep = false ->
  (forall c, Ascii.eqb sep (to_upper c) = Ascii.eqb sep c)
  /\ (forall c, Ascii.eqb sep (to_lower c) = Ascii.eqb sep c).
Proof.
  intros Hl Hu. split; intros c.
  - unfold to_upper. destruct (is_lower_char c) eqn:Hc; [|reflexivity].
    destruct (Ascii.eqb_spec sep c) as [->|Hne]; [congruence|].
    apply Ascii.eqb_neq. intros ->.
    revert Hc Hu. clear.
    destruct c as [[] [] [] [] [] [] [] []]; vm_compute; congruence.
  - unfold to_lower. destruct (is_upper_char c) eqn:Hc; [|reflexivity].
    destruct (Ascii.eqb_spec sep c) as [->|Hne]; [congruence|].
    apply Ascii.eqb_neq. intros ->.
    revert Hc Hl. clear.
    destruct c as [[] [] [] [] [] [] [] []]; vm_compute; congruence.
Qed.

Lemma titled_has_no (sep : ascii) (s : string) :
  is_lower_char sep = false -> is_upper_char sep = false ->
  contains sep s = false ->
  contains sep (replace " " "" (title s)) = false.
Proof.
  intros Hl Hu Hs. unfold contains in *.
  apply any_char_replace; [reflexivity|].
  destruct (sep_case_blind sep Hl Hu) as (Hup & Hlow).
  unfold title. now rewrite title_keeps_out.
Qed.

Lemma title_head (s : string) :
  match replace " " "" (title_from false s) with
  | String c _ => is_lower_char c = false
  | EmptyString => True
  end.
Proof.
  induction s as [|c r IH]; [exact I|].
  cbn [title_from].
  destruct (is_lower_char c) eqn:Hlow.
  - cbn [replace].
    assert (Ascii.eqb (to_upper c) " " = false) as ->.
    { revert Hlow. clear.
      destruct c as [[] [] [] [] [] [] [] []]; vm_compute; congruence. }
    revert Hlow. clear.
    destruct c as [[] [] [] [] [] [] [] []]; vm_compute; congruence.
  - destruct (is_upper_char c) eqn:Hup.
    + cbn [replace].
      assert (Ascii.eqb c " " = false) as ->.
      { revert Hup. clear.
        destruct c as [[] [] [] [] [] [] [] []]; vm_compute; congruence. }
      exact Hlow.
    + cbn [replace]. destruct (Ascii.eqb c " ").
      * rewrite app_nil_l. exact IH.
      * exact Hlow.
Qed.

(** X24: the Go identifier of a resource name, and the field name of a
    module, hold none of their separators (hyphen, underscore and space;
    for a module underscore and space) and do not start with a lower-case
    letter; for an ASCII name they are the name without its separators,
    up to the case of the letters. *)
Theorem go_ident_keeps_letters (name : string) :
  ((isascii name = true ->
    lower (_to_go_ident name)
    = replace " " "" (replace "_" " " (replace "-" " " (lower name))))
   /\ contains "-" (_to_go_ident name) = false
   /\ contains "_" (_to_go_ident name) = false
   /\ contains " " (_to_go_ident name) = false
   /\ match _to_go_ident name with
      | String c _ => is_lower_char c = false
      | EmptyString => True
      end)
  /\ ((isascii name = true ->
       lower (_module_field_name name)
       = replace " " "" (replace "_" " " (lower name)))
      /\ contains "_" (_module_field_name name) = false
      /\ contains " " (_module_field_name name) = false
      /\ match _module_field_name name with
         | String c _ => is_lower_char c = false
         | EmptyString => True
         end).
Proof.
  unfold _to_go_ident, _module_field_name. split.
  - split; [|split; [|split; [|split]]].
    + intros _. rewrite (lower_replace_sep " " "" _ to_lower_space).
      unfold title. rewrite lower_title_from.
      rewrite (lower_replace_sep "_" " " _ to_lower_underscore).
      now rewrite (lower_replace_sep "-" " " _ to_lower_hyphen).
    + apply titled_has_no; [reflexivity..|].
      apply any_char_replace; [reflexivity|].
      now apply replace_removes.
    + apply titled_has_no; [reflexivity..|]. now apply replace_removes.
    + apply removed_has_none.
    + apply title_head.
  - split; [|split; [|split]].
    + intros _. rewrite (lower_replace_sep " " "" _ to_lower_space).
      unfold title. rewrite lower_title_from.
      now rewrite (lower_replace_sep "_" " " _ to_lower_underscore).
    + apply titled_has_no; [reflexivity..|]. now apply replace_removes.
    + apply removed_has_none.
    + apply title_head.
Qed.

Lemma go_ident_keeps_letters_witness :
  lower (_to_go_ident "host-alias")
  = replace " " "" (replace "_" " " (replace "-" " " (lower "host-alias")))
  /\ lower (_module_field_name "os_frr")
     = replace " " "" (replace "_" " " (lower "os_frr")).
Proof.
  split.
  - apply (proj1 (proj1 (go_ident_keeps_letters "host-alias"))). reflexivity.
  - apply (proj1 (proj2 (go_ident_keeps_letters "os_frr"))). reflexivity.
Defined.

Lemma hyphenate_ident (s : string) (b : bool) :
  kebab_letters b s = true ->
  hyphenate
    (replace " " "" (title_from b (replace "_" " " (replace "-" " " s))))
  = if b then s else String "-" s.
Proof.
  revert b. induction s as [|c r IH]; intros b; cbn [kebab_letters].
  - intros ->. reflexivity.
  - destruct (Ascii.eqb_spec c "-") as [->|Hne].
    + intros [-> Hr]%andb_true_iff. cbn [replace].
      rewrite Ascii.eqb_refl.
      change (" " +:+ ?x) with (String " " x). cbn [replace].
      change (Ascii.eqb " " "_") with false. cbn [title_from].
      change (is_lower_char " ") with false.
      change (is_upper_char " ") with false. cbn [replace].
      rewrite Ascii.eqb_refl, app_nil_l.
      exact (IH false Hr).
    + intros [Hc Hr]%andb_true_iff. cbn [replace].
      assert (Hfacts :
                Ascii.eqb c "-" = false /\ Ascii.eqb c "_" = false
                /\ Ascii.eqb c " " = false
                /\ Ascii.eqb (to_upper c) " " = false
                /\ is_upper_char c = false
                /\ is_upper_char (to_upper c) = true
                /\ to_lower (to_upper c) = c).
      { revert Hc. clear.
        destruct c as [[] [] [] [] [] [] [] []]; vm_compute; try congruence;
          intros _; repeat split. }
      destruct Hfacts as (-> & H_ & Hsp & Hsp' & Hup & Hup' & Hback).
      cbn [replace]. rewrite H_. cbn [title_from]. rewrite Hc.
      destruct b; cbn [replace]; rewrite ?Hsp, ?Hsp'; cbn [hyphenate];
        rewrite ?Hup, ?Hup', ?Hback, (IH true Hr); reflexivity.
Qed.

(** X25: two resource names made of words of lower-case letters with
    single hyphens between them get the same Go identifier only when they
    are the same name. *)
Theorem go_ident_injective_on_letter_names (a b : string) :
  kebab_letters false a = true -> kebab_letters false b = true ->
  _to_go_ident a = _to_go_ident b -> a = b.
Proof.
  intros Ha Hb Heq.
  apply (f_equal hyphenate) in Heq. unfold _to_go_ident, title in Heq.
  rewrite (hyphenate_ident a false Ha), (hyphenate_ident b false Hb) in Heq.
  congruence.
Qed.

Lemma go_ident_injective_on_letter_names_witness :
  "host-alias"%string = "host-alias"%string.
Proof.
  apply (go_ident_injective_on_letter_names "host-alias" "host-alias");
    reflexivity.
Defined.

End GoIdentFacts.

(** ** Client emitter: one endpoint per method identifier *)

Section ClientEndpointFacts.

(** X26: the endpoints that the client emitter collects for a module
    carry pairwise different method identifiers, and an endpoint is
    collected exactly when it is the first of the endpoints of the
    module's concrete controllers, in declaration order, with its method
    identifier: abstract controllers contribute nothing and the first
    occurrence wins over the whole module. *)
Theorem client_endpoints_one_per_method (module : ApiModule.t) :
  List.NoDup (map Endpoint.go_method_name (_collect_endpoints module))
  /\ forall e,
       In e (_collect_endpoints module)
       <-> List.find (same_method e)
             (concrete_endpoints (ApiModule.controllers module)) = Some e.
Proof.
  split; [apply collect_endpoints_unique|].
  intros e. apply collect_endpoints_first_wins.
Qed.

End ClientEndpointFacts.

(** ** Table parser: reading the endpoint table *)

Section TableFacts.

Lemma lstrip_by_keeps_out p q (s : string) :
  any_char p s = false -> any_char p (lstrip_by q s) = false.
Proof.
  induction s as [|c r IH]; [reflexivity|]. cbn [lstrip_by].
  destruct (q c); [|auto]. cbn [any_char]. intros [_ Hr]%orb_false_iff. auto.
Qed.

Lemma rstrip_by_keeps_out p q (s : string) :
  any_char p s = false -> any_char p (rstrip_by q s) = false.
Proof.
  induction s as [|c r IH]; [reflexivity|]. cbn [any_char rstrip_by].
  intros [Hc Hr]%orb_false_iff. specialize (IH Hr).
  destruct (rstrip_by q r) as [|d r'].
  - destruct (q c); [reflexivity|]. cbn [any_char]. now rewrite Hc.
  - cbn [any_char] in *. now rewrite Hc.
Qed.

Lemma strip_by_keeps_out p q (s : string) :
  any_char p s = false -> any_char p (strip_by q s) = false.
Proof.
  intros H. unfold strip_by.
  now apply rstrip_by_keeps_out, lstrip_by_keeps_out.
Qed.

Lemma slice_inner_Forall {A} (P : A -> Prop) (xs : list A) :
  Forall P xs -> Forall P (slice_inner xs).
Proof.
  intros H. unfold slice_inner.
  assert (Htl : Forall P (List.tl xs)) by (destruct H; [constructor | assumption]).
  revert Htl. generalize (List.tl xs). clear. intros l H.
  induction H as [|x l Hx Hl IH]; [constructor|].
  cbn [List.removelast]. destruct l; [constructor|].
  constructor; assumption.
Qed.

Lemma cells_have_no_bar (line : string) :
  Forall (fun cell => contains "|" cell = false) (cells_of line).
Proof.
  unfold cells_of. apply Forall_map.
  eapply Forall_impl; [apply slice_inner_Forall, split_parts_clean|].
  intros cell Hcell. now apply strip_by_keeps_out.
Qed.

Lemma row_endpoint_documented (method_str module controller command
    params_str : string) :
  contains "|" module = false -> contains "|" controller = false ->
  contains "|" command = false ->
  exists ep,
    row_endpoint method_str module controller command params_str = Some ep
    /\ documented ep.
Proof.
  intros Hm Hc Hcmd. unfold row_endpoint.
  destruct (snake_to_camel_total command) as [camel Hcamel].
  destruct (go_method_name_total controller command) as [name Hname].
  rewrite Hcamel, Hname. cbn [mbind option_bind].
  eexists. split; [reflexivity|].
  unfold documented, Endpoint.parsed. cbn.
  repeat split; auto.
  - intros Hnil. apply map_eq_nil in Hnil. now apply split_nonempty in Hnil.
  - intros field [<-|[<-|[<-|[]]]]; assumption.
Qed.

Lemma before_first_clean c (s w : string) :
  before_first c s = Some w -> contains c w = false.
Proof.
  unfold contains. revert w. induction s as [|d r IH]; intros w;
    cbn [before_first]; [discriminate|].
  destruct (Ascii.eqb d c) eqn:Hd; [now intros [= <-]|].
  destruct (before_first c r) as [w'|]; [|discriminate].
  intros [= <-]. cbn [any_char]. now rewrite Ascii.eqb_sym, Hd, (IH w').
Qed.

Lemma drop_plus (a s : string) (n : nat) :
  drop (String.length a + n) (a +:+ s) = drop n s.
Proof. induction a as [|c a IH]; [reflexivity | exact IH]. Qed.

Lemma endswith_app_l (a s p : string) :
  endswith s p = true -> endswith (a +:+ s) p = true.
Proof.
  unfold endswith. intros [Hlen Heq]%andb_true_iff.
  apply Nat.leb_le in Hlen. rewrite length_app.
  apply andb_true_iff. split; [apply Nat.leb_le; lia|].
  replace (String.length a + String.length s - String.length p)
    with (String.length a + (String.length s - String.length p)) by lia.
  now rewrite drop_plus.
Qed.

Lemma link_target_xml (t url : string) :
  link_target t = Some url -> xml_url url.
Proof.
  unfold link_target. destruct (startswith t "]("); [|discriminate].
  destruct (scheme_of (drop 2 t)) as [[scheme u]|] eqn:Hscheme;
    [|discriminate].
  cbn [mbind option_bind].
  destruct (before_first ")" u) as [w|] eqn:Hw; [|discriminate].
  cbn [mbind option_bind].
  destruct ((5 <=? String.length w) && endswith w ".xml") eqn:Hok;
    [|discriminate].
  intros [= <-]. apply andb_true_iff in Hok as [_ Hend].
  apply before_first_clean in Hw.
  assert (Hs : scheme = "http://" \/ scheme = "https://").
  { unfold scheme_of in Hscheme.
    destruct (startswith (drop 2 t) "https://"); [injection Hscheme; auto|].
    destruct (startswith (drop 2 t) "http://"); [injection Hscheme; auto|].
    discriminate. }
  unfold xml_url. split; [|split].
  - destruct Hs as [->| ->]; [left | right]; apply startswith_app.
  - now apply endswith_app_l.
  - unfold contains in *. rewrite any_char_app, Hw.
    destruct Hs as [->| ->]; reflexivity.
Qed.

Lemma lazy_link_xml (t url : string) : lazy_link t = Some url -> xml_url url.
Proof.
  induction t as [|c r IH]; cbn [lazy_link].
  - destruct (link_target "") eqn:Hl; [|discriminate].
    intros [= <-]. eapply link_target_xml, Hl.
  - destruct (link_target (String c r)) eqn:Hl.
    + intros [= <-]. eapply link_target_xml, Hl.
    + destruct (Ascii.eqb c newline); [discriminate | exact IH].
Qed.

Lemma search_url_xml (s url : string) : search_url s = Some url -> xml_url url.
Proof.
  induction s as [|c r IH]; cbn [search_url]; [discriminate|].
  destruct (Ascii.eqb c "["); [|exact IH].
  destruct (lazy_link r) eqn:Hl; [|exact IH].
  intros [= <-]. eapply lazy_link_xml, Hl.
Qed.

Lemma parse_rows_spec (rest : list string) (endpoints : list Endpoint.t)
    (model_url : string) :
  Forall documented endpoints ->
  model_url = "" \/ xml_url model_url ->
  exists endpoints' model_url',
    parse_rows rest endpoints model_url = Some (endpoints', model_url')
    /\ Forall documented endpoints'
    /\ (model_url' = "" \/ xml_url model_url').
Proof.
  revert endpoints model_url.
  induction rest as [|raw more IH]; intros endpoints model_url Heps Hurl;
    cbn [parse_rows]; [eauto|].
  destruct (table_row_re (strip raw)); cbn [negb]; [|eauto].
  pose proof (cells_have_no_bar (strip raw)) as Hcells.
  destruct (cells_of (strip raw)) as [|c0 [|c1 [|c2 [|c3 [|c4 cells]]]]];
    try (now apply IH).
  destruct (negb (nonempty (strip (strip_char "`" c0)))
            && negb (nonempty (strip c1))); [now apply IH|].
  destruct (has_substring "<<uses>>" (strip (strip_char "`" c0))).
  - apply IH; [assumption|].
    destruct (search_url (strip c4)) as [url|] eqn:Hsearch; [|assumption].
    right. eapply search_url_xml, Hsearch.
  - inversion Hcells as [|? ? _ H1]; subst.
    inversion H1 as [|? ? Hc1 H2]; subst.
    inversion H2 as [|? ? Hc2 H3]; subst.
    inversion H3 as [|? ? Hc3 _]; subst.
    destruct (row_endpoint_documented (strip (strip_char "`" c0))
                (strip c1) (strip c2) (strip c3) (strip c4))
      as (ep & -> & Hep); try (now apply strip_by_keeps_out).
    cbn [mbind option_bind]. apply IH; [|assumption].
    apply Forall_app. split; [assumption | now constructor].
Qed.

(** X27: [_parse_table] raises no exception, whatever the lines and the
    start index.  Every endpoint it returns is consistent: its camel-case
    command, its path [/api/module/controller/command] and its method
    identifier are the ones derived from its module, controller and
    command, which hold no bar; it has at least one method and no
    resolver annotation.  The model URL it returns is empty or starts
    with [http://] or [https://], ends in [.xml] and holds no closing
    parenthesis. *)
Theorem parse_table_endpoints_documented (lines : list string) (start : nat) :
  exists endpoints model_url,
    _parse_table lines start = Some (endpoints, model_url)
    /\ Forall documented endpoints
    /\ (model_url = "" \/ xml_url model_url).
Proof.
  unfold _parse_table.
  destruct (find_header (List.skipn start lines)) as [rest|].
  - apply parse_rows_spec; [constructor | now left].
  - exists [], "". split; [reflexivity|]. split; [constructor | now left].
Qed.


Lemma any_char_weaken (p q : ascii -> bool) (s : string) :
  (forall c, q c = true -> p c = true) ->
  any_char p s = false -> any_char q s = false.
Proof.
  intros Hpq. induction s as [|c r IH]; [reflexivity|]. cbn [any_char].
  intros [Hc Hr]%orb_false_iff. rewrite (IH Hr), orb_false_r.
  destruct (q c) eqn:Hq; [|reflexivity]. apply Hpq in Hq. congruence.
Qed.

Lemma plain_text_parts (s : string) :
  plain_text s = true ->
  any_char is_space s = false
  /\ contains "|" s = false
  /\ any_char (Ascii.eqb "`") s = false.
Proof.
  unfold plain_text, contains. intros H%negb_true_iff.
  repeat split; (eapply any_char_weaken; [|exact H]); intros c Hc; cbn beta.
  - now rewrite Hc.
  - rewrite (Ascii.eqb_sym c "|"), Hc. now destruct (is_space c).
  - rewrite (Ascii.eqb_sym c "`"), Hc. apply orb_true_r.
Qed.

Lemma lstrip_by_out p (s : string) :
  any_char p s = false -> lstrip_by p s = s.
Proof.
  destruct s as [|c r]; [reflexivity|]. cbn [any_char lstrip_by].
  now intros [-> _]%orb_false_iff.
Qed.

Lemma rstrip_by_out p (s : string) :
  any_char p s = false -> rstrip_by p s = s.
Proof.
  induction s as [|c r IH]; [reflexivity|]. cbn [any_char rstrip_by].
  intros [Hc Hr]%orb_false_iff. rewrite (IH Hr), Hc. now destruct r.
Qed.

Lemma strip_by_out p (s : string) :
  any_char p s = false -> strip_by p s = s.
Proof.
  intros H. unfold strip_by. now rewrite lstrip_by_out, rstrip_by_out.
Qed.

Lemma rstrip_by_pad p (c : ascii) (x : string) :
  p c = true -> any_char p x = false ->
  rstrip_by p (x +:+ String c "") = x.
Proof.
  intros Hc. induction x as [|d r IH].
  - intros _. rewrite app_nil_l. cbn [rstrip_by]. now rewrite Hc.
  - cbn [any_char]. intros [Hd Hr]%orb_false_iff.
    rewrite app_cons. cbn [rstrip_by]. rewrite (IH Hr), Hd. now destruct r.
Qed.

Lemma strip_by_pad p (c : ascii) (x : string) :
  p c = true -> any_char p x = false ->
  strip_by p (String c (x +:+ String c "")) = x.
Proof.
  intros Hc Hx. unfold strip_by. cbn [lstrip_by]. rewrite Hc.
  destruct x as [|d r].
  - rewrite app_nil_l. cbn [lstrip_by rstrip_by]. now rewrite Hc.
  - rewrite app_cons. cbn [lstrip_by].
    cbn [any_char] in Hx. apply orb_false_iff in Hx as [Hd Hr]. rewrite Hd.
    rewrite <- app_cons. apply rstrip_by_pad; [assumption|].
    cbn [any_char]. now rewrite Hd, Hr.
Qed.

Lemma rstrip_by_keep_app p (a b : string) :
  rstrip_by p b = b -> b <> "" -> rstrip_by p (a +:+ b) = a +:+ b.
Proof.
  intros Hb Hne. induction a as [|d a IH]; [now rewrite app_nil_l|].
  rewrite app_cons. cbn [rstrip_by]. rewrite IH.
  destruct (a +:+ b) eqn:Hab; [|reflexivity].
  destruct a; [rewrite app_nil_l in Hab; congruence | discriminate].
Qed.

Lemma split_at sep (a b : string) :
  contains sep a = false ->
  split sep (a +:+ String sep b) = a :: split sep b.
Proof.
  unfold contains. induction a as [|d a IH].
  - intros _. rewrite app_nil_l. cbn [split]. now rewrite Ascii.eqb_refl.
  - cbn [any_char]. intros [Hd Ha]%orb_false_iff.
    rewrite app_cons. cbn [split]. rewrite Ascii.eqb_sym, Hd.
    now rewrite (IH Ha).
Qed.

Lemma bar_row_split (cells : list string) :
  Forall (fun cell => contains "|" cell = false) cells ->
  split "|" (bar_row cells) = "" :: cells ++ [""].
Proof.
  intros Hcells. unfold bar_row.
  change (String "|" ?x) with ("" +:+ String "|" x) at 1.
  rewrite split_at by reflexivity. f_equal.
  induction Hcells as [|cell cells Hcell _ IH]; [reflexivity|].
  cbn [fold_right app]. now rewrite split_at, IH.
Qed.

Lemma bar_row_cells (cells : list string) :
  Forall (fun cell => contains "|" cell = false) cells ->
  slice_inner (split "|" (bar_row cells)) = cells.
Proof.
  intros Hcells. rewrite bar_row_split by assumption.
  unfold slice_inner. cbn [List.tl]. apply List.removelast_last.
Qed.

Lemma drop_all (s : string) : drop (String.length s) s = "".
Proof. induction s as [|c r IH]; [reflexivity | exact IH]. Qed.

Lemma line_prefix_clean (s : string) :
  contains newline s = false -> line_prefix s = s.
Proof.
  unfold contains. induction s as [|c r IH]; [reflexivity|].
  cbn [any_char line_prefix]. intros [Hc Hr]%orb_false_iff.
  now rewrite Ascii.eqb_sym, Hc, (IH Hr).
Qed.


Lemma endswith_cons (c : ascii) (s p : string) :
  endswith s p = true -> endswith (String c s) p = true.
Proof. apply (endswith_app_l (String c "") s p). Qed.

Lemma rstrip_by_endswith p (c : ascii) (s : string) :
  p c = false -> endswith s (String c "") = true -> rstrip_by p s = s.
Proof.
  intros Hc Hend. rewrite (endswith_inv _ _ Hend).
  apply rstrip_by_keep_app; [|discriminate].
  cbn [rstrip_by]. now rewrite Hc.
Qed.

Lemma bar_tail_endswith (cells : list string) :
  cells <> [] ->
  endswith (fold_right (fun cell acc => cell +:+ String "|" acc) "" cells) "|"
  = true.
Proof.
  induction cells as [|cell cells IH]; [congruence|]. intros _.
  cbn [fold_right]. apply endswith_app_l.
  destruct cells as [|cell' cells]; [reflexivity|].
  apply endswith_cons, IH. discriminate.
Qed.

Lemma bar_tail_one_line (cells : list string) :
  Forall (fun cell => contains newline cell = false) cells ->
  contains newline
    (fold_right (fun cell acc => cell +:+ String "|" acc) "" cells) = false.
Proof.
  unfold contains. induction 1 as [|cell cells Hcell _ IH]; [reflexivity|].
  cbn [fold_right]. rewrite any_char_app, Hcell. cbn [any_char orb].
  exact IH.
Qed.

Lemma bar_row_is_row (c : ascii) (cell : string) (cells : list string) :
  Forall (fun cell => contains newline cell = false) (String c cell :: cells) ->
  table_row_re (bar_row (String c cell :: cells)) = true.
Proof.
  intros Hcells. unfold bar_row, table_row_re.
  rewrite Ascii.eqb_refl. cbn [andb].
  rewrite (line_prefix_clean _ (bar_tail_one_line _ Hcells)).
  rewrite drop_all, bar_tail_endswith by discriminate.
  cbn [fold_right]. rewrite length_app. cbn [String.length].
  match goal with
  | |- context [2 <=? ?n] =>
      assert ((2 <=? n) = true) as -> by (apply Nat.leb_le; lia)
  end.
  reflexivity.
Qed.

Lemma bar_row_stripped (cells : list string) :
  cells <> [] -> strip (bar_row cells) = bar_row cells.
Proof.
  intros Hne. unfold strip, strip_by, bar_row. cbn [lstrip_by].
  change (is_space "|") with false. cbv iota.
  apply (rstrip_by_endswith _ "|"); [reflexivity|].
  apply endswith_cons, bar_tail_endswith, Hne.
Qed.

Lemma padded_clean (sep : ascii) (x : string) :
  Ascii.eqb sep " " = false -> contains sep x = false ->
  contains sep (padded x) = false.
Proof.
  unfold contains, padded. intros Hsep Hx. cbn [any_char].
  now rewrite any_char_app, Hsep, Hx; cbn [any_char]; rewrite Hsep.
Qed.

Lemma strip_padded (x : string) :
  any_char is_space x = false -> strip (padded x) = x.
Proof. intros Hx. now apply (strip_by_pad is_space " "). Qed.

Lemma quoted_clean (sep : ascii) (x : string) :
  Ascii.eqb sep "`" = false -> contains sep x = false ->
  contains sep (String "`" (x +:+ "`")) = false.
Proof.
  unfold contains. intros Hsep Hx. cbn [any_char].
  now rewrite any_char_app, Hsep, Hx; cbn [any_char]; rewrite Hsep.
Qed.

Lemma no_space_no_newline (x : string) :
  any_char is_space x = false -> contains newline x = false.
Proof.
  unfold contains. apply any_char_weaken. intros c Hc.
  apply Ascii.eqb_eq in Hc. now subst c.
Qed.

Lemma written_row_parts (r : Row) :
  written_row r = true ->
  (plain_text (row_method r) = true /\ plain_text (row_module r) = true
   /\ plain_text (row_controller r) = true
   /\ plain_text (row_command r) = true /\ plain_text (row_params r) = true)
  /\ nonempty (row_method r) = true
  /\ has_substring "<<uses>>" (row_method r) = false.
Proof.
  unfold written_row. intros H.
  repeat (apply andb_true_iff in H as [H ?]).
  repeat split; try assumption. now apply negb_true_iff.
Qed.

(** What the loop does with a written row. *)
Lemma parse_rows_written (r : Row) (more : list string)
    (endpoints : list Endpoint.t) (model_url : string) :
  written_row r = true ->
  parse_rows (row_text r :: more) endpoints model_url
  = (ep ← endpoint_of_row r; parse_rows more (endpoints ++ [ep]) model_url).
Proof.
  intros Hr.
  destruct (written_row_parts r Hr)
    as ((Hm & Hmo & Hc & Hcmd & Hp) & Hne & Huses).
  apply plain_text_parts in Hm as (Hm1 & Hm2 & Hm3).
  apply plain_text_parts in Hmo as (Hmo1 & Hmo2 & _).
  apply plain_text_parts in Hc as (Hc1 & Hc2 & _).
  apply plain_text_parts in Hcmd as (Hcmd1 & Hcmd2 & _).
  apply plain_text_parts in Hp as (Hp1 & Hp2 & _).
  assert (Hq1 : any_char is_space (String "`" (row_method r +:+ "`")) = false).
  { cbn [any_char]. rewrite any_char_app, Hm1. reflexivity. }
  cbn [parse_rows]. unfold row_text.
  rewrite bar_row_stripped by discriminate.
  rewrite (bar_row_is_row " " (String "`" (row_method r +:+ "`") +:+ " ")).
  2:{ repeat constructor; apply padded_clean; try reflexivity;
      now apply no_space_no_newline. }
  cbn [negb]. unfold cells_of. rewrite bar_row_cells.
  2:{ repeat constructor; apply padded_clean; try reflexivity;
      try assumption. now apply quoted_clean. }
  cbn [map]. rewrite !strip_padded by assumption.
  unfold strip_char.
  rewrite (strip_by_pad (Ascii.eqb "`") "`" (row_method r)) by
    (reflexivity || assumption).
  unfold strip. rewrite !strip_by_out by assumption.
  rewrite Hne, Huses. cbn [negb andb]. reflexivity.
Qed.

Lemma row_endpoint_total (r : Row) : is_Some (endpoint_of_row r).
Proof.
  unfold endpoint_of_row, row_endpoint.
  destruct (snake_to_camel_total (row_command r)) as [camel ->].
  destruct (go_method_name_total (row_controller r) (row_command r))
    as [name ->].
  cbn. eauto.
Qed.

Lemma parse_rows_written_all (rows : list Row) (rest : list string)
    (endpoints : list Endpoint.t) (model_url : string) :
  Forall (fun r => written_row r = true) rows ->
  exists read,
    mapM endpoint_of_row rows = Some read
    /\ parse_rows (map row_text rows ++ "" :: rest) endpoints model_url
       = Some (endpoints ++ read, model_url).
Proof.
  intros Hrows. revert endpoints.
  induction Hrows as [|r rows Hr _ IH]; intros endpoints.
  - exists []. split; [reflexivity|]. now rewrite app_nil_r.
  - destruct (row_endpoint_total r) as [ep Hep].
    destruct (IH (endpoints ++ [ep])) as (read & Hread & Hparse).
    exists (ep :: read). split.
    + cbn [mapM]. rewrite Hep. cbn [mbind option_bind]. now rewrite Hread.
    + cbn [map app]. rewrite parse_rows_written by assumption.
      rewrite Hep. cbn [mbind option_bind]. rewrite Hparse.
      now rewrite <- app_assoc.
Qed.

(** X28: a table written in the documented layout is read back row by
    row.  After the header and the separator, rows whose five cells are
    plain texts (no white space, bar or backquote; the method not empty
    and not a [<<uses>>] marker), closed by an empty line, give one
    endpoint per row in the same order, built from the five cells as
    written, and no model URL; whatever follows the empty line is not
    read. *)
Theorem parse_table_reads_rows (rows : list Row) (rest : list string) :
  Forall (fun r => written_row r = true) rows ->
  exists endpoints,
    mapM endpoint_of_row rows = Some endpoints
    /\ _parse_table
         (header_line :: separator_line :: map row_text rows ++ "" :: rest) 0
       = Some (endpoints, "").
Proof.
  intros Hrows.
  destruct (parse_rows_written_all rows rest [] "" Hrows)
    as (read & Hread & Hparse).
  exists read. split; [assumption|].
  unfold _parse_table. cbn [List.skipn find_header].
  assert (Hheader :
            table_row_re (strip header_line)
            && header_cells (cells_of (strip header_line)) = true)
    by (vm_compute; reflexivity).
  rewrite Hheader. cbn [skip_separator].
  assert (Hsep : separator_re (strip separator_line) = true)
    by (vm_compute; reflexivity).
  rewrite Hsep. exact Hparse.
Qed.

Lemma parse_table_reads_rows_witness :
  exists endpoints,
    mapM endpoint_of_row [add_rule_row] = Some endpoints
    /\ _parse_table
         (header_line :: separator_line
          :: map row_text [add_rule_row] ++ "" :: ["Service"]) 0
       = Some (endpoints, "").
Proof.
  apply (parse_table_reads_rows [add_rule_row] ["Service"]).
  repeat constructor.
Defined.

End TableFacts.

(** ** Table parser: the header test *)

Section TableHeaderFacts.

Lemma is_table_header_inv (line : string) (lines : list string) (idx : nat) :
  _is_table_header line lines idx = true ->
  table_row_re line = true
  /\ header_cells (cells_of line) = true
  /\ exists next,
       lines !! (idx + 1) = Some next /\ separator_re (strip next) = true.
Proof.
  unfold _is_table_header.
  destruct (table_row_re line); cbn [negb]; [|discriminate].
  destruct (lines !! (idx + 1)) as [next|]; [|discriminate].
  destruct (separator_re (strip next)) eqn:Hsep; [|discriminate].
  eauto.
Qed.

(** X29: when the header test succeeds on the stripped line at [idx],
    the table parser called at [idx] takes that line as its header, skips
    the separator after it and reads the data rows from [idx + 2] on; and
    [_skip_table] called at [idx] returns the index after the unbroken run
    of rows that starts at [idx], which is at least [idx + 2]. *)
Theorem table_header_starts_the_table (lines : list string) (idx : nat)
    (raw : string) :
  lines !! idx = Some raw ->
  _is_table_header (strip raw) lines idx = true ->
  _parse_table lines idx = parse_rows (List.skipn (idx + 2) lines) [] ""
  /\ _skip_table lines idx = idx + leading_rows (List.skipn idx lines)
  /\ idx + 2 <= _skip_table lines idx <= length lines.
Proof.
  intros Hraw Hheader.
  apply is_table_header_inv in Hheader as (Hrow & Hcells & next & Hnext & Hsep).
  assert (Hdrop : List.skipn idx lines
                  = raw :: next :: List.skipn (idx + 2) lines).
  { replace (idx + 1) with (S idx) in Hnext by lia.
    replace (idx + 2) with (S (S idx)) by lia.
    rewrite (drop_S _ _ _ Hraw), (drop_S _ _ _ Hnext). reflexivity. }
  assert (Hrow1 : is_row raw = true) by (unfold is_row; now rewrite Hrow).
  assert (Hrow2 : is_row next = true).
  { unfold is_row. rewrite Hsep. apply orb_true_r. }
  assert (Hskip : _skip_table lines idx
                  = idx + leading_rows (List.skipn idx lines)).
  { unfold _skip_table. rewrite Hdrop. cbn [skip_from leading_rows].
    rewrite Hrow1, ?Hrow2, ?skip_from_in_table. lia. }
  split; [|split; [exact Hskip|]].
  - unfold _parse_table. rewrite Hdrop. cbn [find_header].
    rewrite Hrow, Hcells. cbn [andb skip_separator]. now rewrite Hsep.
  - rewrite Hskip. apply lookup_lt_Some in Hraw.
    pose proof (skip_from_bounds (List.skipn idx lines) idx idx true) as Hb.
    rewrite skip_from_in_table, List.length_skipn in Hb.
    rewrite Hdrop. rewrite Hdrop in Hb. cbn [leading_rows] in *.
    rewrite Hrow1, Hrow2 in *. lia.
Qed.

Lemma table_header_starts_the_table_witness :
  _parse_table sample_lines 1
  = parse_rows (List.skipn (1 + 2) sample_lines) [] ""
  /\ _skip_table sample_lines 1
     = 1 + leading_rows (List.skipn 1 sample_lines)
  /\ 1 + 2 <= _skip_table sample_lines 1 <= length sample_lines.
Proof.
  apply (table_header_starts_the_table sample_lines 1
           "| Method | Module | Controller | Command | Parameters |");
    reflexivity.
Defined.

End TableHeaderFacts.

(** ** Linking a model to a URL *)

Section ModelLinkFacts.

Lemma xml_prefix_sound (b : bool) (s w : string) :
  xml_prefix b s = Some w ->
  startswith s w = true /\ endswith w ".xml" = true.
Proof.
  revert b w. induction s as [|c r IH]; intros b w; cbn [xml_prefix];
    [discriminate|].
  destruct (xml_prefix true r) as [w'|] eqn:Hr.
  - intros [= <-]. destruct (IH true w' Hr) as [Hstart Hend].
    cbn [startswith]. rewrite Ascii.eqb_refl, Hstart.
    split; [reflexivity | now apply endswith_cons].
  - destruct (b && startswith (String c r) ".xml") eqn:Hhere; [|discriminate].
    intros [= <-]. apply andb_true_iff in Hhere as [_ Hhere].
    split; [exact Hhere | reflexivity].
Qed.

Lemma startswith_line_prefix (s w : string) :
  startswith (line_prefix s) w = true -> startswith s w = true.
Proof.
  revert s. induction w as [|a w IH]; intros s; [reflexivity|].
  destruct s as [|b s]; cbn [line_prefix startswith]; [discriminate|].
  destruct (Ascii.eqb b newline); cbn [startswith]; [discriminate|].
  intros [-> Hw]%andb_true_iff. now rewrite (IH s Hw).
Qed.

Lemma startswith_then (s p w : string) :
  startswith s p = true ->
  startswith (drop (String.length p) s) w = true ->
  startswith s (p +:+ w) = true.
Proof.
  intros Hp Hw. rewrite (startswith_inv _ _ Hp).
  rewrite (startswith_inv _ _ Hw), <- str_app_assoc. apply startswith_app.
Qed.

Lemma search_model_sound (s rel_path : string) :
  search_model s = Some rel_path ->
  exists w,
    rel_path = "OPNsense/" +:+ w
    /\ endswith w ".xml" = true
    /\ has_substring ("models/" +:+ rel_path) s = true.
Proof.
  induction s as [|c r IH]; [discriminate|].
  cbn [search_model has_substring].
  assert (Hlater : search_model r = Some rel_path ->
                   exists w,
                     rel_path = "OPNsense/" +:+ w
                     /\ endswith w ".xml" = true
                     /\ startswith (String c r) ("models/" +:+ rel_path)
                        || has_substring ("models/" +:+ rel_path) r = true).
  { intros Hr. destruct (IH Hr) as (w & -> & Hend & Hsub).
    exists w. rewrite Hsub, orb_true_r. auto. }
  destruct (startswith (String c r) "models/OPNsense/") eqn:Hhead;
    [|exact Hlater].
  destruct (xml_prefix false (line_prefix (drop 16 (String c r))))
    as [w|] eqn:Hw; [|exact Hlater].
  intros [= <-]. exists w.
  apply xml_prefix_sound in Hw as [Hstart Hend].
  apply startswith_line_prefix in Hstart.
  split; [reflexivity|]. split; [exact Hend|].
  change ("models/" +:+ "OPNsense/" +:+ w) with ("models/OPNsense/" +:+ w).
  now rewrite (startswith_then _ "models/OPNsense/" w Hhead Hstart).
Qed.

Lemma search_model_none (s : string) :
  has_substring "models/OPNsense/" s = false -> search_model s = None.
Proof.
  induction s as [|c r IH]; [reflexivity|].
  cbn [search_model has_substring].
  intros [-> Hr]%orb_false_iff. exact (IH Hr).
Qed.

Lemma startswith_app_long (s y p : string) :
  String.length p <= String.length s ->
  startswith (s +:+ y) p = startswith s p.
Proof.
  revert s. induction p as [|a p IH]; intros s Hlen; [reflexivity|].
  destruct s as [|b s]; cbn [String.length] in Hlen; [lia|].
  rewrite app_cons. cbn [startswith]. rewrite IH by lia. reflexivity.
Qed.

Lemma xml_prefix_full (b : bool) (x : string) :
  b = true \/ x <> "" ->
  xml_prefix b (x +:+ ".xml") = Some (x +:+ ".xml").
Proof.
  revert b. induction x as [|c x IH]; intros b Hb.
  - destruct Hb as [->|Hne]; [reflexivity | congruence].
  - rewrite app_cons. cbn [xml_prefix]. rewrite IH by auto. reflexivity.
Qed.

Lemma search_model_first (base name : string) :
  name <> "" -> contains newline name = false ->
  has_substring "models/OPNsense/" (base +:+ "models/OPNsense") = false ->
  search_model (base +:+ "models/OPNsense/" +:+ name +:+ ".xml")
  = Some ("OPNsense/" +:+ name +:+ ".xml").
Proof.
  intros Hname Hline. induction base as [|c base IH].
  - intros _. rewrite app_nil_l.
    change ("models/OPNsense/" +:+ ?x) with (String "m" ("odels/OPNsense/" +:+ x)).
    cbn [search_model].
    change (String "m" ("odels/OPNsense/" +:+ ?x)) with ("models/OPNsense/" +:+ x).
    rewrite startswith_app.
    change (drop 16 ("models/OPNsense/" +:+ name +:+ ".xml"))
      with (name +:+ ".xml").
    rewrite line_prefix_clean.
    + rewrite xml_prefix_full by auto. reflexivity.
    + unfold contains in *. now rewrite any_char_app, Hline.
  - rewrite !(app_cons c base). cbn [has_substring search_model].
    intros [Hhere Hlater]%orb_false_iff.
    assert (Hsame :
              startswith
                (String c (base +:+ "models/OPNsense/" +:+ name +:+ ".xml"))
                "models/OPNsense/"
              = startswith (String c (base +:+ "models/OPNsense"))
                  "models/OPNsense/").
    { change ("models/OPNsense/" +:+ name +:+ ".xml")
        with ("models/OPNsense" +:+ "/" +:+ name +:+ ".xml").
      rewrite <- (str_app_assoc base "models/OPNsense").
      rewrite <- (app_cons c (base +:+ "models/OPNsense")).
      apply startswith_app_long.
      cbn [String.length]. rewrite length_app. cbn [String.length]. lia. }
    rewrite Hsame, Hhere. exact (IH Hlater).
Qed.

(** X30: [match_model_to_url] returns only a model that the dictionary
    files under a key of the form [OPNsense/...xml] which occurs in the
    URL right after [models/]; for an empty URL and for a URL without
    [models/OPNsense/] it returns nothing.  For a URL that ends in
    [models/OPNsense/<name>.xml], with a non-empty one-line name and no
    earlier [models/OPNsense/], it returns what the dictionary files under
    [OPNsense/<name>.xml]. *)
Theorem model_url_resolves_by_key (models : gmap string Model.t)
    (github_url : string) :
  (forall model,
      match_model_to_url models github_url = Some model ->
      exists rel_path,
        models !! rel_path = Some model
        /\ startswith rel_path "OPNsense/" = true
        /\ endswith rel_path ".xml" = true
        /\ has_substring ("models/" +:+ rel_path) github_url = true)
  /\ (has_substring "models/OPNsense/" github_url = false ->
      match_model_to_url models github_url = None)
  /\ match_model_to_url models "" = None
  /\ (forall base name,
        name <> "" -> contains newline name = false ->
        has_substring "models/OPNsense/" (base +:+ "models/OPNsense") = false ->
        github_url = base +:+ "models/OPNsense/" +:+ name +:+ ".xml" ->
        match_model_to_url models github_url
        = models !! ("OPNsense/" +:+ name +:+ ".xml")).
Proof.
  unfold match_model_to_url. split; [|split; [|split; [reflexivity|]]].
  - intros model. destruct (negb (nonempty github_url)); [discriminate|].
    destruct (search_model github_url) as [rel_path|] eqn:Hsearch;
      [|discriminate].
    intros Hmodel. exists rel_path.
    destruct (search_model_sound _ _ Hsearch) as (w & -> & Hend & Hsub).
    split; [assumption|]. split; [apply startswith_app|].
    split; [now apply endswith_app_l | assumption].
  - intros Hnone. rewrite (search_model_none _ Hnone).
    now destruct (negb (nonempty github_url)).
  - intros base name Hname Hline Hfirst ->.
    rewrite (search_model_first base name Hname Hline Hfirst).
    now destruct base.
Qed.

Lemma model_url_resolves_by_key_witness :
  match_model_to_url sample_models sample_model_url
  = sample_models !! ("OPNsense/" +:+ "Firewall/Alias" +:+ ".xml").
Proof.
  apply (proj2 (proj2 (proj2
           (model_url_resolves_by_key sample_models sample_model_url)))
           "https://github.com/opnsense/core/blob/master/src/opnsense/mvc/app/"
           "Firewall/Alias");
    [discriminate | reflexivity | reflexivity | reflexivity].
Defined.

End ModelLinkFacts.

(** ** CLI emitter: the verbs emitted for a resource *)

Section EmittedVerbFacts.




















End EmittedVerbFacts.
